(** * StructuredMarkdownEditor: a shallow embedding of [script.js]

    The editor keeps four pieces of document state ([blocks], [variables],
    [groups], [groupCounter]) and mutates them from event handlers.  The
    embedding below follows the class method by method.

    A handler that changes the document ends with calls that refresh the
    page, the preview and the storage ([renderAllContent], [updatePreview],
    [saveToStorage], ...).  These calls do not change the document state.
    A definition that carries the name of a handler ([addBlock],
    [deleteBlock], ...) is the handler up to these calls: it gives the
    document state that the handler leaves and tells how the handler gets
    there.  The final calls, and what they can throw, are in the module
    [Handler], which follows the handlers through them where a property
    is about the errors of a handler.

    Conventions.
    - A JavaScript array of objects that is mutated through aliases
      ([getAllOrderedItems] hands out wrappers that point back to the block
      and group objects) is a list, and an alias is the position of the
      object in that list.
    - A JavaScript [Map] is an association list in insertion order, with the
      [set]/[delete] behaviour of [Map] written out.
    - A property that may be [undefined] is an [option]; [x || 0] is
      [or_zero].
    - Text is a [string] whose characters are the code units below 256.
    - The tokens produced by [Date.now()] and [Math.random()] are inputs of
      the handlers that mint an id. *)

From Stdlib Require Import ZArith String Ascii List Bool Lia.
From Stdlib Require Floats Uint63.
From stdpp Require Import base list strings pretty sorting.
Import ListNotations.

Local Open Scope string_scope.
Local Open Scope list_scope.
Local Open Scope Z_scope.

(** ** Data model *)

Inductive BlockType := Heading | Paragraph | ListT | Code | Table.

Definition BlockType_eqb (a b : BlockType) : bool :=
  match a, b with
  | Heading, Heading | Paragraph, Paragraph | ListT, ListT
  | Code, Code | Table, Table => true
  | _, _ => false
  end.

Record TableContent := mkTable {
  headers : list string;
  rows : list (list string)
}.

Inductive Content :=
| Text (s : string)
| TableData (t : TableContent).

(** [{ id, type, content, groupId, selected, order }].  [groupId] is [None]
    for both [null] and [undefined] (the code only tests it for truthiness
    and compares it with a string); [selected] is only tested for
    truthiness; [order] is [None] when the property is [undefined]. *)
Record Block := mkBlock {
  id : string;
  type : BlockType;
  content : Content;
  groupId : option string;
  selected : bool;
  order : option Z
}.

(** [{ id, name, order }] *)
Record Group := mkGroup {
  gid : string;
  name : string;
  gorder : option Z
}.

(** [{ key, value }] *)
Record Variable_ := mkVariable {
  key : string;
  value : string
}.

Record State := mkState {
  blocks : list Block;
  variables : list (string * Variable_);
  groups : list (string * Group);
  groupCounter : nat
}.

(** The constructor: [blocks = []], two empty maps, [groupCounter = 0]. *)
Definition constructor : State := mkState [] [] [] 0.

(** How a handler ends, up to its final calls: it reaches them (or the end
    of its body), it returns after [alert(msg)], or it dies with a
    [TypeError].  The state is the document state at that moment, which is
    the state that the handler leaves. *)
Inductive Outcome :=
| Returned (s : State)
| Alerted (msg : string) (s : State)
| Threw (s : State).

Definition state_of (o : Outcome) : State :=
  match o with Returned s | Alerted _ s | Threw s => s end.

(** ** JavaScript primitives used by the handlers *)

(** The line feed, as a character and as a one-character string. *)
Definition LF : ascii := "010"%char.
Definition nl : string := String LF "".
Definition dquote : string := String "034"%char "".

(** [x || 0] on an order *)
Definition or_zero (o : option Z) : Z :=
  match o with
  | None => 0
  | Some z => if z =? 0 then 0 else z
  end.

(** truthiness of [block.groupId] *)
Definition truthy_groupId (g : option string) : bool :=
  match g with
  | None => false
  | Some s => negb (String.eqb s "")
  end.

(** [block.groupId === groupId] for a string [groupId] *)
Definition groupId_is (g : option string) (k : string) : bool :=
  match g with
  | None => false
  | Some s => String.eqb s k
  end.

(** [a.groupId === b.groupId] for a [b.groupId] that is a string; [null] and
    [undefined] never equal one. *)
Definition same_groupId (a b : option string) : bool :=
  match b with
  | None => false
  | Some k => groupId_is a k
  end.

(** An array together with the position of each element, counting from
    [n] and from [0]. *)
Definition indexed_from {A} (n : nat) (l : list A) : list (nat * A) :=
  combine (seq n (length l)) l.

Definition indexed {A} (l : list A) : list (nat * A) := indexed_from 0 l.

(** [arr.findIndex(p)], [-1] when nothing matches. *)
Fixpoint findIndex_from {A} (p : A -> bool) (l : list A) (i : Z) : Z :=
  match l with
  | [] => -1
  | x :: l' => if p x then i else findIndex_from p l' (i + 1)
  end.

Definition findIndex {A} (p : A -> bool) (l : list A) : Z :=
  findIndex_from p l 0.

(** [arr[i]] for an integer [i]; [None] is [undefined]. *)
Definition at_index {A} (l : list A) (i : Z) : option A :=
  if i <? 0 then None else l !! Z.to_nat i.

(** [arr.sort((a, b) => k(a) - k(b))]: the stable sort by key. *)
Fixpoint sort_insert {A} (k : A -> Z) (x : A) (l : list A) : list A :=
  match l with
  | [] => [x]
  | y :: l' => if k x <=? k y then x :: y :: l' else y :: sort_insert k x l'
  end.

Fixpoint sort_by {A} (k : A -> Z) (l : list A) : list A :=
  match l with
  | [] => []
  | x :: l' => sort_insert k x (sort_by k l')
  end.

(** [arr.splice(start, 1)], with [start] any integer. *)
Definition splice_start (len : nat) (start : Z) : nat :=
  if start <? 0 then Z.to_nat (Z.max (Z.of_nat len + start) 0)
  else Z.to_nat (Z.min start (Z.of_nat len)).

Definition splice1 {A} (l : list A) (start : Z) : list A :=
  let s := splice_start (length l) start in
  firstn s l ++ skipn (S s) l.

(** [arr.splice(start, 0, x)] for [0 <= start]. *)
Definition splice_in {A} (l : list A) (start : nat) (x : A) : list A :=
  firstn start l ++ x :: skipn start l.

(** ** [Map]: insertion-ordered association list *)

Section JsMap.
Context {V : Type}.

Fixpoint map_has (k : string) (m : list (string * V)) : bool :=
  match m with
  | [] => false
  | (k', _) :: m' => if String.eqb k' k then true else map_has k m'
  end.

Fixpoint map_get (k : string) (m : list (string * V)) : option V :=
  match m with
  | [] => None
  | (k', v) :: m' => if String.eqb k' k then Some v else map_get k m'
  end.

(** [m.set(k, v)]: an existing key keeps its place. *)
Fixpoint map_set (k : string) (v : V) (m : list (string * V)) : list (string * V) :=
  match m with
  | [] => [(k, v)]
  | (k', v') :: m' =>
      if String.eqb k' k then (k', v) :: m' else (k', v') :: map_set k v m'
  end.

(** [m.delete(k)] *)
Definition map_delete (k : string) (m : list (string * V)) : list (string * V) :=
  List.filter (fun e => negb (String.eqb (fst e) k)) m.
End JsMap.

(** ** Block creation *)

(** [getDefaultContent(type)] *)
Definition getDefaultContent (t : BlockType) : Content :=
  match t with
  | Heading => Text "# New Heading"
  | Paragraph => Text "New paragraph content..."
  | ListT => Text ("- Item 1" +:+ nl +:+ "- Item 2" +:+ nl +:+ "- Item 3")
  | Code => Text ("```javascript" +:+ nl +:+ "// Your code here" +:+ nl +:+
                  "console.log(" +:+ dquote +:+ "Hello World" +:+ dquote +:+ ");" +:+ nl +:+
                  "```")
  | Table => TableData (mkTable
      ["Column 1"; "Column 2"; "Column 3"]
      [["Cell 1"; "Cell 2"; "Cell 3"]; ["Cell 4"; "Cell 5"; "Cell 6"]])
  end.

(** [addBlock(type, groupId = null)]; [blockId] is the minted id. *)
Definition addBlock (t : BlockType) (g : option string) (blockId : string)
    (s : State) : Outcome :=
  let block := mkBlock blockId t (getDefaultContent t) g false
                 (Some (Z.of_nat (length (blocks s)))) in
  Returned (mkState (blocks s ++ [block]) (variables s) (groups s) (groupCounter s)).

(** ** Ordering engine *)

Inductive ItemType := block_ | group_.

Definition ItemType_eqb (a b : ItemType) : bool :=
  match a, b with
  | block_, block_ | group_, group_ => true
  | _, _ => false
  end.

(** The wrappers built by [getAllOrderedItems]: [{ type, item, order }] and
    [{ type, item, blocks, order }].  [pos] is where [item] lives (in
    [this.blocks], or among the entries of [this.groups]); the members of a
    group carry their positions in [this.blocks] too. *)
Inductive OrderedItem :=
| BlockItem (pos : nat) (item : Block) (ord : Z)
| GroupItem (pos : nat) (item : Group) (members : list (nat * Block)) (ord : Z).

Definition item_type (it : OrderedItem) : ItemType :=
  match it with BlockItem _ _ _ => block_ | GroupItem _ _ _ _ => group_ end.

Definition item_id (it : OrderedItem) : string :=
  match it with BlockItem _ b _ => id b | GroupItem _ g _ _ => gid g end.

Definition item_order (it : OrderedItem) : Z :=
  match it with BlockItem _ _ o => o | GroupItem _ _ _ o => o end.

Definition ungrouped_items (bs : list Block) : list OrderedItem :=
  List.map (fun pb => BlockItem (fst pb) (snd pb) (or_zero (order (snd pb))))
    (List.filter (fun pb => negb (truthy_groupId (groupId (snd pb)))) (indexed bs)).

Definition group_members (bs : list Block) (groupId_ : string) : list (nat * Block) :=
  List.filter (fun pb => groupId_is (groupId (snd pb)) groupId_) (indexed bs).

Definition group_items (bs : list Block) (gs : list (string * Group)) : list OrderedItem :=
  flat_map (fun e =>
      let '(pos, (groupId_, group)) := e in
      let groupBlocks := group_members bs groupId_ in
      if (0 <? length groupBlocks)%nat
      then [GroupItem pos group groupBlocks (or_zero (gorder group))]
      else [])
    (indexed gs).

(** [getAllOrderedItems()] *)
Definition getAllOrderedItems (s : State) : list OrderedItem :=
  sort_by item_order (ungrouped_items (blocks s) ++ group_items (blocks s) (groups s)).

(** Writing through the aliases: [block.order = v] on the object at
    position [pos] of [this.blocks], and the same on a group. *)
Definition set_order (v : option Z) (b : Block) : Block :=
  mkBlock (id b) (type b) (content b) (groupId b) (selected b) v.

Definition set_gorder (v : option Z) (e : string * Group) : string * Group :=
  (fst e, mkGroup (gid (snd e)) (name (snd e)) v).

Definition with_blocks (bs : list Block) (s : State) : State :=
  mkState bs (variables s) (groups s) (groupCounter s).

Definition with_groups (gs : list (string * Group)) (s : State) : State :=
  mkState (blocks s) (variables s) gs (groupCounter s).

(** [it.item.order = v] *)
Definition write_order (it : OrderedItem) (v : Z) (s : State) : State :=
  match it with
  | BlockItem pos _ _ => with_blocks (alter (set_order (Some v)) pos (blocks s)) s
  | GroupItem pos _ _ _ => with_groups (alter (set_gorder (Some v)) pos (groups s)) s
  end.

Definition is_item (itemType : ItemType) (itemId : string) (it : OrderedItem) : bool :=
  ItemType_eqb (item_type it) itemType && String.eqb (item_id it) itemId.

(** [moveItemUp(itemType, itemId)]: the two wrappers swap their [order], and
    each writes its new [order] back to the object it wraps. *)
Definition moveItemUp (itemType : ItemType) (itemId : string) (s : State) : Outcome :=
  let allItems := getAllOrderedItems s in
  let index := findIndex (is_item itemType itemId) allItems in
  if 0 <? index then
    match at_index allItems index, at_index allItems (index - 1) with
    | Some cur, Some prev =>
        Returned (write_order prev (item_order cur)
                   (write_order cur (item_order prev) s))
    | _, _ => Threw s
    end
  else Returned s.

(** [moveItemDown(itemType, itemId)]: the guard is
    [index < allItems.length - 1], which [-1] passes as soon as there is an
    item; [allItems[-1].order] is then a [TypeError], raised before anything
    is written. *)
Definition moveItemDown (itemType : ItemType) (itemId : string) (s : State) : Outcome :=
  let allItems := getAllOrderedItems s in
  let index := findIndex (is_item itemType itemId) allItems in
  if index <? Z.of_nat (length allItems) - 1 then
    match at_index allItems index, at_index allItems (index + 1) with
    | Some cur, Some next =>
        Returned (write_order next (item_order cur)
                   (write_order cur (item_order next) s))
    | _, _ => Threw s
    end
  else Returned s.

Definition has_id (blockId : string) (b : Block) : bool := String.eqb (id b) blockId.

(** The members of the group of [block], sorted by [order || 0]. *)
Definition sorted_group_blocks (bs : list Block) (block : Block) : list (nat * Block) :=
  sort_by (fun pb => or_zero (order (snd pb)))
    (List.filter (fun pb => same_groupId (groupId (snd pb)) (groupId block)) (indexed bs)).

(** [a.order] and [b.order] exchanged, [undefined] included. *)
Definition swap_orders (a b : nat * Block) (bs : list Block) : list Block :=
  alter (set_order (order (snd a))) (fst b)
    (alter (set_order (order (snd b))) (fst a) bs).

(** [moveBlockUp(blockId)] *)
Definition moveBlockUp (blockId : string) (s : State) : Outcome :=
  match List.find (has_id blockId) (blocks s) with
  | None => Returned s
  | Some block =>
      if truthy_groupId (groupId block) then
        let groupBlocks := sorted_group_blocks (blocks s) block in
        let index := findIndex (fun pb => has_id blockId (snd pb)) groupBlocks in
        if 0 <? index then
          match at_index groupBlocks index, at_index groupBlocks (index - 1) with
          | Some cur, Some prev => Returned (with_blocks (swap_orders cur prev (blocks s)) s)
          | _, _ => Threw s
          end
        else Returned s
      else moveItemUp block_ blockId s
  end.

(** [moveBlockDown(blockId)] *)
Definition moveBlockDown (blockId : string) (s : State) : Outcome :=
  match List.find (has_id blockId) (blocks s) with
  | None => Returned s
  | Some block =>
      if truthy_groupId (groupId block) then
        let groupBlocks := sorted_group_blocks (blocks s) block in
        let index := findIndex (fun pb => has_id blockId (snd pb)) groupBlocks in
        if index <? Z.of_nat (length groupBlocks) - 1 then
          match at_index groupBlocks index, at_index groupBlocks (index + 1) with
          | Some cur, Some next => Returned (with_blocks (swap_orders cur next (blocks s)) s)
          | _, _ => Threw s
          end
        else Returned s
      else moveItemDown block_ blockId s
  end.

(** [moveGroupUp(groupId)], [moveGroupDown(groupId)] *)
Definition moveGroupUp (groupId_ : string) (s : State) : Outcome :=
  moveItemUp group_ groupId_ s.

Definition moveGroupDown (groupId_ : string) (s : State) : Outcome :=
  moveItemDown group_ groupId_ s.

(** [deleteBlock(blockId)] *)
Definition deleteBlock (blockId : string) (s : State) : Outcome :=
  Returned (with_blocks (List.filter (fun b => negb (has_id blockId b)) (blocks s)) s).

(** [Math.min(...xs)] on a non-empty argument list (the only use is behind
    the length test of [groupSelectedBlocks]). *)
Definition math_min (xs : list Z) : Z :=
  match xs with
  | [] => 0
  | x :: xs' => fold_left Z.min xs' x
  end.

Definition alert_message : string := "Please select at least 2 blocks to group".

Definition is_selectable (b : Block) : bool :=
  selected b && negb (truthy_groupId (groupId b)).

(** The body of the [forEach] of [groupSelectedBlocks] on one block. *)
Definition join_group (groupId_ : string) (index : nat) (b : Block) : Block :=
  mkBlock (id b) (type b) (content b) (Some groupId_) false (Some (Z.of_nat index)).

(** [selectedBlocks.forEach((block, index) => ...)], from [index] on. *)
Fixpoint join_all (groupId_ : string) (index : nat) (sel : list (nat * Block))
    (bs : list Block) : list Block :=
  match sel with
  | [] => bs
  | (pos, _) :: sel' =>
      join_all groupId_ (S index) sel' (alter (join_group groupId_ index) pos bs)
  end.

(** [groupSelectedBlocks()] *)
Definition groupSelectedBlocks (s : State) : Outcome :=
  let selectedBlocks := List.filter (fun pb => is_selectable (snd pb)) (indexed (blocks s)) in
  if (length selectedBlocks <? 2)%nat then Alerted alert_message s
  else
    let groupId_ := "group_" +:+ pretty (groupCounter s) in
    let counter := S (groupCounter s) in
    let groupName := "Group " +:+ pretty counter in
    let minOrder := math_min (List.map (fun pb => or_zero (order (snd pb))) selectedBlocks) in
    let gs := map_set groupId_ (mkGroup groupId_ groupName (Some minOrder)) (groups s) in
    Returned (mkState (join_all groupId_ 0 selectedBlocks (blocks s)) (variables s) gs counter).

Definition clear_groupId (b : Block) : Block :=
  mkBlock (id b) (type b) (content b) None (selected b) (order b).

(** [ungroupBlocks(groupId)] *)
Definition ungroupBlocks (groupId_ : string) (s : State) : Outcome :=
  Returned (mkState
    (List.map (fun b => if groupId_is (groupId b) groupId_ then clear_groupId b else b) (blocks s))
    (variables s) (map_delete groupId_ (groups s)) (groupCounter s)).

(** [deleteGroup(groupId)] *)
Definition deleteGroup (groupId_ : string) (s : State) : Outcome :=
  Returned (mkState
    (List.filter (fun b => negb (groupId_is (groupId b) groupId_)) (blocks s))
    (variables s) (map_delete groupId_ (groups s)) (groupCounter s)).

(** [handleBlockSelection(e)] with [e.target.dataset.blockId] and
    [e.target.checked] *)
Definition set_selected (v : bool) (b : Block) : Block :=
  mkBlock (id b) (type b) (content b) (groupId b) v (order b).

Definition handleBlockSelection (blockId : string) (checked : bool) (s : State) : Outcome :=
  let index := findIndex (has_id blockId) (blocks s) in
  if index <? 0 then Returned s
  else Returned (with_blocks (alter (set_selected checked) (Z.to_nat index) (blocks s)) s).

(** [handleDrop(targetElement)] with the two [dataset.blockId]s.  The guard
    on the DOM elements lets the handler run for two different elements. *)
Definition handleDrop (draggedId targetId : string) (s : State) : Outcome :=
  let draggedIndex := findIndex (has_id draggedId) (blocks s) in
  let targetIndex := findIndex (has_id targetId) (blocks s) in
  if negb (draggedIndex =? -1) && negb (targetIndex =? -1) then
    match at_index (blocks s) draggedIndex with
    | Some draggedBlock =>
        Returned (with_blocks
          (splice_in (splice1 (blocks s) draggedIndex) (Z.to_nat targetIndex) draggedBlock) s)
    | None => Returned s
    end
  else Returned s.

(** [handleGroupDrop(targetElement)] with the two [dataset.groupId]s, both
    non-empty. *)
Definition handleGroupDrop (draggedGroupId targetGroupId : string) (s : State) : Outcome :=
  if negb (String.eqb draggedGroupId "") && negb (String.eqb targetGroupId "") then
    let groupsArray := groups s in
    let draggedIndex := findIndex (fun e => String.eqb (fst e) draggedGroupId) groupsArray in
    let targetIndex := findIndex (fun e => String.eqb (fst e) targetGroupId) groupsArray in
    if negb (draggedIndex =? -1) && negb (targetIndex =? -1) then
      match at_index groupsArray draggedIndex with
      | Some draggedGroup =>
          Returned (with_groups
            (splice_in (splice1 groupsArray draggedIndex) (Z.to_nat targetIndex) draggedGroup) s)
      | None => Returned s
      end
    else Returned s
  else Returned s.

(** ** Table mutators *)

Definition set_content (c : Content) (b : Block) : Block :=
  mkBlock (id b) (type b) c (groupId b) (selected b) (order b).

(** The bodies of the four mutators on [block.content]. *)
Definition table_addRow (t : TableContent) : TableContent :=
  mkTable (headers t) (rows t ++ [repeat "" (length (headers t))]).

Definition table_addColumn (t : TableContent) : TableContent :=
  mkTable (headers t ++ ["New Column"]) (List.map (fun row => row ++ [""]) (rows t)).

Definition table_deleteRow (rowIndex : Z) (t : TableContent) : TableContent :=
  if (1 <? length (rows t))%nat
  then mkTable (headers t) (splice1 (rows t) rowIndex)
  else t.

Definition table_deleteColumn (colIndex : Z) (t : TableContent) : TableContent :=
  if (1 <? length (headers t))%nat
  then mkTable (splice1 (headers t) colIndex)
               (List.map (fun row => splice1 row colIndex) (rows t))
  else t.

(** [const block = this.blocks.find(b => b.id === blockId);
     if (block && block.type === 'table' ...) { ... block.content ... }].
    Reading [headers] or [rows] of a text content gives [undefined], and
    the [.length] or method call on it is a [TypeError]. *)
Definition on_table (blockId : string) (f : TableContent -> TableContent)
    (s : State) : Outcome :=
  let index := findIndex (has_id blockId) (blocks s) in
  match at_index (blocks s) index with
  | None => Returned s
  | Some block =>
      if BlockType_eqb (type block) Table then
        match content block with
        | TableData t =>
            Returned (with_blocks
              (alter (set_content (TableData (f t))) (Z.to_nat index) (blocks s)) s)
        | Text _ => Threw s
        end
      else Returned s
  end.

Definition addTableRow (blockId : string) : State -> Outcome :=
  on_table blockId table_addRow.

Definition addTableColumn (blockId : string) : State -> Outcome :=
  on_table blockId table_addColumn.

Definition deleteTableRow (blockId : string) (rowIndex : Z) : State -> Outcome :=
  on_table blockId (table_deleteRow rowIndex).

Definition deleteTableColumn (blockId : string) (colIndex : Z) : State -> Outcome :=
  on_table blockId (table_deleteColumn colIndex).

(** ** Text primitives *)

(** [s.startsWith(p)] *)
Fixpoint startsWith (s p : string) : bool :=
  match p, s with
  | EmptyString, _ => true
  | String a p', String b s' => Ascii.eqb a b && startsWith s' p'
  | String _ _, EmptyString => false
  end.

(** [s.includes(p)] *)
Fixpoint includes (s p : string) : bool :=
  startsWith s p ||
  match s with
  | EmptyString => false
  | String _ s' => includes s' p
  end.

(** White space and line terminators among the code units below 256: what
    [trim] removes and what [\s] matches. *)
Definition is_space (c : ascii) : bool :=
  let n := nat_of_ascii c in
  ((9 <=? n) && (n <=? 13) || (n =? 32) || (n =? 160))%nat.

Definition is_digit (c : ascii) : bool :=
  let n := nat_of_ascii c in
  ((48 <=? n) && (n <=? 57))%nat.

Fixpoint trimStart (s : string) : string :=
  match s with
  | EmptyString => EmptyString
  | String c s' => if is_space c then trimStart s' else s
  end.

Fixpoint trimEnd (s : string) : string :=
  match s with
  | EmptyString => EmptyString
  | String c s' =>
      match trimEnd s' with
      | EmptyString => if is_space c then EmptyString else String c EmptyString
      | t => String c t
      end
  end.

(** [s.trim()] *)
Definition trim (s : string) : string := trimEnd (trimStart s).

(** [s.split('\n')], the line under construction first. *)
Fixpoint split_lines_from (cur : string) (s : string) : list string :=
  match s with
  | EmptyString => [cur]
  | String c s' =>
      if Ascii.eqb c LF then cur :: split_lines_from EmptyString s'
      else split_lines_from (cur +:+ String c EmptyString) s'
  end.

Definition split_lines (s : string) : list string := split_lines_from EmptyString s.

(** ** Regular expressions built from a variable key

    [new RegExp(`\\{\\{${key}\\}\\}`, 'g')] compiles the text
    [\{\{] + key + [\}\}].  The embedding covers the patterns that are a
    sequence of literal characters, escaped syntax characters and dots; for
    any other pattern [compile] is [None] and the embedding is silent about
    what the code does. *)

Inductive Atom :=
| Lit (c : ascii)
| AnyChar.

Definition is_syntax_char (c : ascii) : bool :=
  existsb (Ascii.eqb c)
    ["^"; "$"; "\"; "."; "*"; "+"; "?"; "("; ")"; "["; "]"; "{"; "}"; "|"]%char.

Fixpoint compile_from (escaped : bool) (p : string) : option (list Atom) :=
  match p with
  | EmptyString => if escaped then None else Some []
  | String c p' =>
      if escaped then
        if is_syntax_char c || Ascii.eqb c "/"
        then cons (Lit c) <$> compile_from false p' else None
      else if Ascii.eqb c "\" then compile_from true p'
      else if Ascii.eqb c "." then cons AnyChar <$> compile_from false p'
      else if is_syntax_char c then None
      else cons (Lit c) <$> compile_from false p'
  end.

Definition compile (p : string) : option (list Atom) := compile_from false p.

(** The pattern text of the template literal. *)
Definition key_pattern (k : string) : string := "\{\{" +:+ k +:+ "\}\}".

Definition matches_atom (a : Atom) (c : ascii) : bool :=
  match a with
  | Lit c' => Ascii.eqb c' c
  | AnyChar => negb (Ascii.eqb c LF || Ascii.eqb c "013")
  end.

(** The match of the pattern at the start of [s], if there is one. *)
Fixpoint match_here (atoms : list Atom) (s : string) : option string :=
  match atoms with
  | [] => Some EmptyString
  | a :: atoms' =>
      match s with
      | EmptyString => None
      | String c s' =>
          if matches_atom a c then String c <$> match_here atoms' s' else None
      end
  end.

Fixpoint drop_chars (n : nat) (s : string) : string :=
  match n, s with
  | O, _ => s
  | S n', String _ s' => drop_chars n' s'
  | S _, EmptyString => EmptyString
  end.

(** The replacement text of [replace] for a pattern without groups: [$$],
    [$&], [$`] and [$'] are expanded and every other character is copied. *)
Fixpoint expand (repl : string) (before matched after : string) : string :=
  match repl with
  | EmptyString => EmptyString
  | String c rest =>
      if Ascii.eqb c "$" then
        match rest with
        | EmptyString => String c EmptyString
        | String d rest' =>
            if Ascii.eqb d "$" then String "$" (expand rest' before matched after)
            else if Ascii.eqb d "&" then matched +:+ expand rest' before matched after
            else if Ascii.eqb d "`" then before +:+ expand rest' before matched after
            else if Ascii.eqb d "'" then after +:+ expand rest' before matched after
            else String c (expand rest before matched after)
        end
      else String c (expand rest before matched after)
  end.

(** [s.replace(regex, repl)] with the [g] flag: [skip] counts the characters
    of the current match still to pass, [before] is the text already
    passed. *)
Fixpoint replace_from (atoms : list Atom) (repl : string) (skip : nat)
    (before s : string) : string :=
  match s with
  | EmptyString =>
      match skip, atoms with
      | O, [] => expand repl before EmptyString EmptyString
      | _, _ => EmptyString
      end
  | String c s' =>
      match skip with
      | S k => replace_from atoms repl k (before +:+ String c EmptyString) s'
      | O =>
          match match_here atoms s with
          | Some matched =>
              let n := String.length matched in
              expand repl before matched (drop_chars n s) +:+
              match n with
              | O => String c (replace_from atoms repl 0 (before +:+ String c EmptyString) s')
              | S k => replace_from atoms repl k (before +:+ String c EmptyString) s'
              end
          | None => String c (replace_from atoms repl 0 (before +:+ String c EmptyString) s')
          end
      end
  end.

Definition replace_all (atoms : list Atom) (repl : string) (s : string) : string :=
  replace_from atoms repl 0 EmptyString s.

(** [s.replace(/\{\{|\}\}/g, '')] *)
Fixpoint strip_markers_from (skip : bool) (s : string) : string :=
  match s with
  | EmptyString => EmptyString
  | String c s' =>
      if skip then strip_markers_from false s'
      else if startsWith s "{{" || startsWith s "}}" then strip_markers_from true s'
      else String c (strip_markers_from false s')
  end.

Definition strip_markers (s : string) : string := strip_markers_from false s.

(** [/^[\d\s+\-*/().]+$/.test(s)] *)
Definition is_arith_char (c : ascii) : bool :=
  is_digit c || is_space c ||
  existsb (Ascii.eqb c) ["+"; "-"; "*"; "/"; "("; ")"; "."]%char.

Fixpoint all_chars (p : ascii -> bool) (s : string) : bool :=
  match s with
  | EmptyString => true
  | String c s' => p c && all_chars p s'
  end.

Definition test_arith (s : string) : bool :=
  negb (String.eqb s "") && all_chars is_arith_char s.

(** ** Variable store and Markdown generation

    [eval] belongs to the JavaScript engine.  [js_eval e] stands for
    [eval(e).toString()] on a text [e] that passed [test_arith]: the text of
    the value, or [None] when the call throws. *)

Section VariableStore.
Variable js_eval : string -> option string.

Definition vars_of (s : State) : list Variable_ := List.map snd (variables s).

(** One round of the [forEach] of [evaluateExpression]. *)
Definition evaluate_step (result : option string) (variable : Variable_) : option string :=
  r ← result;
  if negb (String.eqb (key variable) "") && negb (includes (value variable) "{{") then
    regex ← compile (key_pattern (key variable));
    Some (replace_all regex (value variable) r)
  else Some r.

(** [evaluateExpression(expression)] *)
Definition evaluateExpression (vars : list Variable_) (expression : string) : option string :=
  result ← fold_left evaluate_step vars (Some expression);
  let mathExpression := strip_markers result in
  if test_arith mathExpression then
    match js_eval mathExpression with
    | Some v => Some v
    | None => Some result
    end
  else Some result.

(** One round of the [forEach] of [substituteVariables]. *)
Definition substitute_step (vars : list Variable_) (result : option string)
    (variable : Variable_) : option string :=
  r ← result;
  if negb (String.eqb (key variable) "") then
    regex ← compile (key_pattern (key variable));
    v ← (if includes (value variable) "{{" && includes (value variable) "}}"
         then evaluateExpression vars (value variable)
         else Some (value variable));
    Some (replace_all regex v r)
  else Some r.

(** [substituteVariables(text)] *)
Definition substituteVariables (vars : list Variable_) (text : string) : option string :=
  fold_left (substitute_step vars) vars (Some text).

(** [generateTableMarkdown(tableData)] *)
Definition generateTableMarkdown (tableData : TableContent) : string :=
  let markdown := "|" in
  let markdown := fold_left (fun m header => m +:+ " " +:+ header +:+ " |")
                    (headers tableData) markdown in
  let markdown := markdown +:+ nl +:+ "|" in
  let markdown := fold_left (fun m _ => m +:+ " --- |") (headers tableData) markdown in
  let markdown := markdown +:+ nl in
  fold_left (fun m row =>
      fold_left (fun m cell => m +:+ " " +:+ cell +:+ " |") row (m +:+ "|") +:+ nl)
    (rows tableData) markdown.

(** [block.type === 'table' ? generateTableMarkdown(block.content)
    : block.content].  A table block that holds a text makes
    [generateTableMarkdown] throw a [TypeError] ([headers] of a text is
    [undefined]); a table where a text is expected is not a text.  No
    handler builds either; the result is [None] on both. *)
Definition block_text (block : Block) : option string :=
  match type block, content block with
  | Table, TableData t => Some (generateTableMarkdown t)
  | Table, Text _ => None
  | _, Text c => Some c
  | _, TableData _ => None
  end.

(** What [generateMarkdown] appends for one block. *)
Definition emit_block (vars : list Variable_) (markdown : option string)
    (block : Block) : option string :=
  m ← markdown;
  content_ ← block_text block;
  c ← substituteVariables vars content_;
  Some (m +:+ c +:+ nl +:+ nl).

Definition emit_item (vars : list Variable_) (markdown : option string)
    (item : OrderedItem) : option string :=
  match item with
  | BlockItem _ b _ => emit_block vars markdown b
  | GroupItem _ _ members _ =>
      let sortedGroupBlocks := sort_by (fun pb => or_zero (order (snd pb))) members in
      fold_left (emit_block vars) (List.map snd sortedGroupBlocks) markdown
  end.

(** [generateMarkdown()] *)
Definition generateMarkdown (s : State) : option string :=
  trim <$> fold_left (emit_item (vars_of s)) (getAllOrderedItems s) (Some EmptyString).
End VariableStore.

(** ** The handlers with their final calls

    The handlers of this module end with the same calls: a rendering call
    ([renderAllContent] or [rerenderBlock]), [updatePreview()] and
    [saveToStorage()].  The definitions above that carry their names stop
    before these calls; the definitions of this module go through them, and
    are the handlers as they are called.

    Rendering, saving and the write of the preview act on the page and on
    [localStorage], which the embedding leaves out: they are taken to
    succeed.  (Rendering reads the blocks of the page as [generateMarkdown]
    does, and throws only where it does: on a table block that holds no
    table.)  [updatePreview] computes [generateMarkdown()], which can
    throw: [new RegExp] in [substituteVariables] is outside any [try], and
    a key that is no pattern, such as [(], is a [SyntaxError] there.  The
    handler then dies after its changes to the document.  None of the final
    calls changes the document, so the state after a handler is the state
    before them in every case. *)

Module Handler.
Section FinalCalls.
Variable js_eval : string -> option string.

(** [updatePreview()].  [generateMarkdown] is [Some] on the keys that
    [compile] covers and the blocks that hold what their type says, and
    then nothing throws; the result is [None] elsewhere: the embedding
    does not say whether the call returns or throws. *)
Definition updatePreview (s : State) : option Outcome :=
  match generateMarkdown js_eval s with
  | Some _ => Some (Returned s)
  | None => None
  end.

(** The final calls, where the handler reaches them: after an [alert] or a
    [TypeError] it does not. *)
Definition finish (o : Outcome) : option Outcome :=
  match o with
  | Returned s => updatePreview s
  | Alerted _ _ | Threw _ => Some o
  end.

(** [if (!block) return;] comes before everything else. *)
Definition moveBlockUp (blockId : string) (s : State) : option Outcome :=
  match List.find (has_id blockId) (blocks s) with
  | None => Some (Returned s)
  | Some _ => finish (moveBlockUp blockId s)
  end.

Definition moveBlockDown (blockId : string) (s : State) : option Outcome :=
  match List.find (has_id blockId) (blocks s) with
  | None => Some (Returned s)
  | Some _ => finish (moveBlockDown blockId s)
  end.

Definition moveGroupUp (groupId_ : string) (s : State) : option Outcome :=
  finish (moveGroupUp groupId_ s).

Definition moveGroupDown (groupId_ : string) (s : State) : option Outcome :=
  finish (moveGroupDown groupId_ s).

Definition deleteBlock (blockId : string) (s : State) : option Outcome :=
  finish (deleteBlock blockId s).

(** The [alert] branch returns at once. *)
Definition groupSelectedBlocks (s : State) : option Outcome :=
  finish (groupSelectedBlocks s).

Definition ungroupBlocks (groupId_ : string) (s : State) : option Outcome :=
  finish (ungroupBlocks groupId_ s).

Definition deleteGroup (groupId_ : string) (s : State) : option Outcome :=
  finish (deleteGroup groupId_ s).

(** The table mutators make their final calls inside the [if]: with
    [guard] the last conjunct of its condition, they are reached when the
    block exists, is a table and passes [guard]. *)
Definition on_table (blockId : string) (guard : TableContent -> bool)
    (f : TableContent -> TableContent) (s : State) : option Outcome :=
  match List.find (has_id blockId) (blocks s) with
  | None => Some (Returned s)
  | Some block =>
      if BlockType_eqb (type block) Table then
        match content block with
        | TableData t => if guard t then finish (on_table blockId f s) else Some (Returned s)
        | Text _ => Some (Threw s)
        end
      else Some (Returned s)
  end.

Definition addTableRow (blockId : string) : State -> option Outcome :=
  on_table blockId (fun _ => true) table_addRow.

Definition addTableColumn (blockId : string) : State -> option Outcome :=
  on_table blockId (fun _ => true) table_addColumn.

Definition deleteTableRow (blockId : string) (rowIndex : Z) : State -> option Outcome :=
  on_table blockId (fun t => (1 <? length (rows t))%nat) (table_deleteRow rowIndex).

Definition deleteTableColumn (blockId : string) (colIndex : Z) : State -> option Outcome :=
  on_table blockId (fun t => (1 <? length (headers t))%nat) (table_deleteColumn colIndex).
End FinalCalls.
End Handler.

(** ** Markdown import *)

(** A block under construction: [{ type, content }]. *)
Definition Draft : Type := BlockType * string.

(** [finishCurrentBlock(block)]: [ids k] is the id minted for the [k]-th
    block pushed since [this.blocks = []].  Only [type], [content] and [id]
    are set on the object. *)
Definition finishCurrentBlock (ids : nat -> string) (block : option Draft)
    (bs : list Block) : list Block :=
  match block with
  | None => bs
  | Some (t, c) => bs ++ [mkBlock (ids (length bs)) t (Text c) None false None]
  end.

Definition draft_is (t : BlockType) (d : option Draft) : bool :=
  match d with
  | Some (t', _) => BlockType_eqb t' t
  | None => false
  end.

Definition append_line (d : option Draft) (line : string) : option Draft :=
  match d with
  | Some (t, c) => Some (t, c +:+ nl +:+ line)
  | None => None
  end.

(** The body of [lines.forEach(line => ...)]. *)
Definition import_line (ids : nat -> string) (st : list Block * option Draft)
    (line : string) : list Block * option Draft :=
  let '(bs, currentBlock) := st in
  if startsWith line "#" then
    (finishCurrentBlock ids currentBlock bs, Some (Heading, line))
  else if startsWith line "```" then
    if draft_is Code currentBlock then
      (finishCurrentBlock ids (append_line currentBlock line) bs, None)
    else (finishCurrentBlock ids currentBlock bs, Some (Code, line))
  else if startsWith line "- " || startsWith line "* " then
    if draft_is ListT currentBlock then (bs, append_line currentBlock line)
    else (finishCurrentBlock ids currentBlock bs, Some (ListT, line))
  else if negb (String.eqb (trim line) "") then
    if draft_is Paragraph currentBlock then (bs, append_line currentBlock line)
    else if draft_is Code currentBlock || draft_is ListT currentBlock
    then (bs, append_line currentBlock line)
    else (finishCurrentBlock ids currentBlock bs, Some (Paragraph, line))
  else (bs, currentBlock).

(** [importMarkdown(markdown)] *)
Definition importMarkdown (ids : nat -> string) (markdown : string) (s : State) : Outcome :=
  let lines := split_lines markdown in
  let '(bs, currentBlock) := fold_left (import_line ids) lines ([], None) in
  Returned (with_blocks (finishCurrentBlock ids currentBlock bs) s).

(** ** Sessions: sequences of user operations *)

Inductive Op :=
| AddBlock (t : BlockType) (blockId : string)
| DeleteBlock (blockId : string)
| MoveBlockUp (blockId : string)
| MoveBlockDown (blockId : string)
| MoveGroupUp (groupId_ : string)
| MoveGroupDown (groupId_ : string)
| SelectBlock (blockId : string) (checked : bool)
| GroupSelected
| Ungroup (groupId_ : string)
| DeleteGroup (groupId_ : string)
| Drop (draggedId targetId : string)
| GroupDrop (draggedGroupId targetGroupId : string).

Definition step (op : Op) (s : State) : Outcome :=
  match op with
  | AddBlock t blockId => addBlock t None blockId s
  | DeleteBlock blockId => deleteBlock blockId s
  | MoveBlockUp blockId => moveBlockUp blockId s
  | MoveBlockDown blockId => moveBlockDown blockId s
  | MoveGroupUp g => moveGroupUp g s
  | MoveGroupDown g => moveGroupDown g s
  | SelectBlock blockId checked => handleBlockSelection blockId checked s
  | GroupSelected => groupSelectedBlocks s
  | Ungroup g => ungroupBlocks g s
  | DeleteGroup g => deleteGroup g s
  | Drop a b => handleDrop a b s
  | GroupDrop a b => handleGroupDrop a b s
  end.

(** The state after a session; an alert or an uncaught [TypeError] ends one
    handler, not the session. *)
Definition run (ops : list Op) (s : State) : State :=
  fold_left (fun s op => state_of (step op s)) ops s.

Definition block_ids (s : State) : list string := List.map id (blocks s).
Definition group_keys (s : State) : list string := List.map fst (groups s).

(** Every id minted during the session is new among the blocks that exist
    when it is minted. *)
Fixpoint mints_fresh (ops : list Op) (s : State) : bool :=
  match ops with
  | [] => true
  | op :: ops' =>
      match op with
      | AddBlock _ blockId => negb (existsb (String.eqb blockId) (block_ids s))
      | _ => true
      end && mints_fresh ops' (state_of (step op s))
  end.

(** The ids of the block items and of the group items of a sequence. *)
Definition item_ids (t : ItemType) (items : list OrderedItem) : list string :=
  List.map item_id (List.filter (fun it => ItemType_eqb (item_type it) t) items).

(** The number of blocks with a given [groupId]. *)
Definition member_count (s : State) (g : string) : nat :=
  length (List.filter (fun b => groupId_is (groupId b) g) (blocks s)).

(** The number of top-level items: ungrouped blocks and non-empty groups. *)
Definition top_level_count (s : State) : nat := length (getAllOrderedItems s).

(** Two blocks, selected and grouped; and the same with a third block left
    outside the group. *)
Definition grouped_pair : State :=
  run [AddBlock Heading "b1"; AddBlock Paragraph "b2";
       SelectBlock "b1" true; SelectBlock "b2" true; GroupSelected] constructor.

Definition three_blocks : State :=
  run [AddBlock Heading "b1"; AddBlock Paragraph "b2"; AddBlock Table "b3"] constructor.

(** ** Table invariant *)

(** At least one column, at least one row, and every row as long as the
    header row. *)
Definition table_wf (t : TableContent) : Prop :=
  (1 <= length (headers t))%nat /\ (1 <= length (rows t))%nat /\
  Forall (fun row => length row = length (headers t)) (rows t).

(** A block whose [type] is ['table'] carries a well-formed table. *)
Definition block_wf (b : Block) : Prop :=
  match content b with
  | TableData t => table_wf t
  | Text _ => type b <> Table
  end.

Definition tables_wf (s : State) : Prop := Forall block_wf (blocks s).

Inductive TableOp :=
| AddRow (blockId : string)
| AddColumn (blockId : string)
| DeleteRow (blockId : string) (rowIndex : Z)
| DeleteColumn (blockId : string) (colIndex : Z).

Definition table_step (op : TableOp) (s : State) : Outcome :=
  match op with
  | AddRow blockId => addTableRow blockId s
  | AddColumn blockId => addTableColumn blockId s
  | DeleteRow blockId rowIndex => deleteTableRow blockId rowIndex s
  | DeleteColumn blockId colIndex => deleteTableColumn blockId colIndex s
  end.

Definition run_table (ops : list TableOp) (s : State) : State :=
  fold_left (fun s op => state_of (table_step op s)) ops s.

(** The table of the block that [find(b => b.id === blockId)] returns. *)
Definition table_of (blockId : string) (s : State) : option TableContent :=
  match List.find (has_id blockId) (blocks s) with
  | Some b => match content b with TableData t => Some t | Text _ => None end
  | None => None
  end.

(** ** Arithmetic in binary64

    [eval] computes with IEEE 754 binary64 numbers.  [eval_binary64] does so
    for the texts [a], [a*b], [a/b], [a+b] and [a-b], where [a] and [b] are
    decimal literals of at most 15 digits without sign, exponent or leading
    zero, and gives the text of a result that is an integer below [2^53] in
    absolute value, which [toString] prints digit by digit.  Where it is
    [Some v], [eval(e).toString()] is [v]; where it is [None] it is not
    [eval]: it stands in for [js_eval] in examples, on texts where it is
    [Some]. *)

(** The digits at the start of [s]: their value, their number, the rest. *)
Fixpoint read_digits (acc : Z) (n : nat) (s : string) : Z * nat * string :=
  match s with
  | String c s' =>
      if is_digit c
      then read_digits (10 * acc + Z.of_nat (nat_of_ascii c - 48)) (S n) s'
      else (acc, n, s)
  | EmptyString => (acc, n, s)
  end.

(** A literal [ddd] or [ddd.ddd] at the start of [s]: the digits read as
    one integer, the number of digits after the point, the rest. *)
Definition read_literal (s : string) : option (Z * nat * string) :=
  let '(int_part, n, rest) := read_digits 0 0 s in
  if (n =? 0)%nat || ((1 <? n)%nat && startsWith s "0") then None
  else
    match rest with
    | String "." rest' =>
        let '(all_digits, m, rest'') := read_digits int_part 0 rest' in
        if (n + m <=? 15)%nat then Some (all_digits, m, rest'') else None
    | _ => if (n <=? 15)%nat then Some (int_part, 0%nat, rest) else None
    end.

Definition float_of_Z (z : Z) : PrimFloat.float := PrimFloat.of_uint63 (Uint63.of_Z z).

(** The binary64 number nearest to [digits / 10^m]. *)
Definition float_of_literal (digits : Z) (m : nat) : PrimFloat.float :=
  PrimFloat.div (float_of_Z digits) (float_of_Z (10 ^ Z.of_nat m)).

(** The integer a binary64 number is equal to, if it is one. *)
Definition Z_of_float (f : PrimFloat.float) : option Z :=
  match FloatOps.Prim2SF f with
  | SpecFloat.S754_zero _ => Some 0
  | SpecFloat.S754_finite sign m e =>
      let v := if sign then - Z.pos m else Z.pos m in
      if 0 <=? e then Some (v * 2 ^ e)
      else if Z.pos m mod 2 ^ (- e) =? 0 then Some (v / 2 ^ (- e))
      else None
  | _ => None
  end.

(** [x.toString()] for an integer [x] with [|x| < 2^53]. *)
Definition integer_text (f : PrimFloat.float) : option string :=
  z ← Z_of_float f;
  if Z.abs z <? 2 ^ 53 then Some (pretty z) else None.

Definition eval_binary64 (e : string) : option string :=
  '(a, ka, rest) ← read_literal e;
  let x := float_of_literal a ka in
  match rest with
  | EmptyString => integer_text x
  | String op rest' =>
      '(b, kb, rest'') ← read_literal rest';
      let y := float_of_literal b kb in
      if negb (String.eqb rest'' "") then None
      else if Ascii.eqb op "*" then integer_text (PrimFloat.mul x y)
      else if Ascii.eqb op "/" then integer_text (PrimFloat.div x y)
      else if Ascii.eqb op "+" then integer_text (PrimFloat.add x y)
      else if Ascii.eqb op "-" then integer_text (PrimFloat.sub x y)
      else None
  end.

(** The variables of the substitution example, in insertion order. *)
Definition price_variables : list Variable_ :=
  [mkVariable "price" "1000"; mkVariable "tax" "0.2";
   mkVariable "total" "{{price}}*{{tax}}"].

(** What [finishCurrentBlock] leaves on the blocks it pushes. *)
Definition fresh_import (ids : nat -> string) (bs : list Block) : Prop :=
  forall k b, bs !! k = Some b ->
    id b = ids k /\ groupId b = None /\ selected b = false /\ order b = None.

(** ** Grouping *)

(** [join_all] on the selected positions, written as one pass over the
    block list: [index] counts the selected blocks already passed. *)
Fixpoint join_pass (groupId_ : string) (index : nat) (bs : list Block) : list Block :=
  match bs with
  | [] => []
  | b :: bs' =>
      if is_selectable b
      then join_group groupId_ index b :: join_pass groupId_ (S index) bs'
      else b :: join_pass groupId_ index bs'
  end.

(** The blocks that [groupSelectedBlocks] picks, and the position of a
    block among them. *)
Definition selection (s : State) : list Block := List.filter is_selectable (blocks s).

Definition selection_index (s : State) (i : nat) : nat :=
  length (List.filter is_selectable (take i (blocks s))).

(** The id that [groupSelectedBlocks] mints next. *)
Definition next_group_id (s : State) : string := "group_" +:+ pretty (groupCounter s).

(** No group uses an id that [groupCounter] has still to reach. *)
Definition counter_fresh (s : State) : Prop :=
  forall n, (groupCounter s <= n)%nat -> ("group_" +:+ pretty n) ∉ group_keys s.

(** Three blocks, the first and the third selected. *)
Definition two_selected : State :=
  run [SelectBlock "b1" true; SelectBlock "b3" true] three_blocks.

(** ** Consistency of a document state *)

(** What the consistency of a state depends on: the ids and the group
    references of the blocks, in order, the keys of the groups and the ids
    stored in them, in order, and the counter. *)
Definition skeleton (s : State)
    : list string * list (option string) * list string * list string * nat :=
  (List.map id (blocks s), List.map groupId (blocks s),
   List.map fst (groups s), List.map (fun e => gid (snd e)) (groups s),
   groupCounter s).

(** No block refers to a group that is not in the groups map. *)
Definition no_dangling (s : State) : Prop :=
  Forall (fun go => forall g, go = Some g -> g ∈ group_keys s) (List.map groupId (blocks s)).

(** The groups map has distinct keys, every group is stored under its own
    id, the ids still to be minted are unused, and no block refers to a
    missing group. *)
Definition groups_inv (s : State) : Prop :=
  NoDup (group_keys s) /\
  List.map (fun e => gid (snd e)) (groups s) = group_keys s /\
  counter_fresh s /\
  no_dangling s.

(** The blocks have distinct ids. *)
Definition ids_inv (s : State) : Prop := NoDup (block_ids s).

(** A session that groups two of three blocks, moves the group and then
    deletes both members: the group stays in the map without a member. *)
Definition emptied_group_session : list Op :=
  [AddBlock Heading "b1"; AddBlock Paragraph "b2"; AddBlock Table "b3";
   SelectBlock "b1" true; SelectBlock "b2" true; GroupSelected;
   MoveGroupDown "group_0"; DeleteBlock "b1"; DeleteBlock "b2"].

Definition emptied_group : State := run emptied_group_session constructor.

(** ** Documents that survive export and import *)

Definition blank_line (l : string) : bool := String.eqb (trim l) "".
Definition heading_line (l : string) : bool := startsWith l "#".
Definition fence_line (l : string) : bool := startsWith l "```".
Definition list_line (l : string) : bool := startsWith l "- " || startsWith l "* ".

(** The lines of a text that are not blank: the lines that
    [importMarkdown] does something with. *)
Definition solid_lines (c : string) : list string :=
  List.filter (fun l => negb (blank_line l)) (split_lines c).

(** [acc + '\n' + line] *)
Definition add_line (acc line : string) : string := acc +:+ nl +:+ line.

(** Lines joined by line feeds. *)
Definition join_lines (ls : list string) : string :=
  match ls with
  | [] => EmptyString
  | l :: ls' => fold_left add_line ls' l
  end.

(** Blank-line normalization: the text without its blank lines. *)
Definition without_blank_lines (c : string) : string := join_lines (solid_lines c).

(** A text without a line feed. *)
Definition one_line (l : string) : bool :=
  all_chars (fun c => negb (Ascii.eqb c LF)) l.

(** A line that opens nothing: [import_line] appends it to an open
    paragraph, list or code block. *)
Definition plain_line (l : string) : bool :=
  negb (heading_line l) && negb (fence_line l) && negb (list_line l) && negb (blank_line l).

(** A line that continues a list: an item or a plain line. *)
Definition list_continuation (l : string) : bool := list_line l || plain_line l.

(** The content of a block reads back as one block of the same type.
    Blank lines left aside, a heading is one line that starts with [#]; a
    paragraph is made of plain lines, at least one; a list starts with an
    item and goes on with items and plain lines; a code block opens with a
    fence, closes with a fence on its last line and has plain lines in
    between. *)
Definition well_formed (t : BlockType) (c : string) : bool :=
  match t, solid_lines c with
  | Heading, [l] => heading_line l
  | Paragraph, l :: ls => forallb plain_line (l :: ls)
  | ListT, l :: ls => list_line l && forallb list_continuation ls
  | Code, l :: ls =>
      fence_line l &&
      match rev ls with
      | closing :: middle => fence_line closing && forallb plain_line middle
      | [] => false
      end
  | _, _ => false
  end.

(** A block of type [t] right after a block of type [prev] starts a new
    block on import: a paragraph does not follow a paragraph or a list, and
    a list does not follow a list. *)
Definition follows (prev : option BlockType) (t : BlockType) : bool :=
  match t, prev with
  | Paragraph, Some Paragraph | Paragraph, Some ListT | ListT, Some ListT => false
  | _, _ => true
  end.

Fixpoint importable (prev : option BlockType) (doc : list (BlockType * string)) : bool :=
  match doc with
  | [] => true
  | (t, c) :: doc' => well_formed t c && follows prev t && importable (Some t) doc'
  end.

(** White space at the start and at the end of a text, which [trim]
    would remove. *)
Definition starts_clean (c : string) : bool :=
  match c with
  | String a _ => negb (is_space a)
  | EmptyString => false
  end.

Fixpoint ends_clean (c : string) : bool :=
  match c with
  | EmptyString => false
  | String a EmptyString => negb (is_space a)
  | String _ c' => ends_clean c'
  end.

(** The first line of the first block that is not blank does not begin,
    and the last such line of the last block does not end, with white
    space. *)
Definition clean_ends (doc : list (BlockType * string)) : bool :=
  match doc with
  | [] => true
  | (_, c) :: _ =>
      match solid_lines c with
      | l :: _ => starts_clean l
      | [] => false
      end
  end &&
  match last doc with
  | Some (_, c) =>
      match last (solid_lines c) with
      | Some l => ends_clean l
      | None => false
      end
  | None => true
  end.

Definition text_of (b : Block) : string :=
  match content b with Text c => c | TableData _ => EmptyString end.

(** An ungrouped block of a type other than ['table'] that holds text. *)
Definition is_flat_text (b : Block) : bool :=
  match groupId b, content b with
  | None, Text _ => negb (BlockType_eqb (type b) Table)
  | _, _ => false
  end.

Definition flat_text_doc (s : State) : bool := forallb is_flat_text (blocks s).

(** The blocks in the order in which [generateMarkdown] writes a flat
    document, and their types and texts. *)
Definition rendered (s : State) : list Block :=
  sort_by (fun b => or_zero (order b)) (blocks s).

Definition doc_of (s : State) : list (BlockType * string) :=
  List.map (fun b => (type b, text_of b)) (rendered s).

(** The open block that a block of a given type leaves behind: a code
    block is closed by its last line, every other block stays open. *)
Definition cur_matches (prev : option BlockType) (cur : option Draft) : Prop :=
  match prev with
  | None | Some Code => cur = None
  | Some t => exists c, cur = Some (t, c)
  end.

(** The types and contents of a block list, and the block list that
    [importMarkdown] ends with from an intermediate state. *)
Definition emitted (bs : list Block) : list (BlockType * Content) :=
  List.map (fun b => (type b, content b)) bs.

Definition flush (ids : nat -> string) (st : list Block * option Draft) : list Block :=
  finishCurrentBlock ids (snd st) (fst st).

(** What [generateMarkdown] builds before [trim]. *)
Fixpoint doc_raw (doc : list (BlockType * string)) : string :=
  match doc with
  | [] => EmptyString
  | (_, c) :: doc' => c +:+ nl +:+ nl +:+ doc_raw doc'
  end.

(** The wrapper of an ungrouped block. *)
Definition block_item (pb : nat * Block) : OrderedItem :=
  BlockItem (fst pb) (snd pb) (or_zero (order (snd pb))).

(** Two default paragraphs. *)
Definition two_paragraphs : State :=
  run [AddBlock Paragraph "b1"; AddBlock Paragraph "b2"] constructor.

(** A heading, a code block with a blank line inside and blank lines
    around, and a default paragraph. *)
Definition spaced_document : State :=
  mkState
    [mkBlock "b1" Heading (Text ("# Title" +:+ nl)) None false (Some 0);
     mkBlock "b2" Code
       (Text (nl +:+ "```" +:+ nl +:+ "a" +:+ nl +:+ "  " +:+ nl +:+ "b" +:+ nl +:+ "```"))
       None false (Some 1);
     mkBlock "b3" Paragraph (Text "New paragraph content...") None false (Some 2)]
    [] [] 0.

(** An [eval] that always throws. *)
Definition no_eval (e : string) : option string := None.

(** ** What a move leaves alone *)

(** A state with every [order] erased: what is left is all that a handler
    which only writes [order] may not change. *)
Definition without_orders (s : State) : State :=
  mkState (List.map (set_order None) (blocks s)) (variables s)
          (List.map (set_gorder None) (groups s)) (groupCounter s).

(** The four move handlers. *)
Definition is_move (op : Op) : bool :=
  match op with
  | MoveBlockUp _ | MoveBlockDown _ | MoveGroupUp _ | MoveGroupDown _ => true
  | _ => false
  end.

(** The ids of the top-level sequence, in order. *)
Definition sequence_ids (s : State) : list string :=
  List.map item_id (getAllOrderedItems s).

(** ** The top-level sequence as the user sees it *)

(** What shows of an item: its kind, its id and its [order]. *)
Definition item_view (it : OrderedItem) : ItemType * string * Z :=
  (item_type it, item_id it, item_order it).

Definition sequence_view (s : State) : list (ItemType * string * Z) :=
  List.map item_view (getAllOrderedItems s).

(** No two items of the top-level sequence have the same [order]. *)
Definition distinct_orders (s : State) : Prop :=
  NoDup (List.map item_order (getAllOrderedItems s)).

(** ** The variable store *)

(** [addVariable(key, value)]; [variableId] is the minted id. *)
Definition addVariable (key_ value_ : string) (variableId : string) (s : State) : Outcome :=
  Returned (mkState (blocks s) (map_set variableId (mkVariable key_ value_) (variables s))
              (groups s) (groupCounter s)).

(** [deleteVariable(variableId)] *)
Definition deleteVariable (variableId : string) (s : State) : Outcome :=
  Returned (mkState (blocks s) (map_delete variableId (variables s))
              (groups s) (groupCounter s)).

(** [variable[field] = e.target.value]: the two fields the code reads are
    [key] and [value]; any other field name adds a property that nothing
    reads. *)
Definition set_field (field value_ : string) (v : Variable_) : Variable_ :=
  if String.eqb field "key" then mkVariable value_ (value v)
  else if String.eqb field "value" then mkVariable (key v) value_
  else v.

(** [handleVariableInput(e)] with [dataset.variableId], [dataset.field] and
    [e.target.value] *)
Definition handleVariableInput (variableId field value_ : string) (s : State) : Outcome :=
  match map_get variableId (variables s) with
  | None => Returned s
  | Some variable =>
      Returned (mkState (blocks s)
                  (map_set variableId (set_field field value_ variable) (variables s))
                  (groups s) (groupCounter s))
  end.

(** Every key that is not empty builds a pattern of the covered kind. *)
Definition keys_compile (vars : list Variable_) : bool :=
  forallb (fun v => String.eqb (key v) "" ||
                    match compile (key_pattern (key v)) with Some _ => true | None => false end)
    vars.

(** ** The lines of a generated table *)

Fixpoint concat_strings (l : list string) : string :=
  match l with
  | [] => EmptyString
  | x :: l' => x +:+ concat_strings l'
  end.

(** One table line: a bar, then each cell between spaces and closed by a
    bar. *)
Definition row_line (cells : list string) : string :=
  "|" +:+ concat_strings (List.map (fun cell => " " +:+ cell +:+ " |") cells).

(** A block with a text and the stored variables of the example, for the
    evaluation of [generateMarkdown] with variables. *)
Definition priced_document : State :=
  mkState
    [mkBlock "b1" Paragraph (Text "Total: {{total}}") None false (Some 0)]
    [("v1", mkVariable "price" "1000"); ("v2", mkVariable "tax" "0.2");
     ("v3", mkVariable "total" "{{price}}*{{tax}}")]
    [] 0.

(** An [eval] that agrees with [eval_binary64] on arithmetic texts and
    answers anything else with a marker. *)
Definition eval_or_marker (e : string) : option string :=
  if test_arith e then eval_binary64 e else Some "!".

(** A block holds what its type says: a table for ['table'], a text for
    every other type, as [addBlock] and [importMarkdown] build them. *)
Definition typed_block (b : Block) : bool :=
  match block_text b with Some _ => true | None => false end.

(** The preview of [s] is within the embedding: every key that is not
    empty builds a covered pattern, so that [new RegExp] does not throw, and
    every block holds what its type says. *)
Definition previews (s : State) : bool :=
  keys_compile (vars_of s) && forallb typed_block (blocks s).

(** The blocks that [generateMarkdown] writes for an item. *)
Definition item_blocks (it : OrderedItem) : list Block :=
  match it with
  | BlockItem _ b _ => [b]
  | GroupItem _ _ members _ => List.map snd members
  end.

(** The state of [emptied_group] with the variables of the substitution
    example: a table block, a group without members, three variables. *)
Definition priced_emptied_group : State :=
  mkState (blocks emptied_group) (variables priced_document)
          (groups emptied_group) (groupCounter emptied_group).

(** A variable takes part in substitution when its key is not empty. *)
Definition is_active (v : Variable_) : bool := negb (String.eqb (key v) "").

(** ** What an imported block is made of *)

(** The type of the block that a line opens when no block is open:
    [importMarkdown]'s tests in their order; a blank line opens nothing. *)
Definition classify (line : string) : option BlockType :=
  if heading_line line then Some Heading
  else if fence_line line then Some Code
  else if list_line line then Some ListT
  else if blank_line line then None
  else Some Paragraph.

(** A content put together from lines of the input: a first line that
    opens a block of type [t], then lines joined with line feeds, none of
    them blank, and none at all after a heading. *)
Definition built_from (lines : list string) (t : BlockType) (c : string) : Prop :=
  exists l ls,
    c = fold_left add_line ls l /\ classify l = Some t /\
    Forall (fun x => x ∈ lines /\ blank_line x = false) (l :: ls) /\
    (t = Heading -> ls = []).

Definition block_built_from (lines : list string) (b : Block) : Prop :=
  exists c, content b = Text c /\ built_from lines (type b) c.

Definition import_inv (lines : list string) (st : list Block * option Draft) : Prop :=
  Forall (block_built_from lines) (fst st) /\
  forall t c, snd st = Some (t, c) -> built_from lines t c.

(** ** Persistence

    [saveToStorage] hands [{ blocks, variables, groups, groupCounter }] to
    [JSON.stringify], the maps as arrays of entries; [loadFromStorage] gets
    such a record back from [JSON.parse], where each property may be
    missing.  A property that is [undefined] is not written, so it is
    missing again after parsing: [None] stays [None]. *)

Record Snapshot := mkSnapshot {
  snap_blocks : option (list Block);
  snap_variables : option (list (string * Variable_));
  snap_groups : option (list (string * Group));
  snap_groupCounter : option nat
}.

(** What [localStorage.getItem] and [JSON.parse] give: nothing stored (or
    the empty text), a text that does not parse, or a record whose
    properties, where present, have the shape that [saveToStorage] writes.
    A block of a record always has its [selected]: the [false] that
    [loadFromStorage] gives to a block without one is the value read here. *)
Inductive Stored :=
| NoData
| Corrupt
| Parsed (parsed : Snapshot).

(** The [data] of [saveToStorage]. *)
Definition saved (s : State) : Snapshot :=
  mkSnapshot (Some (blocks s)) (Some (variables s)) (Some (groups s)) (Some (groupCounter s)).

(** [x || []] and [x || 0] *)
Definition or_empty {A} (o : option (list A)) : list A :=
  match o with Some l => l | None => [] end.

Definition or_zero_nat (o : option nat) : nat :=
  match o with Some n => n | None => 0%nat end.

(** [new Map(entries)] *)
Definition map_of_entries {V} (entries : list (string * V)) : list (string * V) :=
  fold_left (fun m e => map_set (fst e) (snd e) m) entries [].

(** [if (typeof block.order === 'undefined') block.order = index] *)
Definition default_order (pb : nat * Block) : Block :=
  match order (snd pb) with
  | None => set_order (Some (Z.of_nat (fst pb))) (snd pb)
  | Some _ => snd pb
  end.

(** [if (typeof group.order === 'undefined') group.order = groupIndex++],
    along the entries of the map. *)
Fixpoint default_group_orders (groupIndex : nat) (gs : list (string * Group))
    : list (string * Group) :=
  match gs with
  | [] => []
  | e :: gs' =>
      match gorder (snd e) with
      | None => set_gorder (Some (Z.of_nat groupIndex)) e
                  :: default_group_orders (S groupIndex) gs'
      | Some _ => e :: default_group_orders groupIndex gs'
      end
  end.

(** [loadFromStorage()]; [ids k] is the [k]-th id minted by the bootstrap
    branch.  When [JSON.parse] throws, the [catch] logs and the state stays
    as it is. *)
Definition loadFromStorage (data : Stored) (ids : nat -> string) (s : State) : State :=
  match data with
  | Parsed parsed =>
      mkState
        (List.map default_order (indexed (or_empty (snap_blocks parsed))))
        (map_of_entries (or_empty (snap_variables parsed)))
        (default_group_orders 0 (map_of_entries (or_empty (snap_groups parsed))))
        (or_zero_nat (snap_groupCounter parsed))
  | Corrupt => s
  | NoData =>
      let s := state_of (addVariable "product_name" "Awesome Gadget" (ids 0%nat) s) in
      let s := state_of (addVariable "release_date" "2024-10-26" (ids 1%nat) s) in
      let s := state_of (addVariable "price" "1000" (ids 2%nat) s) in
      let s := state_of (addVariable "tax" "0.2" (ids 3%nat) s) in
      let s := state_of (addVariable "total" "{{price}}*{{tax}}" (ids 4%nat) s) in
      let s := state_of (addBlock Heading None (ids 5%nat) s) in
      let s := state_of (addBlock Paragraph None (ids 6%nat) s) in
      state_of (addBlock Table None (ids 7%nat) s)
  end.

(** Every block and every group has an [order]. *)
Definition orders_defined (s : State) : Prop :=
  Forall (fun b => order b <> None) (blocks s) /\
  Forall (fun e => gorder (snd e) <> None) (groups s).

(** ** Text inputs *)

(** [handleBlockInput(e)] with [dataset.blockId] and [e.target.value]: the
    content becomes that text, whatever the type of the block. *)
Definition handleBlockInput (blockId value_ : string) (s : State) : Outcome :=
  let index := findIndex (has_id blockId) (blocks s) in
  if index <? 0 then Returned s
  else Returned (with_blocks
                   (alter (set_content (Text value_)) (Z.to_nat index) (blocks s)) s).

Definition set_name (v : string) (g : Group) : Group := mkGroup (gid g) v (gorder g).

(** [handleGroupNameChange(e)] with [dataset.groupId] and [e.target.value] *)
Definition handleGroupNameChange (groupId_ value_ : string) (s : State) : Outcome :=
  match map_get groupId_ (groups s) with
  | None => Returned s
  | Some group =>
      Returned (with_groups (map_set groupId_ (set_name value_ group) (groups s)) s)
  end.

(** ** Editing sessions

    The operations of a session together with the table mutators, the two
    text inputs and the three variable handlers.  Of the handlers that
    change the document, [importMarkdown] and [handleTableInput] are not
    among them. *)

Inductive Edit :=
| OnBlocks (op : Op)
| OnTable (op : TableOp)
| BlockInput (blockId value_ : string)
| GroupNameChange (groupId_ value_ : string)
| AddVariable (key_ value_ variableId : string)
| VariableInput (variableId field value_ : string)
| DeleteVariable (variableId : string).

Definition edit (e : Edit) (s : State) : Outcome :=
  match e with
  | OnBlocks op => step op s
  | OnTable op => table_step op s
  | BlockInput blockId value_ => handleBlockInput blockId value_ s
  | GroupNameChange g value_ => handleGroupNameChange g value_ s
  | AddVariable key_ value_ variableId => addVariable key_ value_ variableId s
  | VariableInput variableId field value_ => handleVariableInput variableId field value_ s
  | DeleteVariable variableId => deleteVariable variableId s
  end.

Definition run_edits (es : list Edit) (s : State) : State :=
  fold_left (fun s e => state_of (edit e s)) es s.

(** What [loadFromStorage] finds nothing to repair in: every [order] is
    there, and the two maps are maps. *)
Definition storable (s : State) : Prop :=
  orders_defined s /\ NoDup (List.map fst (variables s)) /\ groups_inv s.

(** ** Items by the place of their alias

    For the effect of a move on the sequence, an item is followed through
    the position its alias points to: a block item to a position of
    [this.blocks], a group item to a position among the entries of
    [this.groups]. *)

Definition item_pos (it : OrderedItem) : nat :=
  match it with BlockItem pos _ _ => pos | GroupItem pos _ _ _ => pos end.

Definition TaggedView : Type := nat * (ItemType * string * Z).

Definition tagged_view (it : OrderedItem) : TaggedView := (item_pos it, item_view it).

Definition tv_order (x : TaggedView) : Z := snd (snd x).

Definition tag (x : TaggedView) : ItemType * nat := (fst (fst (snd x)), fst x).

Definition set_ord (v : Z) (x : TaggedView) : TaggedView := (fst x, (fst (snd x), v)).

Definition same_tag (t : ItemType * nat) (x : TaggedView) : bool :=
  ItemType_eqb (fst (tag x)) (fst t) && (snd (tag x) =? snd t)%nat.

(** What [it.item.order = v] does to the views, [t] being the place of [it]. *)
Definition retag (t : ItemType * nat) (v : Z) (x : TaggedView) : TaggedView :=
  if same_tag t x then set_ord v x else x.

Definition block_tv (pb : nat * Block) : TaggedView :=
  (fst pb, (block_, id (snd pb), or_zero (order (snd pb)))).

Definition group_tv (pe : nat * (string * Group)) : TaggedView :=
  (fst pe, (group_, gid (snd (snd pe)), or_zero (gorder (snd (snd pe))))).

Definition has_members (bs : list Block) (pe : nat * (string * Group)) : bool :=
  (0 <? length (group_members bs (fst (snd pe))))%nat.

(** The items of [getAllOrderedItems] before the sort. *)
Definition base_items (s : State) : list OrderedItem :=
  ungrouped_items (blocks s) ++ group_items (blocks s) (groups s).

(** The two neighbours [a] and [b] of a sequence after a move: each has the
    [order] of the other. *)
Definition traded (pre post : list (ItemType * string * Z)) (a b : ItemType * string * Z)
    : list (ItemType * string * Z) :=
  pre ++ (fst b, snd a) :: (fst a, snd b) :: post.

(** A group of two blocks followed by a block of its own. *)
Definition group_and_block : State := run [AddBlock Table "b3"] grouped_pair.

(** * Properties *)

(** ** Lists, sorting and positions *)

Lemma sort_insert_Permutation {A} (k : A -> Z) x l : sort_insert k x l ≡ₚ x :: l.
Proof.
  induction l as [|y l IH]; simpl; [done|].
  destruct (k x <=? k y); [done|].
  rewrite IH. apply Permutation_swap.
Qed.

Lemma sort_by_Permutation {A} (k : A -> Z) l : sort_by k l ≡ₚ l.
Proof.
  induction l as [|x l IH]; simpl; [done|].
  by rewrite sort_insert_Permutation, IH.
Qed.

Lemma map_alter_same {A B} (g : A -> B) (f : A -> A) i (l : list A) :
  (forall x, g (f x) = g x) -> List.map g (alter f i l) = List.map g l.
Proof.
  intros Hf. revert i. induction l as [|x l IH]; intros [|i]; simpl; try done.
  - by rewrite Hf.
  - f_equal. apply IH.
Qed.

Lemma filter_elem_of {A} (p : A -> bool) (l : list A) x :
  x ∈ List.filter p l <-> x ∈ l /\ p x = true.
Proof. rewrite !list_elem_of_In. apply filter_In. Qed.

Lemma map_elem_of {A B} (g : A -> B) (l : list A) y :
  y ∈ List.map g l <-> exists x, g x = y /\ x ∈ l.
Proof.
  rewrite list_elem_of_In, in_map_iff.
  split; intros (x & ? & ?); exists x; split; try done; by apply list_elem_of_In.
Qed.

Lemma NoDup_map_filter {A B} (g : A -> B) (p : A -> bool) (l : list A) :
  NoDup (List.map g l) -> NoDup (List.map g (List.filter p l)).
Proof.
  induction l as [|x l IH]; simpl; [done|].
  rewrite NoDup_cons. intros [Hx Hl].
  destruct (p x); simpl; [|by apply IH].
  rewrite NoDup_cons. split; [|by apply IH].
  intros Hin. apply Hx.
  apply map_elem_of in Hin as (y & Hy & Hin).
  apply filter_elem_of in Hin as [Hin _].
  apply map_elem_of. eauto.
Qed.

Lemma Forall_List_filter {A} (P : A -> Prop) (p : A -> bool) (l : list A) :
  Forall P l -> Forall P (List.filter p l).
Proof.
  induction 1 as [|x l Hx Hl IH]; simpl; [done|].
  destruct (p x); [by constructor|done].
Qed.

Lemma Forall_List_map {A B} (P : B -> Prop) (g : A -> B) (l : list A) :
  Forall P (List.map g l) <-> Forall (fun x => P (g x)) l.
Proof.
  induction l as [|x l IH]; simpl; [split; constructor|].
  rewrite !Forall_cons. by rewrite IH.
Qed.

(** Taking an element out and putting it back anywhere. *)
Lemma at_index_Some {A} (l : list A) i x :
  at_index l i = Some x -> 0 <= i /\ l !! Z.to_nat i = Some x.
Proof.
  unfold at_index. destruct (Z.ltb_spec i 0); [done|]. by split.
Qed.

Lemma splice_start_in_range len i :
  0 <= i -> (Z.to_nat i < len)%nat -> splice_start len i = Z.to_nat i.
Proof.
  intros Hi Hlt. unfold splice_start.
  destruct (Z.ltb_spec i 0); [lia|]. f_equal. lia.
Qed.

Lemma splice_move_Permutation {A} (l : list A) i j x :
  at_index l i = Some x -> splice_in (splice1 l i) j x ≡ₚ l.
Proof.
  intros [Hi Hx]%at_index_Some.
  unfold splice_in, splice1.
  rewrite splice_start_in_range by (try done; by eapply lookup_lt_Some).
  set (l' := take _ l ++ drop _ l).
  rewrite <- Permutation_middle, take_drop.
  subst l'. rewrite Permutation_middle.
  by rewrite take_drop_middle.
Qed.

(** Positions: [indexed] from any first position. *)
Lemma indexed_from_cons {A} n (x : A) l :
  indexed_from n (x :: l) = (n, x) :: indexed_from (S n) l.
Proof. done. Qed.

Lemma indexed_eq {A} (l : list A) : indexed l = indexed_from 0 l.
Proof. done. Qed.

Lemma indexed_from_snd {A} n (l : list A) : List.map snd (indexed_from n l) = l.
Proof.
  revert n. induction l as [|x l IH]; intros n; [done|].
  rewrite indexed_from_cons. simpl. by rewrite IH.
Qed.

Lemma indexed_from_lookup {A} n (l : list A) p x :
  (p, x) ∈ indexed_from n l <-> (n <= p)%nat /\ l !! (p - n)%nat = Some x.
Proof.
  revert n. induction l as [|y l IH]; intros n.
  - unfold indexed_from. simpl. rewrite elem_of_nil. split; [done|]. by intros [_ ?].
  - rewrite indexed_from_cons, elem_of_cons, IH. split.
    + intros [[= -> ->]|[Hle Hx]].
      * split; [lia|]. by rewrite Nat.sub_diag.
      * split; [lia|]. by replace (p - n)%nat with (S (p - S n)) by lia.
    + intros [Hle Hx]. destruct (decide (p = n)) as [->|Hne].
      * left. rewrite Nat.sub_diag in Hx. simpl in Hx. congruence.
      * right. split; [lia|].
        by replace (p - n)%nat with (S (p - S n)) in Hx by lia.
Qed.

Lemma indexed_lookup {A} (l : list A) p x :
  (p, x) ∈ indexed l <-> l !! p = Some x.
Proof.
  rewrite indexed_eq, indexed_from_lookup, Nat.sub_0_r. split; [tauto|]. split; [lia|done].
Qed.

(** ** Block creation *)

(** C8, as the claim states it, fails: with two blocks inside one group the
    document has one top-level item, and the block created next gets
    [order] 2, the length of the block list. *)
Lemma addBlock_order_is_not_top_level_count :
  top_level_count grouped_pair = 1%nat /\
  exists b,
    last (blocks (state_of (addBlock Heading None "b3" grouped_pair))) = Some b /\
    order b = Some 2 /\
    order b <> Some (Z.of_nat (top_level_count grouped_pair)).
Proof.
  split; [reflexivity|].
  eexists. split; [reflexivity|]. split; [reflexivity|]. discriminate.
Qed.

(** C8 (amended): for every block type, [addBlock(type)] appends one block
    with the minted id, the default content of the type, [groupId = null],
    [selected = false] and [order] equal to the number of blocks in the
    block list (grouped ones included) at the moment of creation; nothing
    else changes. *)
Theorem addBlock_appends_default_block (t : BlockType) (blockId : string) (s : State) :
  exists b,
    addBlock t None blockId s =
      Returned (mkState (blocks s ++ [b]) (variables s) (groups s) (groupCounter s)) /\
    id b = blockId /\ type b = t /\ content b = getDefaultContent t /\
    groupId b = None /\ selected b = false /\
    order b = Some (Z.of_nat (length (blocks s))).
Proof. eexists. repeat split. Qed.

(** ** Deleting a block *)

Lemma filter_remove_unique (blockId : string) (bs : list Block) :
  NoDup (List.map id bs) -> blockId ∈ List.map id bs ->
  exists pre b post,
    bs = pre ++ b :: post /\ id b = blockId /\
    List.filter (fun b => negb (has_id blockId b)) bs = pre ++ post.
Proof.
  induction bs as [|x bs IH]; simpl.
  - intros _ Hin. by apply elem_of_nil in Hin.
  - rewrite NoDup_cons, elem_of_cons. intros [Hx Hnd] Hin.
    unfold has_id at 1. destruct (String.eqb_spec (id x) blockId) as [Heq|Hne]; simpl.
    + exists [], x, bs. split; [done|]. split; [done|]. simpl.
      clear IH Hin Hnd. induction bs as [|y bs IH]; simpl; [done|].
      simpl in Hx. rewrite not_elem_of_cons in Hx. destruct Hx as [Hy Hx].
      unfold has_id at 1. destruct (String.eqb_spec (id y) blockId); [congruence|].
      simpl. f_equal. by apply IH.
    + destruct Hin as [Heq|Hin]; [congruence|].
      destruct (IH Hnd Hin) as (pre & b & post & -> & Hb & Hf).
      exists (x :: pre), b, post. simpl. by rewrite Hf.
Qed.

(** C10: when the ids of the blocks are distinct and [blockId] is the id of
    a block, [deleteBlock(blockId)] removes that block and nothing else: the
    blocks before and after it stay as they are, in the same order, and
    [variables], [groups] (also a group that lost its last member) and
    [groupCounter] are unchanged. *)
Theorem deleteBlock_removes_exactly_that_block (blockId : string) (s : State) :
  NoDup (block_ids s) -> blockId ∈ block_ids s ->
  exists pre b post,
    blocks s = pre ++ b :: post /\ id b = blockId /\
    deleteBlock blockId s =
      Returned (mkState (pre ++ post) (variables s) (groups s) (groupCounter s)).
Proof.
  intros Hnd Hin.
  destruct (filter_remove_unique blockId (blocks s) Hnd Hin) as (pre & b & post & Hs & Hb & Hf).
  exists pre, b, post. split; [done|]. split; [done|].
  unfold deleteBlock, with_blocks. by rewrite Hf.
Qed.

Lemma deleteBlock_removes_exactly_that_block_witness :
  exists pre b post,
    blocks grouped_pair = pre ++ b :: post /\ id b = "b2" /\
    deleteBlock "b2" grouped_pair =
      Returned (mkState (pre ++ post) (variables grouped_pair) (groups grouped_pair)
                  (groupCounter grouped_pair)).
Proof.
  apply (deleteBlock_removes_exactly_that_block "b2" grouped_pair).
  - apply (bool_decide_unpack _). by vm_compute.
  - apply (bool_decide_unpack _). by vm_compute.
Defined.

(** ** Tables *)

Lemma splice1_length {A} (l : list A) (i : Z) :
  length (splice1 l i) =
    if (splice_start (length l) i <? length l)%nat then pred (length l) else length l.
Proof.
  unfold splice1. set (n := splice_start (length l) i).
  rewrite length_app, length_take, length_drop.
  destruct (Nat.ltb_spec n (length l)); lia.
Qed.

Lemma splice1_length_bounds {A} (l : list A) (i : Z) :
  (pred (length l) <= length (splice1 l i) <= length l)%nat.
Proof. rewrite splice1_length. destruct (_ <? _)%nat; lia. Qed.

Lemma default_table_wf t : getDefaultContent Table = TableData t -> table_wf t.
Proof.
  intros [= <-]. unfold table_wf. simpl. repeat split; try lia.
  repeat constructor.
Qed.

Lemma table_addRow_wf t : table_wf t -> table_wf (table_addRow t).
Proof.
  intros (Hh & Hr & Hall). unfold table_wf, table_addRow. simpl.
  rewrite length_app. split; [done|]. split; [lia|].
  apply Forall_app. split; [done|].
  constructor; [|done]. by rewrite repeat_length.
Qed.

Lemma table_addColumn_wf t : table_wf t -> table_wf (table_addColumn t).
Proof.
  intros (Hh & Hr & Hall). unfold table_wf, table_addColumn. simpl.
  rewrite length_app, length_map. split; [lia|]. split; [done|].
  apply Forall_List_map. eapply Forall_impl; [exact Hall|].
  intros row Hrow. simpl. rewrite !length_app, Hrow. done.
Qed.

Lemma table_deleteRow_wf i t : table_wf t -> table_wf (table_deleteRow i t).
Proof.
  intros (Hh & Hr & Hall). unfold table_deleteRow.
  destruct (Nat.ltb_spec 1 (length (rows t))) as [Hlt|Hge]; [|done].
  unfold table_wf. simpl. split; [done|]. split.
  - pose proof (splice1_length_bounds (rows t) i). lia.
  - unfold splice1. apply Forall_app. split.
    + by apply Forall_take.
    + by apply Forall_drop.
Qed.

Lemma table_deleteColumn_wf i t : table_wf t -> table_wf (table_deleteColumn i t).
Proof.
  intros (Hh & Hr & Hall). unfold table_deleteColumn.
  destruct (Nat.ltb_spec 1 (length (headers t))) as [Hlt|Hge]; [|done].
  unfold table_wf. simpl. rewrite length_map. split.
  - pose proof (splice1_length_bounds (headers t) i). lia.
  - split; [done|]. apply Forall_List_map.
    eapply Forall_impl; [exact Hall|]. intros row Hrow. simpl.
    by rewrite !splice1_length, Hrow.
Qed.

Lemma findIndex_from_spec {A} (p : A -> bool) (l : list A) (n : Z) :
  match List.find p l with
  | Some x => exists k, findIndex_from p l n = n + Z.of_nat k /\
                        l !! k = Some x /\ p x = true
  | None => findIndex_from p l n = -1
  end.
Proof.
  revert n. induction l as [|y l IH]; intros n; simpl; [done|].
  destruct (p y) eqn:Hy.
  - exists 0%nat. split; [lia|done].
  - specialize (IH (n + 1)). destruct (List.find p l); [|done].
    destruct IH as (k & Hk & Hl & Hp). exists (S k). split; [lia|done].
Qed.

Lemma findIndex_found {A} (p : A -> bool) (l : list A) x :
  List.find p l = Some x ->
  exists k, findIndex p l = Z.of_nat k /\ l !! k = Some x /\ p x = true.
Proof.
  intros Hf. pose proof (findIndex_from_spec p l 0) as H. rewrite Hf in H.
  destruct H as (k & Hk & ?). exists k. split; [|done]. unfold findIndex. lia.
Qed.

Lemma findIndex_not_found {A} (p : A -> bool) (l : list A) :
  List.find p l = None -> findIndex p l = -1.
Proof.
  intros Hf. pose proof (findIndex_from_spec p l 0) as H. by rewrite Hf in H.
Qed.

Lemma at_index_nat {A} (l : list A) (k : nat) : at_index l (Z.of_nat k) = l !! k.
Proof.
  unfold at_index. destruct (Z.ltb_spec (Z.of_nat k) 0); [lia|]. by rewrite Nat2Z.id.
Qed.

Lemma on_table_wf blockId f s :
  (forall t, table_wf t -> table_wf (f t)) ->
  tables_wf s ->
  exists s', on_table blockId f s = Returned s' /\ tables_wf s'.
Proof.
  intros Hf Hwf. unfold on_table.
  destruct (List.find (has_id blockId) (blocks s)) as [b|] eqn:Hfind.
  - destruct (findIndex_found _ _ _ Hfind) as (k & -> & Hk & _).
    rewrite at_index_nat, Hk, Nat2Z.id.
    pose proof (proj1 (Forall_lookup _ _) Hwf k b Hk) as Hb.
    unfold block_wf in Hb.
    destruct (BlockType_eqb (type b) Table) eqn:Ht; [|by eauto].
    destruct (content b) as [c|t] eqn:Hc.
    + destruct (type b); done.
    + eexists. split; [done|]. unfold tables_wf. simpl.
      apply Forall_alter; [done|]. intros x Hx _.
      unfold block_wf. simpl. apply Hf. congruence.
  - rewrite (findIndex_not_found _ _ Hfind). eauto.
Qed.

Lemma table_step_wf op s :
  tables_wf s -> exists s', table_step op s = Returned s' /\ tables_wf s'.
Proof.
  intros Hwf. destruct op; simpl; apply on_table_wf; auto using
    table_addRow_wf, table_addColumn_wf, table_deleteRow_wf, table_deleteColumn_wf.
Qed.

Lemma run_table_wf ops s : tables_wf s -> tables_wf (run_table ops s).
Proof.
  revert s. induction ops as [|op ops IH]; intros s Hwf; [done|].
  simpl. apply IH. destruct (table_step_wf op s Hwf) as (s' & -> & Hs'). done.
Qed.

Lemma set_content_same b : set_content (content b) b = b.
Proof. by destruct b. Qed.

Lemma on_table_id blockId f s t :
  table_of blockId s = Some t -> f t = t -> on_table blockId f s = Returned s.
Proof.
  unfold table_of, on_table. intros Ht Hf.
  destruct (List.find (has_id blockId) (blocks s)) as [b|] eqn:Hfind; [|done].
  destruct (findIndex_found _ _ _ Hfind) as (k & -> & Hk & _).
  rewrite at_index_nat, Hk, Nat2Z.id.
  destruct (content b) as [c|t'] eqn:Hc; [done|]. injection Ht as ->.
  destruct (BlockType_eqb (type b) Table); [|done].
  rewrite Hf. f_equal. destruct s as [bs vs gs n]. unfold with_blocks. simpl in *.
  f_equal. apply list_eq. intros j. rewrite list_lookup_alter.
  destruct (decide (k = j)) as [<-|]; [|done].
  rewrite Hk. simpl. by rewrite <- Hc, set_content_same.
Qed.

(** C5: starting from well-formed tables (as [addBlock('table')] creates
    them), after any sequence of [addTableRow], [addTableColumn],
    [deleteTableRow] and [deleteTableColumn] with any ids and any integer
    indices, no call has thrown and every table has at least one column, at
    least one row, and rows as long as its header row.  [deleteTableRow] on
    a table with one row and [deleteTableColumn] on a table with one column
    change nothing. *)
Theorem table_invariant (s : State) (ops : list TableOp) :
  tables_wf s ->
  (forall op s', tables_wf s' -> exists s'', table_step op s' = Returned s'') /\
  tables_wf (run_table ops s) /\
  (forall blockId t, table_of blockId (run_table ops s) = Some t ->
     (1 <= length (headers t))%nat /\ (1 <= length (rows t))%nat /\
     Forall (fun row => length row = length (headers t)) (rows t)) /\
  (forall blockId rowIndex s' t,
     table_of blockId s' = Some t -> length (rows t) = 1%nat ->
     deleteTableRow blockId rowIndex s' = Returned s') /\
  (forall blockId colIndex s' t,
     table_of blockId s' = Some t -> length (headers t) = 1%nat ->
     deleteTableColumn blockId colIndex s' = Returned s').
Proof.
  intros Hwf. split; [|split; [|split; [|split]]].
  - intros op s' Hs'. destruct (table_step_wf op s' Hs') as (s'' & ? & _). eauto.
  - by apply run_table_wf.
  - intros blockId t Ht. pose proof (run_table_wf ops s Hwf) as Hwf'.
    unfold table_of in Ht.
    destruct (List.find _ _) as [b|] eqn:Hfind; [|done].
    destruct (findIndex_found _ _ _ Hfind) as (k & _ & Hk & _).
    pose proof (proj1 (Forall_lookup _ _) Hwf' k b Hk) as Hb.
    unfold block_wf in Hb. destruct (content b); [done|]. by injection Ht as <-.
  - intros blockId rowIndex s' t Ht Hlen. eapply on_table_id; [done|].
    unfold table_deleteRow. by rewrite Hlen.
  - intros blockId colIndex s' t Ht Hlen. eapply on_table_id; [done|].
    unfold table_deleteColumn. by rewrite Hlen.
Qed.

Lemma table_invariant_witness :
  tables_wf three_blocks /\
  tables_wf (run_table [DeleteColumn "b3" (-1); DeleteColumn "b3" 5; DeleteColumn "b3" 0;
                        DeleteRow "b3" 0; DeleteRow "b3" 9; AddColumn "b3"; AddRow "b3"]
               three_blocks).
Proof.
  assert (Hwf : tables_wf three_blocks).
  { unfold tables_wf, three_blocks. simpl.
    repeat constructor; unfold block_wf, table_wf; simpl; try discriminate; try lia. }
  split; [exact Hwf|].
  exact (proj1 (proj2 (table_invariant three_blocks _ Hwf))).
Defined.

(** ** Variable substitution *)

(** C7: with [price = "1000"], [tax = "0.2"] and
    [total = "{{price}}*{{tax}}"], stored in that order,
    [evaluateExpression("{{price}}*{{tax}}")] substitutes to ["1000*0.2"],
    which passes the arithmetic character class, and, [eval] giving 200 for
    it, returns ["200"]; [substituteVariables("Total: {{total}}")] returns
    ["Total: 200"]. *)
Theorem substitute_total_example (js_eval : string -> option string) :
  js_eval "1000*0.2" = Some "200" ->
  fold_left evaluate_step price_variables (Some "{{price}}*{{tax}}") = Some "1000*0.2" /\
  test_arith (strip_markers "1000*0.2") = true /\
  evaluateExpression js_eval price_variables "{{price}}*{{tax}}" = Some "200" /\
  substituteVariables js_eval price_variables "Total: {{total}}" = Some "Total: 200".
Proof.
  intros Heval.
  assert (Hfold : fold_left evaluate_step price_variables (Some "{{price}}*{{tax}}")
                  = Some "1000*0.2") by reflexivity.
  assert (Hexpr : evaluateExpression js_eval price_variables "{{price}}*{{tax}}"
                  = Some "200").
  { unfold evaluateExpression. rewrite Hfold. simpl.
    change (strip_markers "1000*0.2") with "1000*0.2". by rewrite Heval. }
  split; [exact Hfold|]. split; [reflexivity|]. split; [exact Hexpr|].
  unfold substituteVariables.
  change (fold_left (substitute_step js_eval price_variables) price_variables
            (Some "Total: {{total}}"))
    with (substitute_step js_eval price_variables (Some "Total: {{total}}")
            (mkVariable "total" "{{price}}*{{tax}}")).
  unfold substitute_step. cbn [mbind option_bind key value].
  change (includes "{{price}}*{{tax}}" "{{" && includes "{{price}}*{{tax}}" "}}") with true.
  cbn iota. rewrite Hexpr. reflexivity.
Qed.

Lemma substitute_total_example_witness :
  eval_binary64 "1000*0.2" = Some "200" /\
  substituteVariables eval_binary64 price_variables "Total: {{total}}" = Some "Total: 200".
Proof.
  assert (H : eval_binary64 "1000*0.2" = Some "200") by (vm_compute; reflexivity).
  split; [exact H|].
  exact (proj2 (proj2 (proj2 (substitute_total_example eval_binary64 H)))).
Defined.

(** C9 fails on the code: the key is pasted into the pattern unescaped, so
    a key with a dot also replaces text that is not the literal
    [{{key}}].  With the single variable [a.b = "X"], the text
    ["{{a.b}} and {{a-b}}"] becomes ["X and X"]; replacing the literal
    occurrences only would give ["X and {{a-b}}"]. *)
Theorem substituteVariables_key_is_a_pattern (js_eval : string -> option string) :
  substituteVariables js_eval [mkVariable "a.b" "X"] "{{a.b}} and {{a-b}}"
    = Some "X and X" /\
  substituteVariables js_eval [mkVariable "a.b" "X"] "{{a.b}} and {{a-b}}"
    <> Some "X and {{a-b}}".
Proof. split; [reflexivity|discriminate]. Qed.

(** ** Markdown import *)

Lemma finishCurrentBlock_fresh ids d bs :
  fresh_import ids bs -> fresh_import ids (finishCurrentBlock ids d bs).
Proof.
  intros Hbs. destruct d as [[t c]|]; [|done]. simpl.
  intros k b Hk. apply lookup_app_Some in Hk as [Hk|[Hge Hk]]; [by apply Hbs|].
  apply list_lookup_singleton_Some in Hk as [Hk <-]. simpl.
  replace k with (length bs) by lia. done.
Qed.

Lemma import_line_fresh ids st line :
  fresh_import ids (fst st) -> fresh_import ids (fst (import_line ids st line)).
Proof.
  destruct st as [bs cur]. unfold import_line. intros Hbs.
  repeat case_match; simpl; auto using finishCurrentBlock_fresh.
Qed.

Lemma import_lines_fresh ids lines st :
  fresh_import ids (fst st) ->
  fresh_import ids (fst (fold_left (import_line ids) lines st)).
Proof.
  revert st. induction lines as [|line lines IH]; intros st Hst; [done|].
  simpl. apply IH. by apply import_line_fresh.
Qed.

(** C6 fails on the code in its last part.  For every text,
    [importMarkdown] replaces the block list (the result does not depend on
    the old blocks), the [k]-th produced block gets the [k]-th minted id and
    no [groupId]; but its [order] stays [undefined]: nothing assigns
    [order = k]. *)
Theorem importMarkdown_leaves_order_undefined
    (ids : nat -> string) (markdown : string) (s : State) :
  exists bs,
    importMarkdown ids markdown s = Returned (with_blocks bs s) /\
    bs = blocks (state_of (importMarkdown ids markdown constructor)) /\
    forall k b, bs !! k = Some b ->
      id b = ids k /\ groupId b = None /\ selected b = false /\ order b = None.
Proof.
  unfold importMarkdown.
  pose proof (import_lines_fresh ids (split_lines markdown) ([], None)) as H.
  destruct (fold_left _ _ _) as [bs cur]. simpl in *.
  eexists. split; [done|]. split; [done|].
  apply finishCurrentBlock_fresh, H. intros k b Hk. done.
Qed.

(** On ["# A\n# B"] the second block has no [order] where C6 promises 1, and
    the move buttons no longer reorder the two headings. *)
Lemma import_two_headings :
  let s := state_of (importMarkdown pretty ("# A" +:+ nl +:+ "# B") constructor) in
  List.map order (blocks s) = [None; None] /\
  List.map item_id (getAllOrderedItems s) = ["0"; "1"] /\
  List.map item_id (getAllOrderedItems (state_of (moveBlockDown "0" s))) = ["0"; "1"].
Proof. repeat split. Qed.

(** ** Maps *)

Lemma map_has_elem_of {V} k (m : list (string * V)) :
  map_has k m = true <-> k ∈ List.map fst m.
Proof.
  induction m as [|[k' v] m IH]; simpl.
  - rewrite elem_of_nil. split; [discriminate|done].
  - rewrite elem_of_cons. destruct (String.eqb_spec k' k) as [->|Hne].
    + split; [by left|done].
    + rewrite IH. split; [by right|]. intros [?|?]; [congruence|done].
Qed.

Lemma map_has_false {V} k (m : list (string * V)) :
  k ∉ List.map fst m -> map_has k m = false.
Proof.
  intros Hk. destruct (map_has k m) eqn:H; [|done].
  by apply map_has_elem_of in H.
Qed.

Lemma map_set_new {V} k (v : V) m : map_has k m = false -> map_set k v m = m ++ [(k, v)].
Proof.
  induction m as [|[k' v'] m IH]; simpl; [done|].
  destruct (String.eqb k' k); [done|]. intros H. by rewrite IH.
Qed.

Lemma map_set_keys {V} k (v : V) m :
  List.map fst (map_set k v m) =
    if map_has k m then List.map fst m else List.map fst m ++ [k].
Proof.
  induction m as [|[k' v'] m IH]; simpl; [done|].
  destruct (String.eqb k' k); simpl; [done|].
  rewrite IH. by destruct (map_has k m).
Qed.

Lemma map_delete_keys {V} k (m : list (string * V)) k' :
  k' ∈ List.map fst (map_delete k m) <-> k' ∈ List.map fst m /\ k' <> k.
Proof.
  unfold map_delete. rewrite !map_elem_of. split.
  - intros ([k0 v] & <- & [Hin Hp]%filter_elem_of). simpl in *.
    split; [exists (k0, v); by split|].
    destruct (String.eqb_spec k0 k); [done|done].
  - intros [([k0 v] & <- & Hin) Hne]. exists (k0, v). split; [done|].
    apply filter_elem_of. split; [done|]. simpl in *.
    by destruct (String.eqb_spec k0 k).
Qed.

(** ** Grouping the selection *)

Lemma fold_left_min_le xs x : fold_left Z.min xs x <= x.
Proof.
  revert x. induction xs as [|y xs IH]; intros x; simpl; [lia|].
  specialize (IH (Z.min x y)). lia.
Qed.

Lemma fold_left_min_lower xs x y : y ∈ xs -> fold_left Z.min xs x <= y.
Proof.
  revert x. induction xs as [|z xs IH]; intros x; simpl.
  - by intros ?%elem_of_nil.
  - intros [->|Hy]%elem_of_cons; [|by apply IH].
    pose proof (fold_left_min_le xs (Z.min x z)). lia.
Qed.

Lemma fold_left_min_elem xs x : fold_left Z.min xs x = x \/ fold_left Z.min xs x ∈ xs.
Proof.
  revert x. induction xs as [|z xs IH]; intros x; simpl; [by left|].
  destruct (IH (Z.min x z)) as [H|H].
  - rewrite H. destruct (Z.min_spec x z) as [[_ ->]|[_ ->]]; [by left|].
    right. by left.
  - right. by right.
Qed.

Lemma math_min_spec xs :
  xs <> [] -> math_min xs ∈ xs /\ forall y, y ∈ xs -> math_min xs <= y.
Proof.
  destruct xs as [|x xs]; [done|]. intros _. simpl. split.
  - destruct (fold_left_min_elem xs x) as [->|H]; [by left|by right].
  - intros y [->|Hy]%elem_of_cons.
    + apply fold_left_min_le.
    + by apply fold_left_min_lower.
Qed.

Lemma join_all_pass g k n pre bs :
  length pre = n ->
  join_all g k (List.filter (fun pb => is_selectable (snd pb)) (indexed_from n bs)) (pre ++ bs)
    = pre ++ join_pass g k bs.
Proof.
  revert k n pre. induction bs as [|b bs IH]; intros k n pre Hn; [done|].
  rewrite indexed_from_cons. simpl.
  destruct (is_selectable b) eqn:Hb; simpl.
  - replace (alter (join_group g k) n (pre ++ b :: bs))
      with ((pre ++ [join_group g k b]) ++ bs).
    + rewrite (IH (S k) (S n)) by (rewrite length_app; simpl; lia).
      by rewrite <- app_assoc.
    + rewrite <- app_assoc. simpl. subst n.
      rewrite alter_app_r_alt by lia. by rewrite Nat.sub_diag.
  - replace (pre ++ b :: bs) with ((pre ++ [b]) ++ bs) by (by rewrite <- app_assoc).
    rewrite (IH k (S n)) by (rewrite length_app; simpl; lia).
    by rewrite <- app_assoc.
Qed.

Lemma join_pass_lookup g k bs i b :
  bs !! i = Some b ->
  join_pass g k bs !! i =
    Some (if is_selectable b
          then join_group g (k + length (List.filter is_selectable (take i bs))) b
          else b).
Proof.
  revert k i. induction bs as [|x bs IH]; intros k i; [done|].
  destruct i as [|i]; simpl.
  - intros [= ->]. destruct (is_selectable b); simpl; [|done].
    by rewrite Nat.add_0_r.
  - intros Hb. destruct (is_selectable x) eqn:Hx; simpl.
    + rewrite (IH (S k) i Hb). destruct (is_selectable b); [|done].
      simpl. do 2 f_equal. lia.
    + by rewrite (IH k i Hb).
Qed.

Lemma join_pass_length g k bs : length (join_pass g k bs) = length bs.
Proof.
  revert k. induction bs as [|x bs IH]; intros k; [done|].
  simpl. destruct (is_selectable x); simpl; by rewrite IH.
Qed.

Lemma filter_indexed_length {A} (p : A -> bool) n (l : list A) :
  length (List.filter (fun pb => p (snd pb)) (indexed_from n l)) = length (List.filter p l).
Proof.
  revert n. induction l as [|x l IH]; intros n; [done|].
  rewrite indexed_from_cons. simpl. destruct (p x); simpl; by rewrite IH.
Qed.

Lemma filter_indexed_snd {A} (p : A -> bool) n (l : list A) :
  List.map snd (List.filter (fun pb => p (snd pb)) (indexed_from n l)) = List.filter p l.
Proof.
  revert n. induction l as [|x l IH]; intros n; [done|].
  rewrite indexed_from_cons. simpl. destruct (p x); simpl; by rewrite IH.
Qed.

(** C4: with fewer than two blocks that are selected and ungrouped,
    [groupSelectedBlocks] alerts and leaves the state as it is.  With two or
    more, in a state where the next group id is not in use, it appends
    exactly one group, whose [order] is the least [order] of the selected
    blocks; every selected block joins that group, is deselected and gets as
    [order] its index within the selection; every other block stays as it
    is. *)
Theorem groupSelectedBlocks_spec (s : State) :
  counter_fresh s ->
  ((length (selection s) < 2)%nat -> groupSelectedBlocks s = Alerted alert_message s) /\
  ((2 <= length (selection s))%nat ->
    exists s' minOrder,
      groupSelectedBlocks s = Returned s' /\
      minOrder ∈ List.map (fun b => or_zero (order b)) (selection s) /\
      (forall b, b ∈ selection s -> minOrder <= or_zero (order b)) /\
      groups s' = groups s ++
        [(next_group_id s,
          mkGroup (next_group_id s) ("Group " +:+ pretty (S (groupCounter s))) (Some minOrder))] /\
      variables s' = variables s /\
      groupCounter s' = S (groupCounter s) /\
      length (blocks s') = length (blocks s) /\
      forall i b, blocks s !! i = Some b ->
        blocks s' !! i =
          Some (if is_selectable b
                then mkBlock (id b) (type b) (content b) (Some (next_group_id s)) false
                       (Some (Z.of_nat (selection_index s i)))
                else b)).
Proof.
  intros Hfresh. unfold groupSelectedBlocks, selection, indexed.
  rewrite filter_indexed_length.
  split; intros Hlen.
  - destruct (Nat.ltb_spec (length (List.filter is_selectable (blocks s))) 2); [done|lia].
  - destruct (Nat.ltb_spec (length (List.filter is_selectable (blocks s))) 2); [lia|].
    eexists. exists (math_min (List.map (fun b => or_zero (order b))
                               (List.filter is_selectable (blocks s)))).
    split; [reflexivity|]. simpl.
    assert (Hne : List.map (fun b => or_zero (order b)) (List.filter is_selectable (blocks s)) <> []).
    { destruct (List.filter is_selectable (blocks s)); [simpl in *; lia|done]. }
    destruct (math_min_spec _ Hne) as [Hin Hle].
    split; [done|]. split.
    { intros b Hb. apply Hle. apply map_elem_of. eauto. }
    split.
    { rewrite map_set_new.
      - do 4 f_equal.
        rewrite <- (filter_indexed_snd is_selectable 0 (blocks s)).
        by rewrite List.map_map.
      - apply map_has_false. apply Hfresh. lia. }
    split; [done|]. split; [done|].
    pose proof (join_all_pass (next_group_id s) 0 0 [] (blocks s) eq_refl) as Hj.
    simpl in Hj. unfold next_group_id in *. rewrite Hj.
    split; [apply join_pass_length|].
    intros i b Hb. by rewrite (join_pass_lookup _ _ _ _ _ Hb).
Qed.

Lemma groupSelectedBlocks_spec_witness :
  counter_fresh two_selected /\ (2 <= length (selection two_selected))%nat /\
  exists s' minOrder,
    groupSelectedBlocks two_selected = Returned s' /\
    minOrder ∈ List.map (fun b => or_zero (order b)) (selection two_selected) /\
    groupCounter s' = 1%nat.
Proof.
  assert (Hfresh : counter_fresh two_selected).
  { intros n _. change (group_keys two_selected) with (@nil string). apply not_elem_of_nil. }
  assert (Hlen : (2 <= length (selection two_selected))%nat) by (vm_compute; lia).
  split; [exact Hfresh|]. split; [exact Hlen|].
  destruct (proj2 (groupSelectedBlocks_spec two_selected Hfresh) Hlen)
    as (s' & minOrder & Hrun & Hmin & _ & _ & _ & Hcounter & _).
  exists s', minOrder. split; [exact Hrun|]. split; [exact Hmin|]. exact Hcounter.
Defined.

(** ** Handlers that only write [order] and [selected] *)

Lemma groups_inv_skeleton s s' : skeleton s' = skeleton s -> groups_inv s -> groups_inv s'.
Proof.
  unfold skeleton, groups_inv, counter_fresh, no_dangling, group_keys.
  intros [= Hid Hg Hk Hgid Hc]. by rewrite Hg, Hk, Hgid, Hc.
Qed.

Lemma ids_inv_skeleton s s' : skeleton s' = skeleton s -> ids_inv s -> ids_inv s'.
Proof.
  unfold skeleton, ids_inv, block_ids. intros [= Hid Hg Hk Hgid Hc]. by rewrite Hid.
Qed.

Lemma with_blocks_alter_skeleton f i s :
  (forall b, id (f b) = id b) -> (forall b, groupId (f b) = groupId b) ->
  skeleton (with_blocks (alter f i (blocks s)) s) = skeleton s.
Proof.
  intros Hid Hg. unfold skeleton. simpl.
  by rewrite !map_alter_same.
Qed.

Lemma with_groups_alter_skeleton v i s :
  skeleton (with_groups (alter (set_gorder v) i (groups s)) s) = skeleton s.
Proof.
  unfold skeleton. simpl. by rewrite !map_alter_same.
Qed.

Lemma write_order_skeleton it v s : skeleton (write_order it v s) = skeleton s.
Proof.
  destruct it; simpl.
  - by apply with_blocks_alter_skeleton.
  - apply with_groups_alter_skeleton.
Qed.

Lemma swap_orders_skeleton a b s :
  skeleton (with_blocks (swap_orders a b (blocks s)) s) = skeleton s.
Proof.
  unfold swap_orders, skeleton. simpl. by rewrite !map_alter_same.
Qed.

Lemma moveItemUp_skeleton t i s : skeleton (state_of (moveItemUp t i s)) = skeleton s.
Proof.
  unfold moveItemUp. repeat case_match; simpl; try done.
  by rewrite !write_order_skeleton.
Qed.

Lemma moveItemDown_skeleton t i s : skeleton (state_of (moveItemDown t i s)) = skeleton s.
Proof.
  unfold moveItemDown. repeat case_match; simpl; try done.
  by rewrite !write_order_skeleton.
Qed.

Lemma moveBlockUp_skeleton i s : skeleton (state_of (moveBlockUp i s)) = skeleton s.
Proof.
  unfold moveBlockUp. repeat case_match; simpl;
    auto using swap_orders_skeleton, moveItemUp_skeleton.
Qed.

Lemma moveBlockDown_skeleton i s : skeleton (state_of (moveBlockDown i s)) = skeleton s.
Proof.
  unfold moveBlockDown. repeat case_match; simpl;
    auto using swap_orders_skeleton, moveItemDown_skeleton.
Qed.

Lemma handleBlockSelection_skeleton i c s :
  skeleton (state_of (handleBlockSelection i c s)) = skeleton s.
Proof.
  unfold handleBlockSelection. case_match; simpl; [done|].
  by apply with_blocks_alter_skeleton.
Qed.

(** ** Every handler keeps the state consistent *)

Lemma map_eq_Forall {A B} (f g : A -> B) (l : list A) :
  List.map f l = List.map g l <-> Forall (fun x => f x = g x) l.
Proof.
  induction l as [|x l IH]; simpl; [split; [constructor|done]|].
  rewrite Forall_cons, <- IH. split; [intros [= ? ?]; done|intros [-> ->]; done].
Qed.

Lemma group_id_inj (n m : nat) : "group_" +:+ pretty n = "group_" +:+ pretty m -> n = m.
Proof.
  intros H. injection H as H. change (pretty n = pretty m) in H.
  by apply (inj pretty) in H.
Qed.

Lemma map_delete_NoDup {V} k (m : list (string * V)) :
  NoDup (List.map fst m) -> NoDup (List.map fst (map_delete k m)).
Proof. apply NoDup_map_filter. Qed.

Lemma map_delete_gid k (m : list (string * Group)) :
  List.map (fun e => gid (snd e)) m = List.map fst m ->
  List.map (fun e => gid (snd e)) (map_delete k m) = List.map fst (map_delete k m).
Proof. rewrite !map_eq_Forall. apply Forall_List_filter. Qed.

Lemma join_pass_ids g k bs : List.map id (join_pass g k bs) = List.map id bs.
Proof.
  revert k. induction bs as [|b bs IH]; intros k; [done|].
  simpl. destruct (is_selectable b); simpl; by rewrite IH.
Qed.

Lemma join_pass_groupIds g k bs :
  Forall (fun go => go = Some g \/ go ∈ List.map groupId bs)
    (List.map groupId (join_pass g k bs)).
Proof.
  revert k. induction bs as [|b bs IH]; intros k; [constructor|].
  simpl. destruct (is_selectable b); simpl; constructor;
    try (by left); try (right; by left);
    (eapply Forall_impl; [apply IH|]; intros go [?|?]; [by left|right; by right]).
Qed.

Lemma groupSelectedBlocks_shape s :
  counter_fresh s ->
  groupSelectedBlocks s = Alerted alert_message s \/
  exists grp,
    gid grp = next_group_id s /\
    groupSelectedBlocks s =
      Returned (mkState (join_pass (next_group_id s) 0 (blocks s)) (variables s)
                  (groups s ++ [(next_group_id s, grp)]) (S (groupCounter s))).
Proof.
  intros Hfresh. unfold groupSelectedBlocks.
  destruct (_ <? 2)%nat; [by left|]. right.
  eexists. split; [|].
  2: { rewrite map_set_new by (apply map_has_false, Hfresh; lia).
       pose proof (join_all_pass (next_group_id s) 0 0 [] (blocks s) eq_refl) as Hj.
       simpl in Hj. unfold indexed, next_group_id in *. rewrite Hj. reflexivity. }
  done.
Qed.

Lemma addBlock_groups_inv t i s :
  groups_inv s -> groups_inv (state_of (addBlock t None i s)).
Proof.
  intros (Hnd & Hgid & Hfresh & Hdang). repeat split; try done.
  unfold no_dangling. simpl. rewrite map_app. apply Forall_app. split; [done|].
  by constructor.
Qed.

Lemma deleteBlock_groups_inv i s :
  groups_inv s -> groups_inv (state_of (deleteBlock i s)).
Proof.
  intros (Hnd & Hgid & Hfresh & Hdang). repeat split; try done.
  unfold no_dangling in *. simpl. apply Forall_List_map, Forall_List_filter.
  apply Forall_List_map in Hdang. exact Hdang.
Qed.

Lemma groupSelectedBlocks_groups_inv s :
  groups_inv s -> groups_inv (state_of (groupSelectedBlocks s)).
Proof.
  intros (Hnd & Hgid & Hfresh & Hdang).
  destruct (groupSelectedBlocks_shape s Hfresh) as [->|(grp & Hgrp & ->)]; [done|].
  assert (Hnew : next_group_id s ∉ group_keys s) by (apply Hfresh; lia).
  unfold groups_inv, counter_fresh, no_dangling, group_keys in *. simpl.
  rewrite !map_app. simpl. split; [|split; [|split]].
  - apply NoDup_app. split; [done|]. split; [|apply NoDup_singleton].
    intros x Hx ->%list_elem_of_singleton. done.
  - by rewrite Hgid, Hgrp.
  - intros n Hn. rewrite elem_of_app, list_elem_of_singleton.
    intros [Hin|Heq]; [by apply (Hfresh n); [lia|]|].
    apply group_id_inj in Heq. lia.
  - eapply Forall_impl; [apply join_pass_groupIds|]. simpl.
    intros go [->|Hgo] g Hg.
    + injection Hg as <-. apply elem_of_app. right. by left.
    + apply elem_of_app. left.
      by apply (proj1 (Forall_forall _ _) Hdang go).
Qed.

Lemma ungroupBlocks_groups_inv g s :
  groups_inv s -> groups_inv (state_of (ungroupBlocks g s)).
Proof.
  intros (Hnd & Hgid & Hfresh & Hdang).
  unfold groups_inv, counter_fresh, no_dangling, group_keys in *. simpl.
  split; [by apply map_delete_NoDup|]. split; [by apply map_delete_gid|]. split.
  - intros n Hn [Hin _]%map_delete_keys. by apply (Hfresh n).
  - apply Forall_List_map, Forall_List_map.
    apply Forall_List_map in Hdang.
    eapply Forall_impl; [exact Hdang|]. intros b Hb g' Hg'. simpl in *.
    destruct (groupId b) as [gb|] eqn:Hgb; simpl in Hg'; [|by rewrite Hgb in Hg'].
    destruct (String.eqb_spec gb g) as [->|Hne]; simpl in Hg'; [done|].
    rewrite Hgb in Hg'. injection Hg' as <-.
    apply map_delete_keys. split; [by apply Hb|done].
Qed.

Lemma deleteGroup_groups_inv g s :
  groups_inv s -> groups_inv (state_of (deleteGroup g s)).
Proof.
  intros (Hnd & Hgid & Hfresh & Hdang).
  unfold groups_inv, counter_fresh, no_dangling, group_keys in *. simpl.
  split; [by apply map_delete_NoDup|]. split; [by apply map_delete_gid|]. split.
  - intros n Hn [Hin _]%map_delete_keys. by apply (Hfresh n).
  - apply Forall_List_map. apply Forall_List_map in Hdang.
    apply Forall_forall. intros b [Hb Hp]%filter_elem_of g' Hg'.
    apply map_delete_keys. split.
    + by apply (proj1 (Forall_forall _ _) Hdang b).
    + intros ->. rewrite Hg' in Hp. simpl in Hp. by rewrite String.eqb_refl in Hp.
Qed.

Lemma handleDrop_blocks a b s :
  blocks (state_of (handleDrop a b s)) ≡ₚ blocks s /\
  groups (state_of (handleDrop a b s)) = groups s /\
  groupCounter (state_of (handleDrop a b s)) = groupCounter s.
Proof.
  unfold handleDrop. destruct (_ && _); [|done].
  destruct (at_index _ _) eqn:Hat; [|done]. simpl.
  split; [|done]. by apply splice_move_Permutation.
Qed.

Lemma handleGroupDrop_groups a b s :
  groups (state_of (handleGroupDrop a b s)) ≡ₚ groups s /\
  blocks (state_of (handleGroupDrop a b s)) = blocks s /\
  groupCounter (state_of (handleGroupDrop a b s)) = groupCounter s.
Proof.
  unfold handleGroupDrop. destruct (_ && _); [|done].
  destruct (_ && _); [|done].
  destruct (at_index _ _) eqn:Hat; [|done]. simpl.
  split; [|done]. by apply splice_move_Permutation.
Qed.

Lemma handleDrop_groups_inv a b s :
  groups_inv s -> groups_inv (state_of (handleDrop a b s)).
Proof.
  destruct (handleDrop_blocks a b s) as (Hb & Hg & Hc).
  unfold groups_inv, counter_fresh, no_dangling, group_keys.
  rewrite Hg, Hc. intros (Hnd & Hgid & Hfresh & Hdang). repeat split; try done.
  apply Forall_List_map. apply Forall_List_map in Hdang. by rewrite Hb.
Qed.

Lemma handleGroupDrop_groups_inv a b s :
  groups_inv s -> groups_inv (state_of (handleGroupDrop a b s)).
Proof.
  destruct (handleGroupDrop_groups a b s) as (Hg & Hb & Hc).
  unfold groups_inv, counter_fresh, no_dangling, group_keys.
  rewrite Hb, Hc. intros (Hnd & Hgid & Hfresh & Hdang).
  assert (Hkeys : List.map fst (groups (state_of (handleGroupDrop a b s)))
                  ≡ₚ List.map fst (groups s)) by (by apply Permutation_map).
  split; [by rewrite Hkeys|]. split; [|split].
  - apply map_eq_Forall. apply map_eq_Forall in Hgid. by rewrite Hg.
  - intros n Hn. rewrite Hkeys. by apply Hfresh.
  - eapply Forall_impl; [exact Hdang|]. intros go Hgo g' Hg'. rewrite Hkeys. by apply Hgo.
Qed.

Lemma step_groups_inv op s : groups_inv s -> groups_inv (state_of (step op s)).
Proof.
  destruct op; unfold step.
  - apply addBlock_groups_inv.
  - apply deleteBlock_groups_inv.
  - apply groups_inv_skeleton, moveBlockUp_skeleton.
  - apply groups_inv_skeleton, moveBlockDown_skeleton.
  - apply groups_inv_skeleton, moveItemUp_skeleton.
  - apply groups_inv_skeleton, moveItemDown_skeleton.
  - apply groups_inv_skeleton, handleBlockSelection_skeleton.
  - apply groupSelectedBlocks_groups_inv.
  - apply ungroupBlocks_groups_inv.
  - apply deleteGroup_groups_inv.
  - apply handleDrop_groups_inv.
  - apply handleGroupDrop_groups_inv.
Qed.

Lemma constructor_groups_inv : groups_inv constructor.
Proof.
  repeat split; try constructor. intros n _. apply not_elem_of_nil.
Qed.

Lemma run_groups_inv ops s : groups_inv s -> groups_inv (run ops s).
Proof.
  revert s. induction ops as [|op ops IH]; intros s Hs; [done|].
  simpl. by apply IH, step_groups_inv.
Qed.

(** In a session that starts from the empty document the id that
    [groupSelectedBlocks] mints next is never in use. *)
Lemma session_counter_fresh ops : counter_fresh (run ops constructor).
Proof. apply (run_groups_inv ops constructor constructor_groups_inv). Qed.

Lemma Permutation_NoDup_map {A B} (f : A -> B) (l l' : list A) :
  l ≡ₚ l' -> NoDup (List.map f l') -> NoDup (List.map f l).
Proof. intros Hp. by rewrite (Permutation_map f Hp). Qed.

Lemma step_ids_inv op s :
  ids_inv s ->
  match op with AddBlock _ blockId => blockId ∉ block_ids s | _ => True end ->
  ids_inv (state_of (step op s)).
Proof.
  intros Hs Hfresh. destruct op; unfold step.
  - unfold ids_inv, block_ids in *. simpl. rewrite map_app. simpl.
    apply NoDup_app. split; [done|]. split; [|apply NoDup_singleton].
    intros x Hx ->%list_elem_of_singleton. done.
  - by apply NoDup_map_filter.
  - eapply ids_inv_skeleton; [apply moveBlockUp_skeleton|done].
  - eapply ids_inv_skeleton; [apply moveBlockDown_skeleton|done].
  - eapply ids_inv_skeleton; [apply moveItemUp_skeleton|done].
  - eapply ids_inv_skeleton; [apply moveItemDown_skeleton|done].
  - eapply ids_inv_skeleton; [apply handleBlockSelection_skeleton|done].
  - unfold groupSelectedBlocks. destruct (_ <? 2)%nat; [done|].
    unfold ids_inv, block_ids. simpl.
    pose proof (join_all_pass ("group_" +:+ pretty (groupCounter s)) 0 0 [] (blocks s) eq_refl) as Hj.
    simpl in Hj. unfold indexed. rewrite Hj. by rewrite join_pass_ids.
  - unfold ids_inv, block_ids. simpl. rewrite List.map_map.
    erewrite map_ext; [exact Hs|]. intros b. simpl. by destruct (groupId_is _ _).
  - by apply NoDup_map_filter.
  - destruct (handleDrop_blocks draggedId targetId s) as (Hb & _).
    by apply (Permutation_NoDup_map id _ _ Hb).
  - destruct (handleGroupDrop_groups draggedGroupId targetGroupId s) as (_ & Hb & _).
    unfold ids_inv, block_ids. by rewrite Hb.
Qed.

Lemma existsb_eqb_false x (l : list string) :
  existsb (String.eqb x) l = false -> x ∉ l.
Proof.
  intros H Hin. apply list_elem_of_In in Hin.
  assert (existsb (String.eqb x) l = true); [|congruence].
  apply existsb_exists. exists x. split; [done|apply String.eqb_refl].
Qed.

Lemma run_ids_inv ops s : ids_inv s -> mints_fresh ops s = true -> ids_inv (run ops s).
Proof.
  revert s. induction ops as [|op ops IH]; intros s Hs Hfresh; [done|].
  simpl in *. apply andb_prop in Hfresh as [Hop Hops].
  apply IH; [|done]. apply step_ids_inv; [done|].
  destruct op; try done. apply existsb_eqb_false. by apply negb_true_iff.
Qed.

(** ** The top-level sequence *)

Lemma List_filter_Permutation {A} (p : A -> bool) (l l' : list A) :
  l ≡ₚ l' -> List.filter p l ≡ₚ List.filter p l'.
Proof.
  induction 1 as [|x l l' _ IH|x y l|l l' l'' _ IH1 _ IH2]; simpl.
  - done.
  - destruct (p x); by rewrite IH.
  - destruct (p x), (p y); try done. apply Permutation_swap.
  - by rewrite IH1.
Qed.

Lemma item_ids_Permutation t l l' : l ≡ₚ l' -> item_ids t l ≡ₚ item_ids t l'.
Proof. intros Hp. unfold item_ids. by apply Permutation_map, List_filter_Permutation. Qed.

Lemma item_ids_app t l l' : item_ids t (l ++ l') = item_ids t l ++ item_ids t l'.
Proof. unfold item_ids. by rewrite List.filter_app, map_app. Qed.

Lemma ungrouped_items_ids bs :
  item_ids block_ (ungrouped_items bs) =
    List.map id (List.filter (fun b => negb (truthy_groupId (groupId b))) bs) /\
  item_ids group_ (ungrouped_items bs) = [].
Proof.
  unfold ungrouped_items, item_ids, indexed.
  rewrite <- (filter_indexed_snd (fun b => negb (truthy_groupId (groupId b))) 0 bs).
  generalize (List.filter (fun pb : nat * Block => negb (truthy_groupId (groupId (snd pb))))
                (indexed_from 0 bs)).
  intros l. induction l as [|pb l [IH1 IH2]]; simpl; [done|]. by rewrite IH1, IH2.
Qed.

Lemma group_items_ids bs gs n :
  item_ids block_
    (flat_map (fun e => let '(pos, (groupId_, group)) := e in
                 if (0 <? length (group_members bs groupId_))%nat
                 then [GroupItem pos group (group_members bs groupId_) (or_zero (gorder group))]
                 else []) (indexed_from n gs)) = [] /\
  item_ids group_
    (flat_map (fun e => let '(pos, (groupId_, group)) := e in
                 if (0 <? length (group_members bs groupId_))%nat
                 then [GroupItem pos group (group_members bs groupId_) (or_zero (gorder group))]
                 else []) (indexed_from n gs))
  = List.map (fun e => gid (snd e))
      (List.filter (fun e => (0 <? length (group_members bs (fst e)))%nat) gs).
Proof.
  revert n. induction gs as [|[k g] gs IH]; intros n; [done|].
  rewrite indexed_from_cons. cbn [flat_map]. rewrite !item_ids_app.
  destruct (IH (S n)) as [IH1 IH2]. rewrite IH1, IH2. simpl.
  destruct (0 <? length (group_members bs k))%nat; done.
Qed.

Lemma top_level_ids s :
  item_ids block_ (getAllOrderedItems s) ≡ₚ
    List.map id (List.filter (fun b => negb (truthy_groupId (groupId b))) (blocks s)) /\
  item_ids group_ (getAllOrderedItems s) ≡ₚ
    List.map (fun e => gid (snd e))
      (List.filter (fun e => (0 <? length (group_members (blocks s) (fst e)))%nat) (groups s)).
Proof.
  unfold getAllOrderedItems.
  destruct (ungrouped_items_ids (blocks s)) as [Hu1 Hu2].
  destruct (group_items_ids (blocks s) (groups s) 0) as [Hg1 Hg2].
  split; rewrite (item_ids_Permutation _ _ _ (sort_by_Permutation _ _)), item_ids_app.
  - rewrite Hu1. unfold group_items, indexed. rewrite Hg1. by rewrite app_nil_r.
  - rewrite Hu2. unfold group_items, indexed. by rewrite Hg2.
Qed.

Lemma group_members_count s g : length (group_members (blocks s) g) = member_count s g.
Proof.
  unfold group_members, member_count, indexed.
  apply (filter_indexed_length (fun b => groupId_is (groupId b) g)).
Qed.

Lemma group_item_has_members s it :
  List.map (fun e => gid (snd e)) (groups s) = group_keys s ->
  it ∈ getAllOrderedItems s -> item_type it = group_ ->
  member_count s (item_id it) <> 0%nat.
Proof.
  intros Hgid Hin Hty. unfold getAllOrderedItems in Hin.
  rewrite sort_by_Permutation in Hin. apply elem_of_app in Hin as [Hin|Hin].
  - unfold ungrouped_items in Hin. apply map_elem_of in Hin as (pb & <- & _). done.
  - unfold group_items in Hin. apply list_elem_of_In, in_flat_map in Hin.
    destruct Hin as ([pos [k g]] & Hpos & Hin). apply list_elem_of_In in Hpos.
    apply indexed_lookup in Hpos.
    destruct (Nat.ltb_spec 0 (length (group_members (blocks s) k))) as [Hlt|]; [|by destruct Hin].
    destruct Hin as [<-|[]]. simpl.
    apply map_eq_Forall in Hgid.
    pose proof (proj1 (Forall_lookup _ _) Hgid pos (k, g) Hpos) as Hk. simpl in Hk.
    rewrite Hk, <- group_members_count. lia.
Qed.

(** C1: in every state reached from the empty document by creating,
    deleting, moving, selecting, grouping, ungrouping and dragging blocks
    and groups, when every minted block id is new among the existing
    blocks, [getAllOrderedItems()] holds no block id twice, no group id
    twice, and no group without a block that has its [groupId]. *)
Theorem top_level_sequence_invariant (ops : list Op) :
  mints_fresh ops constructor = true ->
  let s := run ops constructor in
  NoDup (item_ids block_ (getAllOrderedItems s)) /\
  NoDup (item_ids group_ (getAllOrderedItems s)) /\
  forall it, it ∈ getAllOrderedItems s -> item_type it = group_ ->
    member_count s (item_id it) <> 0%nat.
Proof.
  intros Hfresh s.
  assert (Hids : ids_inv s).
  { apply run_ids_inv; [apply NoDup_nil_2|done]. }
  destruct (run_groups_inv ops constructor constructor_groups_inv) as (Hkeys & Hgid & _ & _).
  fold s in Hkeys, Hgid.
  destruct (top_level_ids s) as [Hb Hg]. split; [|split].
  - rewrite Hb. by apply NoDup_map_filter.
  - rewrite Hg. apply NoDup_map_filter. by rewrite Hgid.
  - intros it. by apply group_item_has_members.
Qed.

Lemma top_level_sequence_invariant_witness :
  mints_fresh emptied_group_session constructor = true /\
  group_keys emptied_group = ["group_0"] /\
  NoDup (item_ids block_ (getAllOrderedItems emptied_group)) /\
  NoDup (item_ids group_ (getAllOrderedItems emptied_group)) /\
  forall it, it ∈ getAllOrderedItems emptied_group -> item_type it = group_ ->
    member_count emptied_group (item_id it) <> 0%nat.
Proof.
  assert (H : mints_fresh emptied_group_session constructor = true) by reflexivity.
  split; [exact H|]. split; [reflexivity|].
  exact (top_level_sequence_invariant emptied_group_session H).
Defined.

Lemma List_filter_all_false {A} (p : A -> bool) (l : list A) :
  (forall x, x ∈ l -> p x = false) -> List.filter p l = [].
Proof.
  induction l as [|x l IH]; intros H; [done|]. simpl.
  rewrite (H x) by (by left). apply IH. intros y Hy. apply H. by right.
Qed.
(** ** Operations on an id that names nothing *)

Lemma find_unknown_id i (bs : list Block) :
  i ∉ List.map id bs -> List.find (has_id i) bs = None.
Proof.
  intros Hi. destruct (List.find (has_id i) bs) as [b|] eqn:Hf; [|done].
  apply find_some in Hf as [Hin Hb]. exfalso. apply Hi.
  apply map_elem_of. exists b. split; [|by apply list_elem_of_In].
  unfold has_id in Hb. by apply String.eqb_eq.
Qed.

Lemma List_filter_all {A} (p : A -> bool) (l : list A) :
  (forall x, x ∈ l -> p x = true) -> List.filter p l = l.
Proof.
  induction l as [|x l IH]; intros H; [done|]. simpl.
  rewrite (H x) by (by left). f_equal. apply IH. intros y Hy. apply H. by right.
Qed.

Lemma with_blocks_same s : with_blocks (blocks s) s = s.
Proof. by destruct s. Qed.

Lemma member_count_zero s i b :
  member_count s i = 0%nat -> b ∈ blocks s -> groupId_is (groupId b) i = false.
Proof.
  unfold member_count. intros Hc Hb.
  destruct (groupId_is (groupId b) i) eqn:Hg; [|done].
  assert (Hin : b ∈ List.filter (fun b => groupId_is (groupId b) i) (blocks s))
    by (by apply filter_elem_of).
  destruct (List.filter _ _); [by apply elem_of_nil in Hin|done].
Qed.

Lemma unknown_group_has_no_member s i :
  groups_inv s -> i ∉ group_keys s -> member_count s i = 0%nat.
Proof.
  intros (_ & _ & _ & Hdang) Hi. unfold member_count.
  rewrite List_filter_all_false; [done|].
  intros b Hb. destruct (groupId b) as [g|] eqn:Hg; simpl; [|done].
  destruct (String.eqb_spec g i) as [->|]; [|done]. exfalso. apply Hi.
  unfold no_dangling in Hdang. apply Forall_List_map in Hdang.
  by apply (proj1 (Forall_forall _ _) Hdang b).
Qed.

(** Where a group item comes from. *)
Lemma group_item_origin s it :
  it ∈ getAllOrderedItems s -> item_type it = group_ ->
  exists pos k g,
    groups s !! pos = Some (k, g) /\ item_id it = gid g /\
    (0 < length (group_members (blocks s) k))%nat.
Proof.
  intros Hin Hty. unfold getAllOrderedItems in Hin.
  rewrite sort_by_Permutation in Hin. apply elem_of_app in Hin as [Hin|Hin].
  - unfold ungrouped_items in Hin. apply map_elem_of in Hin as (pb & <- & _). done.
  - unfold group_items in Hin. apply list_elem_of_In, in_flat_map in Hin.
    destruct Hin as ([pos [k g]] & Hpos & Hin). apply list_elem_of_In in Hpos.
    apply indexed_lookup in Hpos.
    destruct (Nat.ltb_spec 0 (length (group_members (blocks s) k))) as [Hlt|]; [|by destruct Hin].
    destruct Hin as [<-|[]]. exists pos, k, g. done.
Qed.

Lemma no_group_item s i :
  groups_inv s -> member_count s i = 0%nat ->
  List.find (is_item group_ i) (getAllOrderedItems s) = None.
Proof.
  intros (_ & Hgid & _ & _) Hc.
  destruct (List.find _ _) as [it|] eqn:Hf; [|done]. exfalso.
  apply find_some in Hf as [Hin Hit]. apply list_elem_of_In in Hin.
  unfold is_item in Hit. apply andb_prop in Hit as [Hty Hid].
  assert (Hty' : item_type it = group_) by (by destruct (item_type it)).
  destruct (group_item_origin s it Hin Hty') as (pos & k & g & Hpos & Hitem & Hlen).
  apply map_eq_Forall in Hgid.
  pose proof (proj1 (Forall_lookup _ _) Hgid pos (k, g) Hpos) as Hk. simpl in Hk.
  apply String.eqb_eq in Hid. rewrite group_members_count in Hlen.
  assert (k = i) as -> by congruence. lia.
Qed.

Lemma moveItemUp_not_found t i s :
  List.find (is_item t i) (getAllOrderedItems s) = None -> moveItemUp t i s = Returned s.
Proof. intros Hf. unfold moveItemUp. by rewrite (findIndex_not_found _ _ Hf). Qed.

(** [moveItemDown] on an id that is not in the sequence: [-1] passes the
    guard whenever the sequence is not empty, and [allItems[-1].order]
    throws. *)
Lemma moveItemDown_not_found t i s :
  List.find (is_item t i) (getAllOrderedItems s) = None ->
  moveItemDown t i s =
    if (0 <? length (getAllOrderedItems s))%nat then Threw s else Returned s.
Proof.
  intros Hf. unfold moveItemDown. rewrite (findIndex_not_found _ _ Hf).
  destruct (getAllOrderedItems s) as [|it items]; [done|].
  simpl length. destruct (Z.ltb_spec (-1) (Z.of_nat (S (length items)) - 1)); [done|lia].
Qed.

Lemma map_delete_unknown {V} k (m : list (string * V)) :
  k ∉ List.map fst m -> map_delete k m = m.
Proof.
  intros Hk. apply List_filter_all. intros [k' v] Hin. simpl.
  destruct (String.eqb_spec k' k) as [->|]; [|done]. exfalso. apply Hk.
  apply map_elem_of. by exists (k, v).
Qed.

Lemma deleteGroup_memberless i s :
  member_count s i = 0%nat ->
  deleteGroup i s = Returned (with_groups (map_delete i (groups s)) s).
Proof.
  intros Hc. unfold deleteGroup, with_groups. do 2 f_equal.
  apply List_filter_all. intros b Hb. by rewrite (member_count_zero s i b Hc Hb).
Qed.

Lemma ungroupBlocks_memberless i s :
  member_count s i = 0%nat ->
  ungroupBlocks i s = Returned (with_groups (map_delete i (groups s)) s).
Proof.
  intros Hc. unfold ungroupBlocks, with_groups. do 2 f_equal.
  rewrite <- (map_id (blocks s)) at 2. apply map_ext_in. intros b Hb.
  apply list_elem_of_In in Hb. by rewrite (member_count_zero s i b Hc Hb).
Qed.

Lemma with_groups_same s : with_groups (groups s) s = s.
Proof. by destruct s. Qed.

(** ** The preview at the end of a handler *)

Lemma evaluate_fold_defined vars' r :
  keys_compile vars' = true ->
  exists r', fold_left evaluate_step vars' (Some r) = Some r'.
Proof.
  revert r. induction vars' as [|v vars' IH]; intros r Hk; [by eauto|].
  simpl in Hk. apply andb_prop in Hk as [Hv Hk]. cbn [fold_left].
  unfold evaluate_step at 2. cbn [mbind option_bind].
  destruct (String.eqb (key v) "") eqn:Hkey; simpl.
  - by apply IH.
  - destruct (includes (value v) "{{"); simpl; [by apply IH|].
    destruct (compile (key_pattern (key v))); [|done]. simpl. by apply IH.
Qed.

Lemma evaluateExpression_defined js vars e :
  keys_compile vars = true -> exists r, evaluateExpression js vars e = Some r.
Proof.
  intros Hk. unfold evaluateExpression.
  destruct (evaluate_fold_defined vars e Hk) as [r ->]. cbn [mbind option_bind].
  destruct (test_arith _); [|by eauto]. destruct (js _); eauto.
Qed.

Lemma substitute_fold_defined js vars vars' r :
  keys_compile vars = true -> keys_compile vars' = true ->
  exists r', fold_left (substitute_step js vars) vars' (Some r) = Some r'.
Proof.
  intros Hvars. revert r. induction vars' as [|v vars' IH]; intros r Hk; [by eauto|].
  simpl in Hk. apply andb_prop in Hk as [Hv Hk]. cbn [fold_left].
  unfold substitute_step at 2. cbn [mbind option_bind].
  destruct (String.eqb (key v) "") eqn:Hkey; simpl; [by apply IH|].
  simpl in Hv. destruct (compile (key_pattern (key v))) as [atoms|]; [|done].
  cbn [mbind option_bind].
  destruct (_ && _).
  - destruct (evaluateExpression_defined js vars (value v) Hvars) as [w ->].
    cbn [mbind option_bind]. by apply IH.
  - cbn [mbind option_bind]. by apply IH.
Qed.

Lemma emit_blocks_defined js vars bs m :
  keys_compile vars = true -> Forall (fun b => typed_block b = true) bs ->
  exists m', fold_left (emit_block js vars) bs (Some m) = Some m'.
Proof.
  intros Hk Hbs. revert m. induction Hbs as [|b bs Hb Hbs IH]; intros m; [by eauto|].
  cbn [fold_left]. unfold emit_block at 2. cbn [mbind option_bind].
  unfold typed_block in Hb. destruct (block_text b) as [c|]; [|done].
  cbn [mbind option_bind].
  destruct (substitute_fold_defined js vars vars c Hk Hk) as [r Hr].
  unfold substituteVariables. rewrite Hr. cbn [mbind option_bind]. apply IH.
Qed.

Lemma item_blocks_origin s it b :
  it ∈ getAllOrderedItems s -> b ∈ item_blocks it -> b ∈ blocks s.
Proof.
  unfold getAllOrderedItems. rewrite sort_by_Permutation.
  intros [Hin|Hin]%elem_of_app Hb.
  - unfold ungrouped_items in Hin.
    apply map_elem_of in Hin as ([p b'] & <- & [Hin _]%filter_elem_of).
    simpl in Hb. apply list_elem_of_singleton in Hb as ->.
    apply indexed_lookup in Hin. by eapply list_elem_of_lookup_2.
  - unfold group_items in Hin. apply list_elem_of_In, in_flat_map in Hin.
    destruct Hin as ([pos [k g]] & _ & Hin).
    destruct (0 <? _)%nat; [|done]. destruct Hin as [<-|[]]. simpl in Hb.
    apply map_elem_of in Hb as ([p b'] & <- & Hm).
    unfold group_members in Hm. apply filter_elem_of in Hm as [Hm _].
    apply indexed_lookup in Hm. simpl. by eapply list_elem_of_lookup_2.
Qed.

Lemma emit_items_defined js vars items m :
  keys_compile vars = true ->
  Forall (fun it => Forall (fun b => typed_block b = true) (item_blocks it)) items ->
  exists m', fold_left (emit_item js vars) items (Some m) = Some m'.
Proof.
  intros Hk Hits. revert m. induction Hits as [|it items Hit Hits IH]; intros m; [by eauto|].
  cbn [fold_left].
  assert (exists m1, emit_item js vars (Some m) it = Some m1) as [m1 ->]; [|apply IH].
  destruct it as [pos b o|pos g members o]; simpl in *.
  - apply (emit_blocks_defined js vars [b] m Hk Hit).
  - apply emit_blocks_defined; [done|].
    apply Forall_forall. intros b (pb & <- & Hpb)%map_elem_of.
    rewrite sort_by_Permutation in Hpb.
    apply (proj1 (Forall_forall _ _) Hit). apply map_elem_of. eauto.
Qed.

Lemma generateMarkdown_defined js s :
  previews s = true -> exists m, generateMarkdown js s = Some m.
Proof.
  intros [Hk Hb]%andb_prop. unfold generateMarkdown.
  destruct (emit_items_defined js (vars_of s) (getAllOrderedItems s) "" Hk) as [m ->];
    [|by eauto].
  apply Forall_forall. intros it Hit. apply Forall_forall. intros b Hin.
  apply (proj1 (forallb_forall _ _) Hb), list_elem_of_In.
  by apply (item_blocks_origin s it).
Qed.

Lemma updatePreview_returns js s :
  previews s = true -> Handler.updatePreview js s = Some (Returned s).
Proof.
  intros H. unfold Handler.updatePreview.
  by destruct (generateMarkdown_defined js s H) as [m ->].
Qed.

(** Without an item on the page [generateMarkdown] builds no pattern. *)
Lemma updatePreview_empty_page js s :
  getAllOrderedItems s = [] -> Handler.updatePreview js s = Some (Returned s).
Proof. intros H. unfold Handler.updatePreview, generateMarkdown. by rewrite H. Qed.

Lemma typed_kept (bs bs' : list Block) :
  (forall b', b' ∈ bs' -> exists b, b ∈ bs /\ block_text b' = block_text b) ->
  forallb typed_block bs = true -> forallb typed_block bs' = true.
Proof.
  intros Hsub Hbs. apply forallb_forall. intros b' Hb'. apply list_elem_of_In in Hb'.
  destruct (Hsub b' Hb') as (b & Hb & Heq). unfold typed_block. rewrite Heq.
  apply list_elem_of_In in Hb. exact (proj1 (forallb_forall _ _) Hbs b Hb).
Qed.

Lemma previews_kept s s' :
  variables s' = variables s ->
  (forall b', b' ∈ blocks s' -> exists b, b ∈ blocks s /\ block_text b' = block_text b) ->
  previews s = true -> previews s' = true.
Proof.
  intros Hv Hsub [Hk Hb]%andb_prop. unfold previews, vars_of in *. rewrite Hv, Hk.
  by apply (typed_kept (blocks s)).
Qed.

Lemma previews_without_orders s s' :
  without_orders s' = without_orders s -> previews s = true -> previews s' = true.
Proof.
  intros Heq. apply previews_kept.
  - by injection Heq as _ -> _ _.
  - intros b' Hb'. injection Heq as Hbs _ _ _.
    assert (Hin : set_order None b' ∈ List.map (set_order None) (blocks s)).
    { rewrite <- Hbs. apply map_elem_of. eauto. }
    apply map_elem_of in Hin as (b & Hb & Hin). exists b. split; [done|].
    unfold block_text. by injection Hb as _ -> -> _ _.
Qed.

Lemma deleteBlock_unknown_id i s : i ∉ block_ids s -> deleteBlock i s = Returned s.
Proof.
  intros Hblock. unfold deleteBlock. rewrite List_filter_all; [by rewrite with_blocks_same|].
  intros b Hb. unfold has_id. destruct (String.eqb_spec (id b) i) as [<-|]; [|done].
  exfalso. apply Hblock. apply map_elem_of. eauto.
Qed.

Lemma groupSelectedBlocks_alerts s :
  (length (selection s) < 2)%nat -> groupSelectedBlocks s = Alerted alert_message s.
Proof.
  intros Hsel. unfold groupSelectedBlocks, indexed.
  rewrite (filter_indexed_length is_selectable). fold (selection s).
  by destruct (Nat.ltb_spec (length (selection s)) 2); [|lia].
Qed.

(** C2, as the claim states it, fails by design for the id of a group
    without members: the group is still in the groups map, and
    [deleteGroup] and [ungroupBlocks] remove it. *)
Lemma deleteGroup_removes_memberless_group :
  member_count emptied_group "group_0" = 0%nat /\
  group_keys emptied_group = ["group_0"] /\
  group_keys (state_of (deleteGroup "group_0" emptied_group)) = [] /\
  group_keys (state_of (ungroupBlocks "group_0" emptied_group)) = [].
Proof. repeat split. Qed.

(** C2 (amended): in a consistent state, take an id that is not the id of a
    block and is not a key of the groups map or is the key of a group
    without members.  [moveBlockUp], [moveBlockDown] and the four table
    mutators return at once with the state unchanged.  [moveGroupUp] and
    [deleteBlock] leave the state unchanged, and [deleteGroup] and
    [ungroupBlocks] remove the key from the groups map and change nothing
    else, which is no change when the id is not a key; these four then
    make their final calls, and return without an error when the preview
    is within the embedding (every key that is not empty a covered pattern,
    every block holding what its type says).  [groupSelectedBlocks] with
    fewer than two blocks to group shows its alert and leaves the state
    unchanged. *)
Theorem unknown_id_is_a_no_op
    (js_eval : string -> option string) (s : State) (i : string) :
  groups_inv s ->
  i ∉ block_ids s ->
  (i ∉ group_keys s) \/ member_count s i = 0%nat ->
  (Handler.moveBlockUp js_eval i s = Some (Returned s) /\
   Handler.moveBlockDown js_eval i s = Some (Returned s) /\
   Handler.addTableRow js_eval i s = Some (Returned s) /\
   Handler.addTableColumn js_eval i s = Some (Returned s) /\
   (forall k, Handler.deleteTableRow js_eval i k s = Some (Returned s)) /\
   (forall k, Handler.deleteTableColumn js_eval i k s = Some (Returned s))) /\
  (moveGroupUp i s = Returned s /\
   deleteBlock i s = Returned s /\
   deleteGroup i s = Returned (with_groups (map_delete i (groups s)) s) /\
   ungroupBlocks i s = Returned (with_groups (map_delete i (groups s)) s) /\
   (i ∉ group_keys s -> with_groups (map_delete i (groups s)) s = s)) /\
  (previews s = true ->
   Handler.moveGroupUp js_eval i s = Some (Returned s) /\
   Handler.deleteBlock js_eval i s = Some (Returned s) /\
   Handler.deleteGroup js_eval i s =
     Some (Returned (with_groups (map_delete i (groups s)) s)) /\
   Handler.ungroupBlocks js_eval i s =
     Some (Returned (with_groups (map_delete i (groups s)) s))) /\
  ((length (selection s) < 2)%nat ->
   Handler.groupSelectedBlocks js_eval s = Some (Alerted alert_message s)).
Proof.
  intros Hinv Hblock Hgroup.
  assert (Hc : member_count s i = 0%nat).
  { destruct Hgroup; [by apply unknown_group_has_no_member|done]. }
  pose proof (find_unknown_id i (blocks s) Hblock) as Hfind.
  assert (Hgup : moveGroupUp i s = Returned s).
  { apply moveItemUp_not_found. by apply no_group_item. }
  pose proof (deleteBlock_unknown_id i s Hblock) as Hdel.
  pose proof (deleteGroup_memberless i s Hc) as Hdg.
  pose proof (ungroupBlocks_memberless i s Hc) as Hug.
  split; [|split; [|split]].
  - unfold Handler.moveBlockUp, Handler.moveBlockDown, Handler.addTableRow,
      Handler.addTableColumn, Handler.deleteTableRow, Handler.deleteTableColumn,
      Handler.on_table.
    by rewrite Hfind.
  - repeat split; try done.
    intros Hkey. by rewrite map_delete_unknown, with_groups_same.
  - intros Hprev.
    unfold Handler.moveGroupUp, Handler.deleteBlock, Handler.deleteGroup,
      Handler.ungroupBlocks.
    rewrite Hgup, Hdel, Hdg, Hug. unfold Handler.finish.
    rewrite !updatePreview_returns; done.
  - intros Hsel. unfold Handler.groupSelectedBlocks.
    by rewrite groupSelectedBlocks_alerts.
Qed.

Lemma unknown_id_is_a_no_op_witness :
  groups_inv priced_emptied_group /\ ("group_0" ∉ block_ids priced_emptied_group) /\
  member_count priced_emptied_group "group_0" = 0%nat /\
  previews priced_emptied_group = true /\
  Handler.moveBlockUp eval_binary64 "group_0" priced_emptied_group =
    Some (Returned priced_emptied_group) /\
  Handler.moveGroupUp eval_binary64 "group_0" priced_emptied_group =
    Some (Returned priced_emptied_group) /\
  Handler.deleteBlock eval_binary64 "group_0" priced_emptied_group =
    Some (Returned priced_emptied_group).
Proof.
  assert (Hinv : groups_inv priced_emptied_group).
  { apply (groups_inv_skeleton emptied_group); [reflexivity|].
    apply (run_groups_inv emptied_group_session constructor constructor_groups_inv). }
  assert (Hblock : "group_0" ∉ block_ids priced_emptied_group)
    by (apply (bool_decide_unpack _); by vm_compute).
  assert (Hc : member_count priced_emptied_group "group_0" = 0%nat) by reflexivity.
  assert (Hp : previews priced_emptied_group = true) by reflexivity.
  split; [exact Hinv|]. split; [exact Hblock|]. split; [exact Hc|]. split; [exact Hp|].
  destruct (unknown_id_is_a_no_op eval_binary64 priced_emptied_group "group_0"
              Hinv Hblock (or_intror Hc))
    as ((Hup & _) & _ & Hfinal & _).
  destruct (Hfinal Hp) as (Hgup & Hdel & _).
  split; [exact Hup|]. split; [exact Hgup|exact Hdel].
Defined.

(** The same call to [moveGroupDown] does not return: with an id that is
    not in the top-level sequence, and a sequence that is not empty, it
    throws a [TypeError]; the state is as it was. *)
Lemma moveGroupDown_unknown_id_throws (s : State) (i : string) :
  groups_inv s -> (i ∉ group_keys s) \/ member_count s i = 0%nat ->
  moveGroupDown i s = if (0 <? top_level_count s)%nat then Threw s else Returned s.
Proof.
  intros Hinv Hgroup.
  assert (Hc : member_count s i = 0%nat).
  { destruct Hgroup; [by apply unknown_group_has_no_member|done]. }
  apply moveItemDown_not_found. by apply no_group_item.
Qed.

Lemma moveGroupDown_throws_example :
  moveGroupDown "nope" three_blocks = Threw three_blocks /\
  moveGroupUp "nope" three_blocks = Returned three_blocks /\
  moveGroupDown "group_0" emptied_group = Threw emptied_group.
Proof. repeat split. Qed.

(** ** Strings, lines and [trim] *)

Lemma append_cons a (s t : string) : String a s +:+ t = String a (s +:+ t).
Proof. reflexivity. Qed.

Lemma append_nil (t : string) : "" +:+ t = t.
Proof. reflexivity. Qed.

Ltac simpl_append := rewrite ?append_cons, ?append_nil.

Lemma app_nil_r_s (s : string) : s +:+ "" = s.
Proof. induction s as [|a s IH]; simpl_append; [done|]. by rewrite IH. Qed.

Lemma app_assoc_s (a b c : string) : (a +:+ b) +:+ c = a +:+ b +:+ c.
Proof. induction a as [|x a IH]; simpl_append; [done|]. by rewrite IH. Qed.

Lemma split_lines_from_cons cur s :
  exists l ls, split_lines_from cur s = l :: ls.
Proof.
  revert cur. induction s as [|a s IH]; intros cur; simpl; [by eauto|].
  destruct (Ascii.eqb a LF); [by eauto|apply IH].
Qed.

Lemma split_lines_from_prefix cur s :
  split_lines_from cur s =
    match split_lines s with
    | l :: ls => (cur +:+ l) :: ls
    | [] => []
    end.
Proof.
  unfold split_lines. revert cur. induction s as [|a s IH]; intros cur; simpl.
  - by rewrite app_nil_r_s.
  - destruct (Ascii.eqb a LF); [by rewrite app_nil_r_s|].
    rewrite (IH (cur +:+ String a "")), (IH ("" +:+ String a "")).
    destruct (split_lines_from "" s); [done|]. by rewrite app_assoc_s.
Qed.

Lemma split_lines_from_app cur a b :
  split_lines_from cur (a +:+ nl +:+ b) = split_lines_from cur a ++ split_lines b.
Proof.
  unfold split_lines, nl. revert cur.
  induction a as [|x a IH]; intros cur; simpl_append; simpl; [done|].
  destruct (Ascii.eqb x LF); simpl; [by rewrite IH|apply IH].
Qed.

Lemma split_lines_app a b :
  split_lines (a +:+ nl +:+ b) = split_lines a ++ split_lines b.
Proof. apply split_lines_from_app. Qed.

Lemma split_lines_nl b : split_lines (nl +:+ b) = "" :: split_lines b.
Proof. done. Qed.

Lemma add_line_prefix p acc ls :
  fold_left add_line ls (p +:+ acc) = p +:+ fold_left add_line ls acc.
Proof.
  revert acc. induction ls as [|l ls IH]; intros acc; simpl; [done|].
  unfold add_line at 2 4. by rewrite <- IH, app_assoc_s.
Qed.

Lemma join_split_from cur s l ls :
  split_lines_from cur s = l :: ls -> fold_left add_line ls l = cur +:+ s.
Proof.
  revert cur l ls. induction s as [|a s IH]; intros cur l ls; simpl.
  - intros [= <- <-]. simpl. by rewrite app_nil_r_s.
  - destruct (Ascii.eqb_spec a LF) as [->|Hne].
    + intros [= <- <-].
      destruct (split_lines_from_cons "" s) as (l2 & ls2 & Hs). rewrite Hs. simpl.
      unfold add_line at 2.
      rewrite add_line_prefix.
      rewrite (add_line_prefix nl l2 ls2).
      by rewrite (IH "" l2 ls2 Hs).
    + intros Hs. rewrite (IH _ _ _ Hs). by rewrite app_assoc_s.
Qed.

Lemma join_split c l ls : split_lines c = l :: ls -> fold_left add_line ls l = c.
Proof. intros H. by rewrite (join_split_from "" c l ls H). Qed.

Lemma trimStart_clean s : starts_clean s = true -> trimStart s = s.
Proof. destruct s as [|a s]; [done|]. simpl. by intros ->%negb_true_iff. Qed.

Lemma starts_clean_app s t : starts_clean s = true -> starts_clean (s +:+ t) = true.
Proof. destruct s as [|a s]; [done|]. by simpl_append. Qed.

Lemma trimEnd_spaces w : all_chars is_space w = true -> trimEnd w = "".
Proof.
  induction w as [|a w IH]; [done|]. simpl.
  intros [Ha Hw]%andb_prop. by rewrite (IH Hw), Ha.
Qed.

Lemma ends_clean_nonempty s : ends_clean s = true -> s <> "".
Proof. by destruct s. Qed.

Lemma trimEnd_app_spaces s w :
  ends_clean s = true -> all_chars is_space w = true -> trimEnd (s +:+ w) = s.
Proof.
  intros Hs Hw. induction s as [|a s IH]; [done|].
  simpl_append. simpl. destruct s as [|b s].
  - simpl_append. rewrite (trimEnd_spaces w Hw).
    simpl in Hs. apply negb_true_iff in Hs. by rewrite Hs.
  - rewrite IH by done. done.
Qed.

Lemma ends_clean_app s t : ends_clean t = true -> ends_clean (s +:+ t) = true.
Proof.
  intros Ht. induction s as [|a s IH]; [done|].
  simpl_append. remember (s +:+ t) as u eqn:Hu.
  destruct u as [|b u]; [done|exact IH].
Qed.

(** ** Import, line by line *)

Lemma startsWith_cons b s a p :
  startsWith (String b s) (String a p) = Ascii.eqb a b && startsWith s p.
Proof. done. Qed.

Lemma first_char_differs l a b p q :
  a <> b -> startsWith l (String a p) = true -> startsWith l (String b q) = false.
Proof.
  intros Hab. destruct l as [|c l]; [done|]. rewrite !startsWith_cons.
  destruct (Ascii.eqb_spec a c) as [<-|]; [|done]. intros _.
  by destruct (Ascii.eqb_spec b a) as [->|].
Qed.

Lemma fence_not_heading l : fence_line l = true -> heading_line l = false.
Proof. by apply first_char_differs. Qed.

Lemma list_not_heading l : list_line l = true -> heading_line l = false.
Proof.
  unfold list_line. intros [H|H]%orb_prop; revert H; by apply first_char_differs.
Qed.

Lemma list_not_fence l : list_line l = true -> fence_line l = false.
Proof.
  unfold list_line. intros [H|H]%orb_prop; revert H; by apply first_char_differs.
Qed.

Lemma plain_line_spec l :
  plain_line l = true ->
  heading_line l = false /\ fence_line l = false /\ list_line l = false /\
  blank_line l = false.
Proof.
  unfold plain_line. rewrite !andb_true_iff, !negb_true_iff. tauto.
Qed.

Lemma import_heading ids bs cur l :
  heading_line l = true ->
  import_line ids (bs, cur) l = (finishCurrentBlock ids cur bs, Some (Heading, l)).
Proof. unfold import_line, heading_line. by intros ->. Qed.

Lemma import_fence_open ids bs cur l :
  fence_line l = true -> draft_is Code cur = false ->
  import_line ids (bs, cur) l = (finishCurrentBlock ids cur bs, Some (Code, l)).
Proof.
  intros Hf Hc. pose proof (fence_not_heading l Hf) as Hh.
  unfold import_line, heading_line, fence_line in *. by rewrite Hh, Hf, Hc.
Qed.

Lemma import_fence_close ids bs acc l :
  fence_line l = true ->
  import_line ids (bs, Some (Code, acc)) l =
    (finishCurrentBlock ids (Some (Code, add_line acc l)) bs, None).
Proof.
  intros Hf. pose proof (fence_not_heading l Hf) as Hh.
  unfold import_line, heading_line, fence_line in *. by rewrite Hh, Hf.
Qed.

Lemma import_list_open ids bs cur l :
  list_line l = true -> draft_is ListT cur = false ->
  import_line ids (bs, cur) l = (finishCurrentBlock ids cur bs, Some (ListT, l)).
Proof.
  intros Hl Hc. pose proof (list_not_heading l Hl) as Hh.
  pose proof (list_not_fence l Hl) as Hf.
  unfold import_line, heading_line, fence_line, list_line in *. by rewrite Hh, Hf, Hl, Hc.
Qed.

Lemma import_list_item ids bs acc l :
  list_line l = true ->
  import_line ids (bs, Some (ListT, acc)) l = (bs, Some (ListT, add_line acc l)).
Proof.
  intros Hl. pose proof (list_not_heading l Hl) as Hh.
  pose proof (list_not_fence l Hl) as Hf.
  unfold import_line, heading_line, fence_line, list_line in *. by rewrite Hh, Hf, Hl.
Qed.

Lemma import_plain_open ids bs cur l :
  plain_line l = true ->
  draft_is Paragraph cur = false -> draft_is Code cur = false ->
  draft_is ListT cur = false ->
  import_line ids (bs, cur) l = (finishCurrentBlock ids cur bs, Some (Paragraph, l)).
Proof.
  intros (Hh & Hf & Hl & Hb)%plain_line_spec Hp Hc Hli.
  unfold import_line, heading_line, fence_line, list_line, blank_line in *.
  by rewrite Hh, Hf, Hl, Hb, Hp, Hc, Hli.
Qed.

Lemma import_plain_append ids bs t acc l :
  plain_line l = true -> t = Paragraph \/ t = ListT \/ t = Code ->
  import_line ids (bs, Some (t, acc)) l = (bs, Some (t, add_line acc l)).
Proof.
  intros (Hh & Hf & Hl & Hb)%plain_line_spec Ht.
  unfold import_line, heading_line, fence_line, list_line, blank_line in *.
  rewrite Hh, Hf, Hl, Hb. by destruct Ht as [-> | [-> | ->]].
Qed.

Lemma import_plain_lines ids bs t acc ls :
  forallb plain_line ls = true -> t = Paragraph \/ t = ListT \/ t = Code ->
  fold_left (import_line ids) ls (bs, Some (t, acc)) =
    (bs, Some (t, fold_left add_line ls acc)).
Proof.
  intros Hls Ht. revert acc. induction ls as [|l ls IH]; intros acc; [done|].
  simpl in Hls. apply andb_prop in Hls as [Hl Hls]. cbn [fold_left].
  rewrite import_plain_append by done. by apply IH.
Qed.

Lemma import_list_lines ids bs acc ls :
  forallb list_continuation ls = true ->
  fold_left (import_line ids) ls (bs, Some (ListT, acc)) =
    (bs, Some (ListT, fold_left add_line ls acc)).
Proof.
  intros Hls. revert acc. induction ls as [|l ls IH]; intros acc; [done|].
  simpl in Hls. apply andb_prop in Hls as [Hl Hls]. cbn [fold_left].
  unfold list_continuation in Hl. destruct (list_line l) eqn:Hli.
  - rewrite import_list_item by done. by apply IH.
  - rewrite import_plain_append by auto. by apply IH.
Qed.

Lemma cur_matches_not_code prev cur : cur_matches prev cur -> draft_is Code cur = false.
Proof.
  destruct prev as [[]|]; simpl; try (by intros ->); by intros [c ->].
Qed.

Lemma cur_matches_not_list prev cur :
  cur_matches prev cur -> follows prev ListT = true -> draft_is ListT cur = false.
Proof.
  destruct prev as [[]|]; simpl; try done; try (by intros ->); by intros [c ->].
Qed.

Lemma cur_matches_not_paragraph prev cur :
  cur_matches prev cur -> follows prev Paragraph = true ->
  draft_is Paragraph cur = false /\ draft_is ListT cur = false.
Proof.
  destruct prev as [[]|]; simpl; try done; try (by intros ->); by intros [c ->].
Qed.

Lemma emitted_finish ids t c bs :
  emitted (finishCurrentBlock ids (Some (t, c)) bs) = emitted bs ++ [(t, Text c)].
Proof. unfold emitted. simpl. by rewrite map_app. Qed.

(** ** Blank lines *)

Lemma trimEnd_cons_clean a s : is_space a = false -> trimEnd (String a s) <> "".
Proof. intros Ha. simpl. destruct (trimEnd s); [by rewrite Ha|done]. Qed.

Lemma starts_clean_not_blank l : starts_clean l = true -> blank_line l = false.
Proof.
  intros H. unfold blank_line, trim. rewrite (trimStart_clean l H).
  destruct l as [|a l]; [done|]. simpl in H. apply negb_true_iff in H.
  apply String.eqb_neq. by apply trimEnd_cons_clean.
Qed.

Lemma startsWith_starts_clean l a p :
  is_space a = false -> startsWith l (String a p) = true -> starts_clean l = true.
Proof.
  intros Ha. destruct l as [|b l]; [done|]. rewrite startsWith_cons.
  destruct (Ascii.eqb_spec a b) as [<-|]; [|done]. intros _. simpl. by rewrite Ha.
Qed.

Lemma heading_not_blank l : heading_line l = true -> blank_line l = false.
Proof. intros H. eapply starts_clean_not_blank, startsWith_starts_clean; [|exact H]. done. Qed.

Lemma fence_not_blank l : fence_line l = true -> blank_line l = false.
Proof. intros H. eapply starts_clean_not_blank, startsWith_starts_clean; [|exact H]. done. Qed.

Lemma list_not_blank l : list_line l = true -> blank_line l = false.
Proof.
  unfold list_line. intros [H|H]%orb_prop;
    (eapply starts_clean_not_blank, startsWith_starts_clean; [|exact H]); done.
Qed.

(** A blank line changes nothing: it opens no block and is not appended. *)
Lemma import_skip_blank ids st l : blank_line l = true -> import_line ids st l = st.
Proof.
  intros Hb. destruct st as [bs cur].
  assert (Hh : heading_line l = false).
  { destruct (heading_line l) eqn:E; [|done]. apply heading_not_blank in E. congruence. }
  assert (Hf : fence_line l = false).
  { destruct (fence_line l) eqn:E; [|done]. apply fence_not_blank in E. congruence. }
  assert (Hl : list_line l = false).
  { destruct (list_line l) eqn:E; [|done]. apply list_not_blank in E. congruence. }
  unfold import_line, heading_line, fence_line, list_line, blank_line in *.
  by rewrite Hh, Hf, Hl, Hb.
Qed.

Lemma import_solid ids ls st :
  fold_left (import_line ids) ls st =
    fold_left (import_line ids) (List.filter (fun l => negb (blank_line l)) ls) st.
Proof.
  revert st. induction ls as [|l ls IH]; intros st; [done|]. simpl.
  destruct (blank_line l) eqn:E; simpl; [|apply IH].
  rewrite import_skip_blank by done. apply IH.
Qed.

Lemma trimEnd_empty s : trimEnd s = "" -> all_chars is_space s = true.
Proof.
  induction s as [|c s IH]; [done|]. simpl.
  destruct (trimEnd s); [|done]. destruct (is_space c); [|done]. intros _. by apply IH.
Qed.

Lemma trimStart_all_space s :
  all_chars is_space (trimStart s) = true -> all_chars is_space s = true.
Proof.
  induction s as [|c s IH]; [done|]. simpl. destruct (is_space c) eqn:E; simpl; [done|].
  by rewrite E.
Qed.

Lemma blank_all_space l : blank_line l = true -> all_chars is_space l = true.
Proof.
  unfold blank_line, trim. intros H%String.eqb_eq.
  by apply trimStart_all_space, trimEnd_empty.
Qed.

Lemma trimStart_spaces w : all_chars is_space w = true -> trimStart w = "".
Proof.
  induction w as [|c w IH]; [done|]. simpl. intros [-> Hw]%andb_prop. by apply IH.
Qed.

Lemma all_chars_app p (a b : string) :
  all_chars p (a +:+ b) = all_chars p a && all_chars p b.
Proof.
  induction a as [|c a IH]; simpl_append; [done|]. simpl. by rewrite IH, andb_assoc.
Qed.

Lemma trimStart_app_spaces w y :
  all_chars is_space w = true -> trimStart (w +:+ y) = trimStart y.
Proof.
  induction w as [|c w IH]; simpl_append; [done|]. simpl.
  intros [-> Hw]%andb_prop. by apply IH.
Qed.

Lemma trimEnd_app_spaces_any s w :
  all_chars is_space w = true -> trimEnd (s +:+ w) = trimEnd s.
Proof.
  intros Hw. induction s as [|c s IH]; simpl_append.
  - by apply trimEnd_spaces.
  - simpl. by rewrite IH.
Qed.

Lemma trimEnd_clean s : ends_clean s = true -> trimEnd s = s.
Proof.
  intros Hs. rewrite <- (app_nil_r_s s) at 1. by apply trimEnd_app_spaces.
Qed.

(** ** Lines joined and split again *)

Lemma join_lines_cons a ls :
  ls <> [] -> join_lines (a :: ls) = a +:+ nl +:+ join_lines ls.
Proof.
  destruct ls as [|b ls]; [done|]. intros _.
  change (fold_left add_line ls (a +:+ nl +:+ b) = a +:+ nl +:+ fold_left add_line ls b).
  by rewrite !add_line_prefix.
Qed.

Lemma join_lines_snoc ls b :
  ls <> [] -> join_lines (ls ++ [b]) = join_lines ls +:+ nl +:+ b.
Proof.
  destruct ls as [|a ls]; [done|]. intros _. simpl. by rewrite fold_left_app.
Qed.

Lemma join_lines_head l ls : exists r, join_lines (l :: ls) = l +:+ r.
Proof.
  exists (fold_left add_line ls ""). simpl.
  by rewrite <- add_line_prefix, app_nil_r_s.
Qed.

Lemma join_lines_split c : join_lines (split_lines c) = c.
Proof.
  destruct (split_lines c) as [|l ls] eqn:H.
  - destruct (split_lines_from_cons "" c) as (l & ls & H'). unfold split_lines in H. congruence.
  - by apply join_split.
Qed.

Lemma split_from_one_line cur l :
  one_line l = true -> split_lines_from cur l = [cur +:+ l].
Proof.
  revert cur. induction l as [|c l IH]; intros cur; simpl.
  - by rewrite app_nil_r_s.
  - intros [Hc Hl]%andb_prop. apply negb_true_iff in Hc. rewrite Hc.
    rewrite IH by done. by rewrite app_assoc_s.
Qed.

Lemma split_one_line l : one_line l = true -> split_lines l = [l].
Proof. apply split_from_one_line. Qed.

Lemma split_lines_from_one_line cur x :
  one_line cur = true -> Forall (fun l => one_line l = true) (split_lines_from cur x).
Proof.
  revert cur. induction x as [|c x IH]; intros cur Hcur; simpl.
  - by constructor.
  - destruct (Ascii.eqb c LF) eqn:E.
    + constructor; [done|]. by apply IH.
    + apply IH. unfold one_line. rewrite all_chars_app. simpl. fold (one_line cur).
      by rewrite Hcur, E.
Qed.

Lemma split_lines_one_line x : Forall (fun l => one_line l = true) (split_lines x).
Proof. by apply split_lines_from_one_line. Qed.

Lemma split_join ls :
  ls <> [] -> Forall (fun l => one_line l = true) ls -> split_lines (join_lines ls) = ls.
Proof.
  induction ls as [|l ls IH]; [done|]. intros _ [Hl Hls]%Forall_cons.
  destruct ls as [|b ls]; [by apply split_one_line|].
  rewrite join_lines_cons, split_lines_app by done.
  rewrite split_one_line, IH by done. done.
Qed.

Lemma join_all_space ls :
  Forall (fun l => all_chars is_space l = true) ls -> all_chars is_space (join_lines ls) = true.
Proof.
  induction 1 as [|l ls Hl Hls IH]; [done|].
  destruct ls as [|b ls]; [done|].
  rewrite join_lines_cons by done. rewrite !all_chars_app, Hl, IH. done.
Qed.

Lemma filter_first {A} (p : A -> bool) (l : list A) x rest :
  List.filter p l = x :: rest ->
  exists front back,
    l = front ++ x :: back /\ Forall (fun y => p y = false) front /\
    p x = true /\ List.filter p back = rest.
Proof.
  induction l as [|y l IH]; [done|]. simpl. destruct (p y) eqn:E.
  - intros [= -> <-]. by exists [], l.
  - intros H. destruct (IH H) as (front & back & -> & Hf & Hx & Hr).
    exists (y :: front), back. repeat split; try done. by constructor.
Qed.

Lemma filter_none {A} (p : A -> bool) (l : list A) :
  List.filter p l = [] -> Forall (fun y => p y = false) l.
Proof.
  induction l as [|y l IH]; [done|]. simpl. destruct (p y) eqn:E; [done|].
  intros H. constructor; [done|by apply IH].
Qed.

Lemma filter_last {A} (p : A -> bool) (l : list A) pre x :
  List.filter p l = pre ++ [x] ->
  exists front back,
    l = front ++ x :: back /\ Forall (fun y => p y = false) back /\
    p x = true /\ List.filter p front = pre.
Proof.
  revert pre. induction l as [|y l IH]; intros pre; [by destruct pre|]. simpl.
  destruct (p y) eqn:E.
  - destruct pre as [|z pre]; simpl.
    + intros [= -> Hl]. exists [], l. repeat split; try done. by apply filter_none.
    + intros [= -> Hl]. destruct (IH pre Hl) as (front & back & -> & Hb & Hx & Hf).
      exists (z :: front), back. repeat split; try done. simpl. by rewrite E, Hf.
  - intros Hl. destruct (IH pre Hl) as (front & back & -> & Hb & Hx & Hf).
    exists (y :: front), back. repeat split; try done. simpl. by rewrite E.
Qed.

Lemma blank_lines_all_space (ls : list string) :
  Forall (fun l => negb (blank_line l) = false) ls ->
  Forall (fun l => all_chars is_space l = true) ls.
Proof.
  intros H. eapply Forall_impl; [exact H|].
  intros l Hl. apply blank_all_space. by apply negb_false_iff.
Qed.

(** ** [trim] and the lines that are not blank *)

Lemma trimStart_join front l back :
  Forall (fun b => all_chars is_space b = true) front -> starts_clean l = true ->
  trimStart (join_lines (front ++ l :: back)) = join_lines (l :: back).
Proof.
  intros Hfront Hl. induction Hfront as [|b front Hb Hfront IH]; simpl app.
  - apply trimStart_clean. destruct (join_lines_head l back) as [r ->].
    by apply starts_clean_app.
  - rewrite join_lines_cons by (by destruct front).
    rewrite trimStart_app_spaces by done. exact IH.
Qed.

Lemma ends_clean_join front l :
  ends_clean l = true -> ends_clean (join_lines (front ++ [l])) = true.
Proof.
  intros Hl. destruct front as [|a front]; [done|].
  rewrite join_lines_snoc by done. by do 2 apply ends_clean_app.
Qed.

Lemma trimEnd_join front l back :
  Forall (fun b => all_chars is_space b = true) back -> ends_clean l = true ->
  trimEnd (join_lines (front ++ l :: back)) = join_lines (front ++ [l]).
Proof.
  intros Hback Hl. induction back as [|b back IH] using rev_ind.
  - by apply trimEnd_clean, ends_clean_join.
  - apply Forall_app in Hback as [Hback [Hb _]%Forall_cons].
    replace (front ++ l :: back ++ [b]) with ((front ++ l :: back) ++ [b])
      by (by rewrite <- app_assoc).
    rewrite join_lines_snoc by (by destruct front).
    rewrite trimEnd_app_spaces_any; [by apply IH|].
    by rewrite all_chars_app, Hb.
Qed.

(** [trim] removes the blank lines at both ends, and white space before
    the first and after the last line that is not blank: when there is none,
    the lines that are not blank stay as they are. *)
Lemma solid_trim x :
  match solid_lines x with l :: _ => starts_clean l = true | [] => True end ->
  match last (solid_lines x) with Some l => ends_clean l = true | None => True end ->
  solid_lines (trim x) = solid_lines x.
Proof.
  unfold solid_lines. intros Hfirst Hlast.
  pose proof (split_lines_one_line x) as Hone.
  rewrite <- (join_lines_split x) at 1.
  destruct (List.filter _ (split_lines x)) as [|l1 rest] eqn:HF.
  - apply filter_none, blank_lines_all_space, join_all_space in HF.
    unfold trim. by rewrite (trimStart_spaces _ HF).
  - destruct (filter_first _ _ _ _ HF) as (front & back & HL & Hfront & Hl1 & Hback).
    rewrite HL in Hone |- *. apply Forall_app in Hone as [_ Hone].
    unfold trim. rewrite trimStart_join by (by try apply blank_lines_all_space).
    destruct (last (l1 :: rest)) as [l2|] eqn:Hl2; [|by apply last_None in Hl2].
    apply last_Some in Hl2 as [pre Hpre].
    assert (HF2 : List.filter (fun l => negb (blank_line l)) (l1 :: back) = pre ++ [l2]).
    { simpl. by rewrite Hl1, Hback. }
    destruct (filter_last _ _ _ _ HF2) as (front2 & back2 & HL2 & Hback2 & Hp2 & Hfront2).
    rewrite HL2 in Hone |- *.
    rewrite trimEnd_join by (by try apply blank_lines_all_space).
    rewrite split_join.
    + rewrite List.filter_app, Hfront2. simpl. by rewrite Hp2, Hpre.
    + by destruct front2.
    + apply Forall_app in Hone as [Hf2 [Hl2 _]%Forall_cons].
      apply Forall_app. split; [done|by constructor].
Qed.

(** One well-formed block: its lines that are not blank. *)
Lemma import_block ids t c prev bs cur :
  well_formed t c = true -> follows prev t = true -> cur_matches prev cur ->
  exists st',
    fold_left (import_line ids) (solid_lines c) (bs, cur) = st' /\
    cur_matches (Some t) (snd st') /\
    emitted (flush ids st') =
      emitted (flush ids (bs, cur)) ++ [(t, Text (without_blank_lines c))].
Proof.
  intros Hwf Hfol Hcur. eexists. split; [reflexivity|].
  pose proof (cur_matches_not_code prev cur Hcur) as Hnc.
  unfold well_formed in Hwf. unfold without_blank_lines.
  destruct (solid_lines c) as [|l ls] eqn:Hsolid; [by destruct t|].
  destruct t; try done.
  - (* heading *)
    destruct ls; [|done]. cbn [fold_left].
    rewrite import_heading by done. split; [by eexists|].
    unfold flush. simpl snd. simpl fst. by rewrite emitted_finish.
  - (* paragraph *)
    simpl in Hwf. apply andb_prop in Hwf as [Hl Hls].
    destruct (cur_matches_not_paragraph prev cur Hcur Hfol) as [Hnp Hnl].
    cbn [fold_left]. rewrite import_plain_open by done.
    rewrite import_plain_lines by auto.
    split; [by eexists|]. unfold flush. simpl snd. simpl fst. by rewrite emitted_finish.
  - (* list *)
    apply andb_prop in Hwf as [Hl Hls].
    pose proof (cur_matches_not_list prev cur Hcur Hfol) as Hnl.
    cbn [fold_left]. rewrite import_list_open by done.
    rewrite import_list_lines by done.
    split; [by eexists|]. unfold flush. simpl snd. simpl fst. by rewrite emitted_finish.
  - (* code *)
    apply andb_prop in Hwf as [Hl Hls].
    destruct (rev ls) as [|closing middle] eqn:Hrev; [done|].
    apply andb_prop in Hls as [Hclose Hmid].
    assert (Hls : ls = rev middle ++ [closing]).
    { rewrite <- (rev_involutive ls), Hrev. done. }
    assert (Hmid' : forallb plain_line (rev middle) = true).
    { apply forallb_forall. intros x Hx. apply in_rev in Hx.
      by apply (proj1 (forallb_forall _ _) Hmid). }
    cbn [fold_left]. rewrite import_fence_open by done.
    rewrite Hls, fold_left_app. rewrite import_plain_lines by auto.
    cbn [fold_left]. rewrite import_fence_close by done.
    split; [done|]. unfold flush. simpl snd. simpl fst.
    change (finishCurrentBlock ids None ?x) with x.
    unfold emitted. rewrite map_app. simpl. do 4 f_equal.
    by rewrite fold_left_app.
Qed.

Lemma import_doc ids doc prev bs cur :
  importable prev doc = true -> cur_matches prev cur ->
  emitted (flush ids (fold_left (import_line ids)
                        (flat_map (fun d => solid_lines (snd d)) doc) (bs, cur))) =
    emitted (flush ids (bs, cur)) ++
    List.map (fun d => (fst d, Text (without_blank_lines (snd d)))) doc.
Proof.
  revert prev bs cur. induction doc as [|[t c] doc IH]; intros prev bs cur Himp Hcur.
  - simpl. by rewrite app_nil_r.
  - simpl in Himp. apply andb_prop in Himp as [[Hwf Hfol]%andb_prop Himp].
    destruct (import_block ids t c prev bs cur Hwf Hfol Hcur) as ([bs' cur'] & Hst & Hcur' & Hem).
    simpl flat_map. rewrite fold_left_app, Hst. rewrite (IH (Some t) bs' cur' Himp Hcur').
    rewrite Hem. by rewrite <- app_assoc.
Qed.

(** ** Export of a flat text document *)

Lemma sort_insert_map {A B} (k : B -> Z) (f : A -> B) x l :
  sort_insert k (f x) (List.map f l) = List.map f (sort_insert (fun y => k (f y)) x l).
Proof.
  induction l as [|y l IH]; [done|]. simpl.
  destruct (k (f x) <=? k (f y)); [done|]. simpl. by rewrite IH.
Qed.

Lemma sort_by_map {A B} (k : B -> Z) (f : A -> B) l :
  sort_by k (List.map f l) = List.map f (sort_by (fun y => k (f y)) l).
Proof.
  induction l as [|x l IH]; [done|]. simpl. by rewrite IH, sort_insert_map.
Qed.

Lemma flat_text_doc_spec s b :
  flat_text_doc s = true -> b ∈ blocks s ->
  groupId b = None /\ content b = Text (text_of b).
Proof.
  intros Hflat Hb. apply list_elem_of_In in Hb.
  pose proof (proj1 (forallb_forall _ _) Hflat b Hb) as H.
  unfold is_flat_text, text_of in *. by destruct (groupId b), (content b).
Qed.

Lemma flat_text_doc_text s b :
  flat_text_doc s = true -> b ∈ blocks s -> block_text b = Some (text_of b).
Proof.
  intros Hflat Hb. apply list_elem_of_In in Hb.
  pose proof (proj1 (forallb_forall _ _) Hflat b Hb) as H.
  unfold is_flat_text, block_text, text_of in *.
  by destruct (groupId b), (content b), (type b).
Qed.

Lemma flat_ungrouped_items s :
  flat_text_doc s = true ->
  ungrouped_items (blocks s) = List.map block_item (indexed (blocks s)).
Proof.
  intros Hflat. unfold ungrouped_items. rewrite List_filter_all; [done|].
  intros [p b] Hpb. apply indexed_lookup in Hpb. simpl.
  destruct (flat_text_doc_spec s b Hflat) as [-> _]; [|done].
  by eapply list_elem_of_lookup_2.
Qed.

Lemma flat_group_items s :
  flat_text_doc s = true -> group_items (blocks s) (groups s) = [].
Proof.
  intros Hflat. unfold group_items.
  assert (Hno : forall k, group_members (blocks s) k = []).
  { intros k. unfold group_members. apply List_filter_all_false.
    intros [p b] Hpb. apply indexed_lookup in Hpb. simpl.
    destruct (flat_text_doc_spec s b Hflat) as [-> _]; [|done].
    by eapply list_elem_of_lookup_2. }
  induction (indexed (groups s)) as [|[pos [k g]] l IH]; [done|].
  simpl. by rewrite Hno.
Qed.

Lemma flat_items s :
  flat_text_doc s = true ->
  getAllOrderedItems s =
    List.map block_item (sort_by (fun pb => or_zero (order (snd pb))) (indexed (blocks s))).
Proof.
  intros Hflat. unfold getAllOrderedItems.
  rewrite flat_ungrouped_items, flat_group_items, app_nil_r by done.
  exact (sort_by_map item_order block_item _).
Qed.

Lemma sorted_indexed_blocks (bs : list Block) :
  List.map snd (sort_by (fun pb => or_zero (order (snd pb))) (indexed bs)) =
    sort_by (fun b => or_zero (order b)) bs.
Proof.
  rewrite <- (sort_by_map (fun b : Block => or_zero (order b)) snd).
  unfold indexed. by rewrite indexed_from_snd.
Qed.

Lemma emit_flat js (l : list (nat * Block)) m :
  Forall (fun pb => block_text (snd pb) = Some (text_of (snd pb))) l ->
  fold_left (emit_item js []) (List.map block_item l) (Some m) =
    Some (m +:+ doc_raw (List.map (fun pb => (type (snd pb), text_of (snd pb))) l)).
Proof.
  intros Hl. revert m. induction Hl as [|[p b] l Hb Hl IH]; intros m; simpl.
  - by rewrite app_nil_r_s.
  - simpl in Hb. unfold emit_block. cbn [mbind option_bind]. rewrite Hb.
    unfold substituteVariables. cbn [fold_left mbind option_bind]. rewrite IH.
    by rewrite !app_assoc_s.
Qed.

Lemma generate_flat js s :
  variables s = [] -> flat_text_doc s = true ->
  generateMarkdown js s = Some (trim (doc_raw (doc_of s))).
Proof.
  intros Hvars Hflat. unfold generateMarkdown, vars_of. rewrite Hvars. simpl List.map.
  rewrite flat_items by done. rewrite emit_flat.
  - simpl_append. unfold doc_of, rendered.
    rewrite <- sorted_indexed_blocks, List.map_map. done.
  - apply Forall_forall. intros [p b] Hpb. simpl.
    rewrite sort_by_Permutation in Hpb. apply indexed_lookup in Hpb.
    apply (flat_text_doc_text s b Hflat). by eapply list_elem_of_lookup_2.
Qed.

Lemma importMarkdown_blocks ids markdown s :
  blocks (state_of (importMarkdown ids markdown s)) =
    flush ids (fold_left (import_line ids) (split_lines markdown) ([], None)).
Proof. unfold importMarkdown. by destruct (fold_left _ _ _). Qed.

Lemma solid_doc_raw doc :
  solid_lines (doc_raw doc) = flat_map (fun d => solid_lines (snd d)) doc.
Proof.
  induction doc as [|[t c] doc IH]; [done|].
  unfold solid_lines in *. simpl doc_raw.
  rewrite split_lines_app, split_lines_nl, List.filter_app. simpl. by rewrite IH.
Qed.

Lemma solid_trim_doc doc :
  clean_ends doc = true ->
  solid_lines (trim (doc_raw doc)) = flat_map (fun d => solid_lines (snd d)) doc.
Proof.
  intros [Hstart Hend]%andb_prop. rewrite <- solid_doc_raw. apply solid_trim.
  - rewrite solid_doc_raw. destruct doc as [|[t c] doc]; [done|]. simpl.
    by destruct (solid_lines c).
  - rewrite solid_doc_raw. destruct (last doc) as [[t c]|] eqn:Hl.
    + apply last_Some in Hl as [front ->]. rewrite flat_map_app. simpl.
      rewrite app_nil_r. destruct (last (solid_lines c)) as [l|] eqn:Hc; [|done].
      apply last_Some in Hc as [pre ->]. by rewrite app_assoc, last_snoc.
    + apply last_None in Hl as ->. done.
Qed.

Lemma rendered_texts s :
  flat_text_doc s = true ->
  List.map (fun d => (fst d, Text (without_blank_lines (snd d)))) (doc_of s) =
    List.map (fun b => (type b, Text (without_blank_lines (text_of b)))) (rendered s).
Proof. intros _. unfold doc_of. by rewrite List.map_map. Qed.

Lemma without_blank_lines_same c :
  forallb (fun l => negb (blank_line l)) (split_lines c) = true ->
  without_blank_lines c = c.
Proof.
  intros H. unfold without_blank_lines, solid_lines.
  rewrite List_filter_all; [apply join_lines_split|].
  intros l Hl. apply list_elem_of_In in Hl. by apply (proj1 (forallb_forall _ _) H).
Qed.

(** C3, as the claim states it, fails: two paragraphs come back as one,
    because the blank line between them does not close the first. *)
Lemma two_paragraphs_merge :
  exists markdown,
    generateMarkdown no_eval two_paragraphs = Some markdown /\
    List.map type (blocks two_paragraphs) = [Paragraph; Paragraph] /\
    emitted (blocks (state_of (importMarkdown pretty markdown two_paragraphs))) =
      [(Paragraph, Text ("New paragraph content..." +:+ nl +:+ "New paragraph content..."))].
Proof. eexists. repeat split. Qed.

(** C3 (amended): take a document without variables whose blocks are all
    ungrouped text blocks and, in the order of the page, (a) have lines
    that, the blank ones left aside, are well formed for their types,
    (b) have no paragraph right after a paragraph or a list and no list
    right after a list, and (c) do not begin, for the first line of the
    first block that is not blank, or end, for the last such line of the
    last block, with white space.  Then [importMarkdown] of the text of
    [generateMarkdown] produces as many blocks, with the same types, in the
    order of the page, and the content of each is the content it had
    without its blank lines; that is the content itself when it has no
    blank line. *)
Theorem export_import_round_trip
    (js_eval : string -> option string) (ids : nat -> string) (s : State) :
  variables s = [] ->
  flat_text_doc s = true ->
  importable None (doc_of s) = true ->
  clean_ends (doc_of s) = true ->
  exists markdown,
    generateMarkdown js_eval s = Some markdown /\
    emitted (blocks (state_of (importMarkdown ids markdown s))) =
      List.map (fun b => (type b, Text (without_blank_lines (text_of b)))) (rendered s) /\
    (forall b, b ∈ blocks s ->
       forallb (fun l => negb (blank_line l)) (split_lines (text_of b)) = true ->
       without_blank_lines (text_of b) = text_of b).
Proof.
  intros Hvars Hflat Himp Hclean.
  eexists. split; [by apply generate_flat|]. split.
  - rewrite importMarkdown_blocks, <- rendered_texts by done.
    rewrite import_solid. fold (solid_lines (trim (doc_raw (doc_of s)))).
    rewrite solid_trim_doc by done.
    exact (import_doc ids (doc_of s) None [] None Himp eq_refl).
  - intros b _. apply without_blank_lines_same.
Qed.

Lemma export_import_round_trip_witness :
  List.map type (rendered spaced_document) = [Heading; Code; Paragraph] /\
  exists markdown,
    generateMarkdown no_eval spaced_document = Some markdown /\
    emitted (blocks (state_of (importMarkdown pretty markdown spaced_document))) =
      [(Heading, Text "# Title");
       (Code, Text ("```" +:+ nl +:+ "a" +:+ nl +:+ "b" +:+ nl +:+ "```"));
       (Paragraph, Text "New paragraph content...")].
Proof.
  split; [reflexivity|].
  destruct (export_import_round_trip no_eval pretty spaced_document
              eq_refl eq_refl eq_refl eq_refl) as (markdown & Hm & Hem & _).
  exists markdown. split; [exact Hm|]. rewrite Hem. reflexivity.
Defined.

(** * Further properties of the handlers *)

(** ** Moves *)

Lemma write_order_without_orders it v s :
  without_orders (write_order it v s) = without_orders s.
Proof.
  destruct it; unfold without_orders; simpl; f_equal; by apply map_alter_same.
Qed.

Lemma swap_orders_without_orders a b s :
  without_orders (with_blocks (swap_orders a b (blocks s)) s) = without_orders s.
Proof.
  unfold without_orders, swap_orders. simpl. f_equal.
  rewrite !map_alter_same; done.
Qed.

Lemma moveItemUp_without_orders t i s :
  without_orders (state_of (moveItemUp t i s)) = without_orders s.
Proof.
  unfold moveItemUp. repeat case_match; simpl; try done.
  by rewrite !write_order_without_orders.
Qed.

Lemma moveItemDown_without_orders t i s :
  without_orders (state_of (moveItemDown t i s)) = without_orders s.
Proof.
  unfold moveItemDown. repeat case_match; simpl; try done.
  by rewrite !write_order_without_orders.
Qed.

Lemma moveBlockUp_without_orders i s :
  without_orders (state_of (moveBlockUp i s)) = without_orders s.
Proof.
  unfold moveBlockUp. repeat case_match; simpl;
    auto using swap_orders_without_orders, moveItemUp_without_orders.
Qed.

Lemma moveBlockDown_without_orders i s :
  without_orders (state_of (moveBlockDown i s)) = without_orders s.
Proof.
  unfold moveBlockDown. repeat case_match; simpl;
    auto using swap_orders_without_orders, moveItemDown_without_orders.
Qed.

(** X2: the four move handlers write [order] fields and nothing else: with
    the orders erased, the state after [moveBlockUp], [moveBlockDown],
    [moveGroupUp] or [moveGroupDown] is the state before, so ids, types,
    contents, group membership, selection, group names, variables and the
    counter are untouched, whatever the id. *)
Theorem moves_only_write_order (op : Op) (s : State) :
  is_move op = true ->
  without_orders (state_of (step op s)) = without_orders s.
Proof.
  destruct op; try discriminate; intros _; unfold step.
  - unfold moveBlockUp. repeat case_match; simpl;
      auto using swap_orders_without_orders, moveItemUp_without_orders.
  - unfold moveBlockDown. repeat case_match; simpl;
      auto using swap_orders_without_orders, moveItemDown_without_orders.
  - apply moveItemUp_without_orders.
  - apply moveItemDown_without_orders.
Qed.

Lemma moves_only_write_order_witness :
  is_move (MoveGroupDown "group_0") = true /\
  without_orders (state_of (step (MoveGroupDown "group_0") grouped_pair))
    = without_orders grouped_pair.
Proof.
  split; [reflexivity|].
  apply (moves_only_write_order (MoveGroupDown "group_0") grouped_pair). reflexivity.
Defined.

Lemma findIndex_cases {A} (p : A -> bool) (l : list A) :
  findIndex p l = -1 \/
  exists k x, findIndex p l = Z.of_nat k /\ l !! k = Some x /\ p x = true.
Proof.
  destruct (List.find p l) as [x|] eqn:Hf.
  - right. destruct (findIndex_found p l x Hf) as (k & ? & ? & ?). eauto.
  - left. by apply findIndex_not_found.
Qed.

Lemma find_of_elem {A} (p : A -> bool) (l : list A) x :
  x ∈ l -> p x = true -> exists y, List.find p l = Some y.
Proof.
  intros Hx Hp. destruct (List.find p l) as [y|] eqn:Hf; [by eauto|].
  apply list_elem_of_In in Hx. pose proof (find_none p l Hf x Hx). congruence.
Qed.

Lemma findIndex_of_elem {A} (p : A -> bool) (l : list A) x :
  x ∈ l -> p x = true ->
  exists k y, findIndex p l = Z.of_nat k /\ l !! k = Some y /\ p y = true.
Proof.
  intros Hx Hp. destruct (find_of_elem p l x Hx Hp) as [y Hy].
  destruct (findIndex_found p l y Hy) as (k & ? & ? & ?). eauto.
Qed.

Lemma at_index_lt {A} (l : list A) (k : nat) :
  (k < length l)%nat -> exists x, at_index l (Z.of_nat k) = Some x.
Proof.
  intros Hk. rewrite at_index_nat. by apply lookup_lt_is_Some_2.
Qed.

(** A swap with the neighbour before never throws. *)
Lemma swap_up_defined {A} (p : A -> bool) (l : list A) :
  (0 <? findIndex p l) = true ->
  exists cur prev, at_index l (findIndex p l) = Some cur /\
                   at_index l (findIndex p l - 1) = Some prev.
Proof.
  intros Hpos. apply Z.ltb_lt in Hpos.
  destruct (findIndex_cases p l) as [H|(k & x & Hk & Hx & _)]; [lia|].
  rewrite Hk in *. destruct k as [|k]; [lia|].
  replace (Z.of_nat (S k) - 1) with (Z.of_nat k) by lia.
  rewrite !at_index_nat, Hx.
  destruct (lookup_lt_is_Some_2 l k) as [y Hy].
  { apply lookup_lt_Some in Hx. lia. }
  eauto.
Qed.

(** A swap with the neighbour after is defined when the item was found. *)
Lemma swap_down_defined {A} (p : A -> bool) (l : list A) :
  findIndex p l <> -1 ->
  (findIndex p l <? Z.of_nat (length l) - 1) = true ->
  exists cur next, at_index l (findIndex p l) = Some cur /\
                   at_index l (findIndex p l + 1) = Some next.
Proof.
  intros Hfound Hlt. apply Z.ltb_lt in Hlt.
  destruct (findIndex_cases p l) as [H|(k & x & Hk & Hx & _)]; [done|].
  rewrite Hk in *.
  replace (Z.of_nat k + 1) with (Z.of_nat (S k)) by lia.
  rewrite !at_index_nat, Hx.
  destruct (lookup_lt_is_Some_2 l (S k)) as [y Hy]; [lia|]. eauto.
Qed.

Lemma moveItemUp_returns t i s : exists s', moveItemUp t i s = Returned s'.
Proof.
  unfold moveItemUp. destruct (0 <? _) eqn:Hpos; [|by eauto].
  destruct (swap_up_defined _ _ Hpos) as (cur & prev & -> & ->). eauto.
Qed.

Lemma moveItemDown_returns t i s :
  findIndex (is_item t i) (getAllOrderedItems s) <> -1 ->
  exists s', moveItemDown t i s = Returned s'.
Proof.
  intros Hfound. unfold moveItemDown. destruct (_ <? _) eqn:Hlt; [|by eauto].
  destruct (swap_down_defined _ _ Hfound Hlt) as (cur & next & -> & ->). eauto.
Qed.

Lemma found_block_lookup i bs block :
  List.find (has_id i) bs = Some block ->
  exists k, bs !! k = Some block /\ has_id i block = true.
Proof.
  intros Hf. destruct (findIndex_found _ _ _ Hf) as (k & _ & Hk & Hp). eauto.
Qed.

Lemma ungrouped_block_is_item i s block :
  List.find (has_id i) (blocks s) = Some block ->
  truthy_groupId (groupId block) = false ->
  findIndex (is_item block_ i) (getAllOrderedItems s) <> -1.
Proof.
  intros Hf Hg. destruct (found_block_lookup i _ _ Hf) as (k & Hk & Hid).
  assert (Hin : BlockItem k block (or_zero (order block)) ∈ getAllOrderedItems s).
  { unfold getAllOrderedItems. rewrite sort_by_Permutation. apply elem_of_app. left.
    unfold ungrouped_items. apply map_elem_of. exists (k, block). split; [done|].
    apply filter_elem_of. split; [by apply indexed_lookup|]. simpl. by rewrite Hg. }
  destruct (findIndex_of_elem (is_item block_ i) _ _ Hin) as (n & y & Hn & _); [done|].
  rewrite Hn. lia.
Qed.

Lemma grouped_block_is_member i s block :
  List.find (has_id i) (blocks s) = Some block ->
  truthy_groupId (groupId block) = true ->
  findIndex (fun pb => has_id i (snd pb)) (sorted_group_blocks (blocks s) block) <> -1.
Proof.
  intros Hf Hg. destruct (found_block_lookup i _ _ Hf) as (k & Hk & Hid).
  assert (Hin : (k, block) ∈ sorted_group_blocks (blocks s) block).
  { unfold sorted_group_blocks. rewrite sort_by_Permutation.
    apply filter_elem_of. split; [by apply indexed_lookup|]. simpl.
    destruct (groupId block) as [g|]; [|done]. simpl. apply String.eqb_refl. }
  destruct (findIndex_of_elem (fun pb => has_id i (snd pb)) _ _ Hin) as (n & y & Hn & _); [done|].
  rewrite Hn. lia.
Qed.

(** The moves up to their final calls: none of them throws, except
    [moveGroupDown] on an id that is not in a sequence with items. *)
Lemma moves_reach_final_calls (i : string) (s : State) :
  (exists s', moveBlockUp i s = Returned s') /\
  (exists s', moveBlockDown i s = Returned s') /\
  (exists s', moveGroupUp i s = Returned s') /\
  (List.find (is_item group_ i) (getAllOrderedItems s) <> None ->
   exists s', moveGroupDown i s = Returned s').
Proof.
  split; [|split; [|split]].
  - unfold moveBlockUp. destruct (List.find _ _) as [block|] eqn:Hf; [|by eauto].
    destruct (truthy_groupId _); [|apply moveItemUp_returns].
    destruct (0 <? _) eqn:Hpos; [|by eauto].
    destruct (swap_up_defined _ _ Hpos) as (cur & prev & -> & ->). eauto.
  - unfold moveBlockDown. destruct (List.find _ _) as [block|] eqn:Hf; [|by eauto].
    destruct (truthy_groupId _) eqn:Hg.
    + destruct (_ <? _) eqn:Hlt; [|by eauto].
      destruct (swap_down_defined _ _ (grouped_block_is_member i s block Hf Hg) Hlt)
        as (cur & next & -> & ->). eauto.
    + apply moveItemDown_returns. by apply ungrouped_block_is_item with block.
  - apply moveItemUp_returns.
  - intros Hsome. apply moveItemDown_returns.
    destruct (List.find _ _) as [it|] eqn:Hf; [|done].
    destruct (findIndex_found _ _ _ Hf) as (k & -> & _). lia.
Qed.

(** X1: when the preview is within the embedding (every key that is not
    empty a covered pattern, every block holding what its type says),
    [moveBlockUp], [moveBlockDown] and [moveGroupUp] return without an
    error for every id, final calls included, and so does [moveGroupDown]
    for the id of a group on the page.  For any other id [moveGroupDown]
    throws a [TypeError], with the state as it was, when the page has an
    item, and returns when the page is empty; this does not depend on the
    variables. *)
Theorem move_handlers_and_exceptions
    (js_eval : string -> option string) (i : string) (s : State) :
  (previews s = true ->
   (exists s', Handler.moveBlockUp js_eval i s = Some (Returned s')) /\
   (exists s', Handler.moveBlockDown js_eval i s = Some (Returned s')) /\
   (exists s', Handler.moveGroupUp js_eval i s = Some (Returned s')) /\
   (List.find (is_item group_ i) (getAllOrderedItems s) <> None ->
    exists s', Handler.moveGroupDown js_eval i s = Some (Returned s'))) /\
  (List.find (is_item group_ i) (getAllOrderedItems s) = None ->
   Handler.moveGroupDown js_eval i s =
     Some (if (0 <? top_level_count s)%nat then Threw s else Returned s)).
Proof.
  destruct (moves_reach_final_calls i s) as (Hup & Hdown & Hgup & Hgdown).
  split.
  - intros Hprev.
    assert (Hfin : forall o s', o = Returned s' ->
              without_orders (state_of o) = without_orders s ->
              Handler.finish js_eval o = Some (Returned s')).
    { intros o s' -> Hwo. simpl. apply updatePreview_returns.
      by apply (previews_without_orders s). }
    split; [|split; [|split]].
    + unfold Handler.moveBlockUp.
      destruct (List.find (has_id i) (blocks s)); [|by eauto].
      destruct Hup as [s' Hs']. exists s'.
      apply Hfin; [done|apply moveBlockUp_without_orders].
    + unfold Handler.moveBlockDown.
      destruct (List.find (has_id i) (blocks s)); [|by eauto].
      destruct Hdown as [s' Hs']. exists s'.
      apply Hfin; [done|apply moveBlockDown_without_orders].
    + destruct Hgup as [s' Hs']. exists s'.
      apply Hfin; [done|apply moveItemUp_without_orders].
    + intros Hsome. destruct (Hgdown Hsome) as [s' Hs']. exists s'.
      apply Hfin; [done|apply moveItemDown_without_orders].
  - intros Hnone. unfold Handler.moveGroupDown, moveGroupDown, top_level_count.
    rewrite (moveItemDown_not_found _ _ _ Hnone).
    destruct (getAllOrderedItems s) as [|it items] eqn:Hitems; [|done].
    simpl. by apply updatePreview_empty_page.
Qed.

Lemma findIndex_first {A} (p : A -> bool) x (l : list A) :
  p x = true -> findIndex p (x :: l) = 0.
Proof. unfold findIndex. simpl. by intros ->. Qed.

Lemma findIndex_from_last {A} (p : A -> bool) (front : list A) x n :
  (forall y, y ∈ front -> p y = false) -> p x = true ->
  findIndex_from p (front ++ [x]) n = n + Z.of_nat (length front).
Proof.
  revert n. induction front as [|y front IH]; intros n Hfront Hx; simpl.
  - rewrite Hx. lia.
  - rewrite (Hfront y) by (by left).
    rewrite IH; [lia| |done]. intros z Hz. apply Hfront. by right.
Qed.

(** X3: moving the first item of the top-level sequence up, or the last
    one down, changes nothing. *)
Theorem move_at_the_ends_is_a_no_op (t : ItemType) (i : string) (s : State) :
  (forall it rest, getAllOrderedItems s = it :: rest -> is_item t i it = true ->
     moveItemUp t i s = Returned s) /\
  (forall front it, getAllOrderedItems s = front ++ [it] -> is_item t i it = true ->
     (forall x, x ∈ front -> is_item t i x = false) ->
     moveItemDown t i s = Returned s).
Proof.
  split.
  - intros it rest Hitems Hit. unfold moveItemUp.
    by rewrite Hitems, (findIndex_first _ _ _ Hit).
  - intros front it Hitems Hit Hfront. unfold moveItemDown. rewrite Hitems.
    unfold findIndex. rewrite (findIndex_from_last _ _ _ 0 Hfront Hit).
    rewrite length_app. simpl.
    destruct (Z.ltb_spec (0 + Z.of_nat (length front))
                (Z.of_nat (length front + 1) - 1)); [lia|done].
Qed.

(** ** Sessions *)

Lemma skeleton_counter s s' : skeleton s' = skeleton s -> groupCounter s' = groupCounter s.
Proof. unfold skeleton. by intros [= _ _ _ _ ->]. Qed.

Lemma step_counter_le op s : (groupCounter s <= groupCounter (state_of (step op s)))%nat.
Proof.
  destruct op; unfold step; try done.
  - by rewrite (skeleton_counter _ _ (moveBlockUp_skeleton _ _)).
  - by rewrite (skeleton_counter _ _ (moveBlockDown_skeleton _ _)).
  - unfold moveGroupUp. by rewrite (skeleton_counter _ _ (moveItemUp_skeleton _ _ _)).
  - unfold moveGroupDown. by rewrite (skeleton_counter _ _ (moveItemDown_skeleton _ _ _)).
  - by rewrite (skeleton_counter _ _ (handleBlockSelection_skeleton _ _ _)).
  - unfold groupSelectedBlocks. case_match; simpl; lia.
  - by destruct (handleDrop_blocks draggedId targetId s) as (_ & _ & ->).
  - by destruct (handleGroupDrop_groups draggedGroupId targetGroupId s) as (_ & _ & ->).
Qed.

Lemma run_counter_le ops s : (groupCounter s <= groupCounter (run ops s))%nat.
Proof.
  revert s. induction ops as [|op ops IH]; intros s; [done|].
  simpl. etrans; [apply (step_counter_le op)|apply IH].
Qed.

(** X4: in every state of a session that starts from the empty document,
    the keys of the groups map are distinct, every group is stored under its
    own id, every [groupId] of a block is a key of the groups map, the id
    that [groupSelectedBlocks] would mint next is unused, and
    [groupCounter] never goes down along the session. *)
Theorem session_keeps_groups_consistent (ops more : list Op) :
  let s := run ops constructor in
  NoDup (group_keys s) /\
  (forall k g, (k, g) ∈ groups s -> gid g = k) /\
  (forall b g, b ∈ blocks s -> groupId b = Some g -> g ∈ group_keys s) /\
  (next_group_id s ∉ group_keys s) /\
  (groupCounter s <= groupCounter (run more s))%nat.
Proof.
  intros s.
  destruct (run_groups_inv ops constructor constructor_groups_inv)
    as (Hnd & Hgid & Hfresh & Hdang).
  fold s in Hnd, Hgid, Hfresh, Hdang.
  split; [done|]. split; [|split; [|split]].
  - intros k g Hin. apply map_eq_Forall in Hgid.
    by apply (proj1 (Forall_forall _ _) Hgid (k, g)).
  - intros b g Hb Hg. unfold no_dangling in Hdang. apply Forall_List_map in Hdang.
    by apply (proj1 (Forall_forall _ _) Hdang b).
  - apply Hfresh. lia.
  - apply run_counter_le.
Qed.

(** ** Ungrouping and deleting a group *)

Lemma filter_split_length {A} (p : A -> bool) (l : list A) :
  (length (List.filter p l) + length (List.filter (fun x => negb (p x)) l) = length l)%nat.
Proof.
  induction l as [|x l IH]; [done|]. simpl. destruct (p x); simpl; lia.
Qed.

Lemma groupId_is_clear b g g' :
  groupId_is (groupId (if groupId_is (groupId b) g then clear_groupId b else b)) g' =
    groupId_is (groupId b) g' && negb (groupId_is (groupId b) g).
Proof.
  destruct (groupId_is (groupId b) g) eqn:Hg; simpl.
  - by rewrite andb_false_r.
  - by rewrite andb_true_r.
Qed.

Lemma count_other_group g g' (bs : list Block) :
  length (List.filter (fun b => groupId_is (groupId b) g' && negb (groupId_is (groupId b) g)) bs) =
    if String.eqb g' g then 0%nat
    else length (List.filter (fun b => groupId_is (groupId b) g') bs).
Proof.
  induction bs as [|b bs IH]; simpl; [by destruct (String.eqb g' g)|].
  destruct (groupId b) as [gb|] eqn:Hgb; simpl; [|exact IH].
  destruct (String.eqb_spec gb g') as [->|Hne]; simpl.
  - destruct (String.eqb_spec g' g) as [->|Hne']; simpl; [exact IH|].
    by rewrite IH.
  - exact IH.
Qed.

Lemma member_count_ungroup g g' s :
  member_count (state_of (ungroupBlocks g s)) g' =
    if String.eqb g' g then 0%nat else member_count s g'.
Proof.
  unfold member_count. simpl. rewrite <- count_other_group.
  induction (blocks s) as [|b bs IH]; [done|]. simpl.
  rewrite groupId_is_clear.
  destruct (groupId_is (groupId b) g' && negb (groupId_is (groupId b) g)); simpl;
    by rewrite IH.
Qed.

Lemma member_count_deleteGroup g g' s :
  member_count (state_of (deleteGroup g s)) g' =
    if String.eqb g' g then 0%nat else member_count s g'.
Proof.
  unfold member_count. simpl. rewrite <- count_other_group.
  induction (blocks s) as [|b bs IH]; [done|]. simpl.
  destruct (groupId_is (groupId b) g) eqn:Hg; simpl.
  - by rewrite andb_false_r.
  - rewrite andb_true_r. destruct (groupId_is (groupId b) g'); simpl; by rewrite IH.
Qed.

(** X5: [ungroupBlocks] keeps every block and [deleteGroup] drops exactly
    the members of the group, so the two differ by the member count.  After
    either one the group is out of the groups map, no block has its
    [groupId], every other group has the members it had, and the other
    keys of the map are the ones before, in the same order.  Both return
    without an error, final calls included, when the preview is within the
    embedding. *)
Theorem ungroup_keeps_and_deleteGroup_drops
    (js_eval : string -> option string) (g : string) (s : State) :
  let u := state_of (ungroupBlocks g s) in
  let d := state_of (deleteGroup g s) in
  List.map id (blocks u) = List.map id (blocks s) /\
  (length (blocks d) + member_count s g = length (blocks s))%nat /\
  blocks d = List.filter (fun b => negb (groupId_is (groupId b) g)) (blocks s) /\
  (forall g', member_count u g' = if String.eqb g' g then 0%nat else member_count s g') /\
  (forall g', member_count d g' = if String.eqb g' g then 0%nat else member_count s g') /\
  group_keys u = List.filter (fun k => negb (String.eqb k g)) (group_keys s) /\
  groups d = groups u /\
  (previews s = true ->
   Handler.ungroupBlocks js_eval g s = Some (Returned u) /\
   Handler.deleteGroup js_eval g s = Some (Returned d)).
Proof.
  intros u d.
  split; [|split; [|split; [|split; [|split; [|split; [|split]]]]]].
  - unfold u. simpl. rewrite List.map_map. apply map_ext. intros b.
    by destruct (groupId_is _ _).
  - unfold d, member_count. simpl.
    rewrite Nat.add_comm. apply (filter_split_length (fun b => groupId_is (groupId b) g)).
  - done.
  - intros g'. apply member_count_ungroup.
  - intros g'. apply member_count_deleteGroup.
  - unfold u, group_keys, map_delete. simpl.
    induction (groups s) as [|[k v] gs IH]; [done|]. simpl.
    destruct (String.eqb k g); simpl; by rewrite IH.
  - done.
  - intros Hprev. unfold Handler.ungroupBlocks, Handler.deleteGroup. simpl. split.
    + apply updatePreview_returns. apply (previews_kept s); [done| |done].
      simpl. intros b' (b & <- & Hb)%map_elem_of. exists b. split; [done|].
      by destruct (groupId_is _ _).
    + apply updatePreview_returns. apply (previews_kept s); [done| |done].
      simpl. intros b' [Hb _]%filter_elem_of. eauto.
Qed.

(** ** Dragging a block *)

(** X6: when both ids are ids of blocks, [handleDrop] puts the dragged
    block at the index the target had, keeps the same blocks otherwise
    (the new list is a permutation of the old one) and touches nothing
    else; when either id is missing it changes nothing. *)
Theorem handleDrop_moves_to_target (draggedId targetId : string) (s : State) :
  (forall dragged target,
     List.find (has_id draggedId) (blocks s) = Some dragged ->
     List.find (has_id targetId) (blocks s) = Some target ->
     exists s',
       handleDrop draggedId targetId s = Returned s' /\
       blocks s' !! Z.to_nat (findIndex (has_id targetId) (blocks s)) = Some dragged /\
       blocks s' ≡ₚ blocks s /\
       variables s' = variables s /\ groups s' = groups s /\
       groupCounter s' = groupCounter s) /\
  (List.find (has_id draggedId) (blocks s) = None \/
   List.find (has_id targetId) (blocks s) = None ->
   handleDrop draggedId targetId s = Returned s).
Proof.
  split.
  - intros dragged target Hd Ht.
    destruct (findIndex_found _ _ _ Hd) as (i & Hi & Hli & _).
    destruct (findIndex_found _ _ _ Ht) as (j & Hj & Hlj & _).
    unfold handleDrop. rewrite Hi, Hj, at_index_nat, Hli.
    destruct (Z.eqb_spec (Z.of_nat i) (-1)); [lia|].
    destruct (Z.eqb_spec (Z.of_nat j) (-1)); [lia|]. simpl.
    eexists. split; [reflexivity|]. simpl. rewrite Nat2Z.id.
    split; [|split; [|done]].
    + unfold splice_in.
      assert (Hlen : (j <= length (splice1 (blocks s) (Z.of_nat i)))%nat).
      { pose proof (splice1_length_bounds (blocks s) (Z.of_nat i)).
        apply lookup_lt_Some in Hlj. lia. }
      rewrite lookup_app_r by (rewrite length_take; lia).
      rewrite length_take. replace (j - _)%nat with 0%nat by lia. done.
    + apply splice_move_Permutation. by rewrite at_index_nat.
  - intros [Hnone|Hnone]; unfold handleDrop.
    + by rewrite (findIndex_not_found _ _ Hnone).
    + rewrite (findIndex_not_found _ _ Hnone). simpl. by rewrite andb_false_r.
Qed.

(** ** Sorting with distinct keys *)

Lemma sort_insert_sorted {A} (k : A -> Z) x (l : list A) :
  StronglySorted (fun a b => k a <= k b) l ->
  StronglySorted (fun a b => k a <= k b) (sort_insert k x l).
Proof.
  induction 1 as [|y l Hl IH Hy]; simpl; [by repeat constructor|].
  destruct (Z.leb_spec (k x) (k y)) as [Hle|Hgt].
  - constructor; [by constructor|]. constructor; [done|].
    eapply Forall_impl; [exact Hy|]. simpl. intros z Hz. lia.
  - constructor; [done|].
    rewrite sort_insert_Permutation. constructor; [lia|done].
Qed.

Lemma sort_by_sorted {A} (k : A -> Z) (l : list A) :
  StronglySorted (fun a b => k a <= k b) (sort_by k l).
Proof.
  induction l as [|x l IH]; simpl; [constructor|]. by apply sort_insert_sorted.
Qed.

Lemma NoDup_map_injective {A B} (k : A -> B) (l : list A) x y :
  NoDup (List.map k l) -> x ∈ l -> y ∈ l -> k x = k y -> x = y.
Proof.
  induction l as [|z l IH]; simpl; [by intros _ ?%elem_of_nil|].
  rewrite NoDup_cons. intros [Hz Hl] [->|Hx]%elem_of_cons [->|Hy]%elem_of_cons Hk; auto.
  - exfalso. apply Hz. rewrite Hk. apply map_elem_of. eauto.
  - exfalso. apply Hz. rewrite <- Hk. apply map_elem_of. eauto.
Qed.

(** With distinct keys the sorted list does not depend on the order of the
    input. *)
Lemma sort_by_Permutation_unique {A} (k : A -> Z) (l l' : list A) :
  l ≡ₚ l' -> NoDup (List.map k l) -> sort_by k l = sort_by k l'.
Proof.
  intros Hp Hnd.
  apply (StronglySorted_unique_strong (fun a b => k a <= k b)).
  - intros x1 x2 H1 H2 Hle Hge. apply (NoDup_map_injective k l); [done| | |lia].
    + by rewrite sort_by_Permutation in H1.
    + by rewrite sort_by_Permutation, <- Hp in H2.
  - apply sort_by_sorted.
  - apply sort_by_sorted.
  - by rewrite !sort_by_Permutation.
Qed.

(** ** What the top-level sequence depends on *)

Lemma ungrouped_items_view bs :
  List.map item_view (ungrouped_items bs) =
    List.map (fun b => (block_, id b, or_zero (order b)))
      (List.filter (fun b => negb (truthy_groupId (groupId b))) bs).
Proof.
  unfold ungrouped_items, indexed.
  rewrite <- (filter_indexed_snd (fun b => negb (truthy_groupId (groupId b))) 0 bs).
  rewrite !List.map_map. done.
Qed.

Lemma group_items_view_from bs gs n :
  List.map item_view
    (flat_map (fun e => let '(pos, (groupId_, group)) := e in
                 if (0 <? length (group_members bs groupId_))%nat
                 then [GroupItem pos group (group_members bs groupId_) (or_zero (gorder group))]
                 else []) (indexed_from n gs))
  = List.map (fun e => (group_, gid (snd e), or_zero (gorder (snd e))))
      (List.filter (fun e => (0 <? length (List.filter (fun b => groupId_is (groupId b) (fst e)) bs))%nat) gs).
Proof.
  revert n. induction gs as [|[k g] gs IH]; intros n; [done|].
  rewrite indexed_from_cons. cbn [flat_map]. rewrite map_app, IH. simpl.
  unfold group_members at 1, indexed.
  rewrite (filter_indexed_length (fun b => groupId_is (groupId b) k)).
  by destruct (0 <? _)%nat.
Qed.

Lemma group_items_view bs gs :
  List.map item_view (group_items bs gs) =
    List.map (fun e => (group_, gid (snd e), or_zero (gorder (snd e))))
      (List.filter (fun e => (0 <? length (List.filter (fun b => groupId_is (groupId b) (fst e)) bs))%nat) gs).
Proof. apply group_items_view_from. Qed.

Lemma sequence_view_sorted s :
  sequence_view s =
    sort_by snd (List.map item_view (ungrouped_items (blocks s) ++ group_items (blocks s) (groups s))).
Proof.
  unfold sequence_view, getAllOrderedItems.
  by rewrite (sort_by_map snd item_view).
Qed.

Lemma filter_ext_elem {A} (p q : A -> bool) (l : list A) :
  (forall x, p x = q x) -> List.filter p l = List.filter q l.
Proof. intros H. apply filter_ext. exact H. Qed.

Lemma base_view_Permutation s s' :
  blocks s' ≡ₚ blocks s -> groups s' ≡ₚ groups s ->
  List.map item_view (ungrouped_items (blocks s') ++ group_items (blocks s') (groups s')) ≡ₚ
  List.map item_view (ungrouped_items (blocks s) ++ group_items (blocks s) (groups s)).
Proof.
  intros Hb Hg. rewrite !map_app, !ungrouped_items_view, !group_items_view.
  apply Permutation_app.
  - by apply Permutation_map, List_filter_Permutation.
  - apply Permutation_map.
    rewrite (List_filter_Permutation _ _ _ Hg).
    erewrite filter_ext_elem; [done|]. intros [k g]. simpl.
    by rewrite (List_filter_Permutation _ _ _ Hb).
Qed.

Lemma distinct_orders_base s :
  distinct_orders s ->
  NoDup (List.map snd
    (List.map item_view (ungrouped_items (blocks s) ++ group_items (blocks s) (groups s)))).
Proof.
  unfold distinct_orders, getAllOrderedItems. rewrite List.map_map. simpl.
  intros H. eapply (Permutation_NoDup_map item_order); [|exact H].
  symmetry. apply sort_by_Permutation.
Qed.

Lemma reordering_keeps_sequence s s' :
  blocks s' ≡ₚ blocks s -> groups s' ≡ₚ groups s -> distinct_orders s ->
  sequence_view s' = sequence_view s.
Proof.
  intros Hb Hg Hd. rewrite !sequence_view_sorted.
  symmetry. apply sort_by_Permutation_unique.
  - symmetry. by apply base_view_Permutation.
  - by apply distinct_orders_base.
Qed.

(** X7: [handleDrop] and [handleGroupDrop] reorder [this.blocks] and the
    entries of [this.groups], but the page is sorted by [order]: when the
    items of the top-level sequence have distinct [order]s, the sequence
    after a drop is the sequence before, item for item. *)
Theorem drop_keeps_rendered_order (a b : string) (s : State) :
  distinct_orders s ->
  sequence_view (state_of (handleDrop a b s)) = sequence_view s /\
  sequence_view (state_of (handleGroupDrop a b s)) = sequence_view s.
Proof.
  intros Hd. split.
  - destruct (handleDrop_blocks a b s) as (Hb & Hg & _).
    apply reordering_keeps_sequence; [done| |done]. by rewrite Hg.
  - destruct (handleGroupDrop_groups a b s) as (Hg & Hb & _).
    apply reordering_keeps_sequence; [|done|done]. by rewrite Hb.
Qed.

Lemma drop_keeps_rendered_order_witness :
  distinct_orders three_blocks /\
  List.map id (blocks (state_of (handleDrop "b1" "b3" three_blocks))) = ["b2"; "b3"; "b1"] /\
  sequence_view (state_of (handleDrop "b1" "b3" three_blocks)) = sequence_view three_blocks.
Proof.
  assert (H : distinct_orders three_blocks)
    by (apply (bool_decide_unpack _); by vm_compute).
  split; [exact H|]. split; [reflexivity|].
  exact (proj1 (drop_keeps_rendered_order "b1" "b3" three_blocks H)).
Defined.

(** ** Substitution *)

Lemma key_pattern_compile k atoms :
  compile (key_pattern k) = Some atoms ->
  exists rest, atoms = Lit "{" :: Lit "{" :: rest.
Proof.
  unfold compile, key_pattern. rewrite !append_cons, append_nil. simpl.
  destruct (compile_from false (k +:+ "\}\}")) as [rest|]; simpl; [|done].
  intros [= <-]. eauto.
Qed.

Lemma no_match_without_braces rest s :
  startsWith s "{{" = false -> match_here (Lit "{" :: Lit "{" :: rest) s = None.
Proof.
  destruct s as [|a s]; [done|]. rewrite startsWith_cons. cbn [match_here matches_atom].
  destruct (Ascii.eqb_spec "{" a) as [<-|]; [|done].
  destruct s as [|b s]; [done|]. rewrite startsWith_cons. cbn [match_here matches_atom].
  destruct (Ascii.eqb_spec "{" b) as [<-|]; [|done].
  by destruct s.
Qed.

Lemma replace_from_no_braces rest repl before s :
  includes s "{{" = false ->
  replace_from (Lit "{" :: Lit "{" :: rest) repl 0 before s = s.
Proof.
  revert before. induction s as [|a s IH]; intros before; [done|].
  cbn [includes]. intros [Hhere Hrest]%orb_false_elim.
  cbn [replace_from]. rewrite (no_match_without_braces rest _ Hhere).
  by rewrite IH.
Qed.

Lemma replace_all_no_braces k atoms repl s :
  compile (key_pattern k) = Some atoms -> includes s "{{" = false ->
  replace_all atoms repl s = s.
Proof.
  intros [rest ->]%key_pattern_compile Hs. by apply replace_from_no_braces.
Qed.

Lemma substitute_fold_no_braces js vars vars' text :
  keys_compile vars = true -> keys_compile vars' = true ->
  includes text "{{" = false ->
  fold_left (substitute_step js vars) vars' (Some text) = Some text.
Proof.
  intros Hvars Hk Htext. induction vars' as [|v vars' IH]; [done|].
  simpl in Hk. apply andb_prop in Hk as [Hv Hk]. cbn [fold_left].
  unfold substitute_step at 2. cbn [mbind option_bind].
  destruct (String.eqb (key v) "") eqn:Hkey; simpl; [by apply IH|].
  simpl in Hv. destruct (compile (key_pattern (key v))) as [atoms|] eqn:Hc; [|done].
  cbn [mbind option_bind].
  assert (Hval : exists w, (if includes (value v) "{{" && includes (value v) "}}"
                            then evaluateExpression js vars (value v)
                            else Some (value v)) = Some w).
  { destruct (_ && _); [by apply evaluateExpression_defined|by eauto]. }
  destruct Hval as [w ->]. cbn [mbind option_bind].
  rewrite (replace_all_no_braces _ _ _ _ Hc Htext). by apply IH.
Qed.

(** X9: a text without [{{] goes through [substituteVariables] unchanged,
    whatever the variables (their keys being of the covered kind) and
    whatever [eval] does. *)
Theorem substituteVariables_without_braces
    (js_eval : string -> option string) (vars : list Variable_) (text : string) :
  keys_compile vars = true -> includes text "{{" = false ->
  substituteVariables js_eval vars text = Some text.
Proof. intros Hk Ht. by apply substitute_fold_no_braces. Qed.

Lemma substituteVariables_without_braces_witness :
  keys_compile price_variables = true /\
  includes "Total: {price} }}" "{{" = false /\
  substituteVariables eval_binary64 price_variables "Total: {price} }}"
    = Some "Total: {price} }}".
Proof.
  split; [reflexivity|]. split; [reflexivity|].
  apply (substituteVariables_without_braces eval_binary64 price_variables); reflexivity.
Defined.

Lemma fold_left_ext_fun {A B} (f g : A -> B -> A) (l : list B) a :
  (forall x y, f x y = g x y) -> fold_left f l a = fold_left g l a.
Proof.
  intros H. revert a. induction l as [|y l IH]; intros a; [done|].
  simpl. by rewrite H, IH.
Qed.

Lemma evaluateExpression_ext js1 js2 vars e :
  (forall x, test_arith x = true -> js1 x = js2 x) ->
  evaluateExpression js1 vars e = evaluateExpression js2 vars e.
Proof.
  intros H. unfold evaluateExpression.
  destruct (fold_left _ _ _) as [r|]; [|done]. cbn [mbind option_bind].
  destruct (test_arith _) eqn:Ht; [|done]. by rewrite (H _ Ht).
Qed.

Lemma substituteVariables_ext js1 js2 vars text :
  (forall x, test_arith x = true -> js1 x = js2 x) ->
  substituteVariables js1 vars text = substituteVariables js2 vars text.
Proof.
  intros H. unfold substituteVariables. apply fold_left_ext_fun.
  intros r v. unfold substitute_step. by rewrite (evaluateExpression_ext js1 js2 vars _ H).
Qed.

Lemma emit_block_ext js1 js2 vars m b :
  (forall x, test_arith x = true -> js1 x = js2 x) ->
  emit_block js1 vars m b = emit_block js2 vars m b.
Proof.
  intros H. unfold emit_block. destruct m as [m|]; [|done].
  destruct (block_text b) as [c|]; [|done]. cbn [mbind option_bind].
  by rewrite (substituteVariables_ext js1 js2 vars _ H).
Qed.

(** X10: [eval] only ever sees texts made of digits, white space and
    [+ - * / ( ) .]: two engines that agree on those texts give the same
    [evaluateExpression], [substituteVariables] and [generateMarkdown] on
    every input. *)
Theorem eval_sees_arithmetic_only (js1 js2 : string -> option string) :
  (forall e, test_arith e = true -> js1 e = js2 e) ->
  (forall vars e, evaluateExpression js1 vars e = evaluateExpression js2 vars e) /\
  (forall vars text, substituteVariables js1 vars text = substituteVariables js2 vars text) /\
  (forall s, generateMarkdown js1 s = generateMarkdown js2 s).
Proof.
  intros H. split; [|split].
  - intros vars e. by apply evaluateExpression_ext.
  - intros vars text. by apply substituteVariables_ext.
  - intros s. unfold generateMarkdown. f_equal. apply fold_left_ext_fun.
    intros m [pos b o|pos g members o]; simpl.
    + by apply emit_block_ext.
    + apply fold_left_ext_fun. intros m' b. by apply emit_block_ext.
Qed.

Lemma eval_sees_arithmetic_only_witness :
  (forall e, test_arith e = true -> eval_binary64 e = eval_or_marker e) /\
  eval_binary64 "{{price}}" <> eval_or_marker "{{price}}" /\
  generateMarkdown eval_binary64 priced_document = Some "Total: 200" /\
  generateMarkdown eval_or_marker priced_document = Some "Total: 200".
Proof.
  assert (H : forall e, test_arith e = true -> eval_binary64 e = eval_or_marker e).
  { intros e He. unfold eval_or_marker. by rewrite He. }
  split; [exact H|]. split; [discriminate|]. split; [reflexivity|].
  rewrite <- (proj2 (proj2 (eval_sees_arithmetic_only eval_binary64 eval_or_marker H))
                priced_document).
  reflexivity.
Defined.

(** ** Tables as text *)

Lemma fold_cells_closed cells m :
  fold_left (fun m cell => m +:+ " " +:+ cell +:+ " |") cells m =
    m +:+ concat_strings (List.map (fun cell => " " +:+ cell +:+ " |") cells).
Proof.
  revert m. induction cells as [|c cells IH]; intros m; simpl.
  - by rewrite app_nil_r_s.
  - rewrite IH. by rewrite !app_assoc_s.
Qed.

Lemma fold_separators_closed {A} (cells : list A) m :
  fold_left (fun m _ => m +:+ " --- |") cells m =
    m +:+ concat_strings (List.map (fun cell => " " +:+ cell +:+ " |")
                            (List.map (fun _ => "---") cells)).
Proof.
  revert m. induction cells as [|c cells IH]; intros m; simpl.
  - by rewrite app_nil_r_s.
  - rewrite IH. by rewrite !app_assoc_s.
Qed.

Lemma fold_rows_closed (rs : list (list string)) m :
  fold_left (fun m row =>
      fold_left (fun m cell => m +:+ " " +:+ cell +:+ " |") row (m +:+ "|") +:+ nl) rs m =
    m +:+ concat_strings (List.map (fun row => row_line row +:+ nl) rs).
Proof.
  revert m. induction rs as [|r rs IH]; intros m; simpl.
  - by rewrite app_nil_r_s.
  - rewrite IH, fold_cells_closed. unfold row_line. by rewrite !app_assoc_s.
Qed.

(** X12: [generateTableMarkdown] writes the header line, a separator line
    with one [---] per column, and one line per row, each line ending with
    a line feed; a cell is written as it is, between a space and [ |]. *)
Theorem generateTableMarkdown_lines (t : TableContent) :
  generateTableMarkdown t =
    row_line (headers t) +:+ nl +:+
    row_line (List.map (fun _ => "---") (headers t)) +:+ nl +:+
    concat_strings (List.map (fun row => row_line row +:+ nl) (rows t)).
Proof.
  unfold generateTableMarkdown.
  rewrite fold_rows_closed, fold_separators_closed, fold_cells_closed.
  unfold row_line. by rewrite !app_assoc_s.
Qed.

(** ** Variables without a key *)

Lemma fold_left_filter_skip {A B} (f : A -> B -> A) (p : B -> bool) (l : list B) a :
  (forall x y, p y = false -> f x y = x) ->
  fold_left f (List.filter p l) a = fold_left f l a.
Proof.
  intros H. revert a. induction l as [|y l IH]; intros a; [done|].
  simpl. destruct (p y) eqn:Hp; simpl; [apply IH|]. by rewrite (H a y Hp), IH.
Qed.

Lemma evaluate_step_inactive r v : is_active v = false -> evaluate_step r v = r.
Proof.
  unfold is_active, evaluate_step. intros H%negb_false_iff. rewrite H.
  by destruct r.
Qed.

Lemma substitute_step_inactive js vars r v :
  is_active v = false -> substitute_step js vars r v = r.
Proof.
  unfold is_active, substitute_step. intros H%negb_false_iff. rewrite H.
  by destruct r.
Qed.

Lemma evaluateExpression_active js vars e :
  evaluateExpression js (List.filter is_active vars) e = evaluateExpression js vars e.
Proof.
  unfold evaluateExpression.
  by rewrite (fold_left_filter_skip evaluate_step is_active vars _ evaluate_step_inactive).
Qed.

Lemma substituteVariables_active js vars text :
  substituteVariables js (List.filter is_active vars) text = substituteVariables js vars text.
Proof.
  unfold substituteVariables.
  rewrite (fold_left_filter_skip _ is_active vars _ (substitute_step_inactive js _)).
  apply fold_left_ext_fun. intros r v. unfold substitute_step.
  by rewrite evaluateExpression_active.
Qed.

Lemma generateMarkdown_vars js s s' :
  blocks s' = blocks s -> groups s' = groups s ->
  List.filter is_active (vars_of s') = List.filter is_active (vars_of s) ->
  generateMarkdown js s' = generateMarkdown js s.
Proof.
  intros Hb Hg Hv. unfold generateMarkdown, getAllOrderedItems. rewrite Hb, Hg.
  f_equal. apply fold_left_ext_fun.
  assert (He : forall m b, emit_block js (vars_of s') m b = emit_block js (vars_of s) m b).
  { intros m b. unfold emit_block. destruct m as [m|]; [|done].
    destruct (block_text b) as [c|]; [|done]. cbn [mbind option_bind].
    by rewrite <- (substituteVariables_active js (vars_of s')), Hv,
      substituteVariables_active. }
  intros m [pos b o|pos g members o]; simpl; [apply He|].
  apply fold_left_ext_fun. intros m' b. apply He.
Qed.

(** X11: variables with an empty key are inactive: [substituteVariables]
    and [evaluateExpression] give what they give without them.  So
    [addVariable('', value)] with a new id (the Add button) appends the
    variable, leaves the generated Markdown as it was, and [deleteVariable]
    of that id restores the store. *)
Theorem keyless_variables_are_inactive
    (js_eval : string -> option string) (s : State) (variableId value_ : string) :
  (forall vars text,
     substituteVariables js_eval (List.filter is_active vars) text =
     substituteVariables js_eval vars text) /\
  (forall vars e,
     evaluateExpression js_eval (List.filter is_active vars) e =
     evaluateExpression js_eval vars e) /\
  (map_has variableId (variables s) = false ->
   let s' := state_of (addVariable "" value_ variableId s) in
   variables s' = variables s ++ [(variableId, mkVariable "" value_)] /\
   generateMarkdown js_eval s' = generateMarkdown js_eval s /\
   deleteVariable variableId s' = Returned s).
Proof.
  split; [|split].
  - intros vars text. apply substituteVariables_active.
  - intros vars e. apply evaluateExpression_active.
  - intros Hnew s'. unfold s'. simpl. rewrite (map_set_new _ _ _ Hnew).
    split; [done|]. split.
    + apply generateMarkdown_vars; [done|done|]. unfold vars_of. simpl.
      rewrite map_app, List.filter_app. simpl. by rewrite app_nil_r.
    + unfold deleteVariable. simpl. f_equal. destruct s as [bs vs gs n]. simpl in *.
      f_equal. unfold map_delete. rewrite List.filter_app. simpl.
      rewrite String.eqb_refl. simpl. rewrite app_nil_r.
      apply List_filter_all. intros [k v] Hin. simpl.
      destruct (String.eqb_spec k variableId) as [->|]; [|done].
      assert (map_has variableId vs = true); [|congruence].
      apply map_has_elem_of, map_elem_of. by exists (variableId, v).
Qed.

(** ** Map updates in place *)

Lemma map_get_set_eq {V} k (v : V) m : map_get k (map_set k v m) = Some v.
Proof.
  induction m as [|[k' v'] m IH]; simpl; [by rewrite String.eqb_refl|].
  destruct (String.eqb k' k) eqn:Hk; simpl; by rewrite Hk.
Qed.

Lemma map_get_set_ne {V} k k' (v : V) m : k <> k' -> map_get k' (map_set k v m) = map_get k' m.
Proof.
  intros Hne. induction m as [|[k0 v0] m IH]; simpl.
  - by destruct (String.eqb_spec k k').
  - destruct (String.eqb_spec k0 k) as [->|]; simpl.
    + by destruct (String.eqb_spec k k').
    + by rewrite IH.
Qed.

Lemma map_get_has {V} k (m : list (string * V)) :
  map_has k m = match map_get k m with Some _ => true | None => false end.
Proof.
  induction m as [|[k' v] m IH]; simpl; [done|]. by destruct (String.eqb k' k).
Qed.

(** X13: [handleVariableInput] edits a stored variable in place: the ids
    keep their iteration order, the edited variable reads back with the new
    field, every other variable reads back as before, and an id that is not
    stored changes nothing. *)
Theorem handleVariableInput_in_place (variableId field value_ : string) (s : State) :
  (forall variable,
     map_get variableId (variables s) = Some variable ->
     exists s',
       handleVariableInput variableId field value_ s = Returned s' /\
       List.map fst (variables s') = List.map fst (variables s) /\
       map_get variableId (variables s') = Some (set_field field value_ variable) /\
       (forall other, other <> variableId ->
          map_get other (variables s') = map_get other (variables s)) /\
       blocks s' = blocks s /\ groups s' = groups s /\ groupCounter s' = groupCounter s) /\
  (map_get variableId (variables s) = None ->
   handleVariableInput variableId field value_ s = Returned s).
Proof.
  split.
  - intros variable Hget. unfold handleVariableInput. rewrite Hget.
    eexists. split; [reflexivity|]. simpl.
    split; [|split; [apply map_get_set_eq|split; [|done]]].
    + rewrite map_set_keys, map_get_has, Hget. done.
    + intros other Hne. apply map_get_set_ne. congruence.
  - intros Hnone. unfold handleVariableInput. by rewrite Hnone.
Qed.

(** ** The blocks of an import *)

Lemma built_from_first lines t x :
  x ∈ lines -> classify x = Some t -> blank_line x = false -> built_from lines t x.
Proof.
  intros Hx Hc Hb. exists x, []. split; [done|]. split; [done|].
  split; [by repeat constructor|done].
Qed.

Lemma built_from_append lines t c x :
  built_from lines t c -> t <> Heading -> x ∈ lines -> blank_line x = false ->
  built_from lines t (c +:+ nl +:+ x).
Proof.
  intros (l & ls & -> & Hc & Hall & _) Ht Hx Hb.
  exists l, (ls ++ [x]). split; [by rewrite fold_left_app|]. split; [done|]. split; [|done].
  rewrite app_comm_cons. apply Forall_app. split; [done|]. by repeat constructor.
Qed.

Lemma finish_built lines ids cur bs :
  Forall (block_built_from lines) bs ->
  (forall t c, cur = Some (t, c) -> built_from lines t c) ->
  Forall (block_built_from lines) (finishCurrentBlock ids cur bs).
Proof.
  intros Hbs Hcur. destruct cur as [[t c]|]; [|done]. simpl.
  apply Forall_app. split; [done|]. constructor; [|done].
  exists c. split; [done|]. by apply Hcur.
Qed.

Lemma draft_is_Some t cur :
  draft_is t cur = true -> exists c, cur = Some (t, c).
Proof.
  destruct cur as [[t' c]|]; [|done]. simpl. intros H. exists c.
  by destruct t', t.
Qed.

Lemma import_line_inv lines ids st x :
  x ∈ lines -> import_inv lines st -> import_inv lines (import_line ids st x).
Proof.
  intros Hx [Hbs Hcur]. destruct st as [bs cur]. simpl in Hbs, Hcur.
  unfold import_line, import_inv.
  destruct (startsWith x "#") eqn:Hh.
  { split; [by apply finish_built|]. simpl. intros t c [= <- <-].
    apply built_from_first; [done| |by apply heading_not_blank].
    unfold classify, heading_line. by rewrite Hh. }
  destruct (startsWith x "```") eqn:Hf.
  { assert (Hcl : classify x = Some Code).
    { unfold classify, heading_line, fence_line. by rewrite Hh, Hf. }
    destruct (draft_is Code cur) eqn:Hd.
    - destruct (draft_is_Some _ _ Hd) as [c ->]. simpl. split; [|done].
      apply Forall_app. split; [done|]. constructor; [|done].
      exists (c +:+ nl +:+ x). split; [done|]. simpl.
      apply built_from_append; [by apply Hcur|done|done|by apply fence_not_blank].
    - split; [by apply finish_built|]. simpl. intros t c [= <- <-].
      apply built_from_first; [done|done|by apply fence_not_blank]. }
  destruct (startsWith x "- " || startsWith x "* ") eqn:Hl.
  { assert (Hcl : classify x = Some ListT).
    { unfold classify, heading_line, fence_line, list_line. by rewrite Hh, Hf, Hl. }
    destruct (draft_is ListT cur) eqn:Hd.
    - destruct (draft_is_Some _ _ Hd) as [c ->]. simpl. split; [done|].
      intros t c' [= <- <-].
      apply built_from_append; [by apply Hcur|done|done|by apply list_not_blank].
    - split; [by apply finish_built|]. simpl. intros t c [= <- <-].
      apply built_from_first; [done|done|by apply list_not_blank]. }
  destruct (String.eqb (trim x) "") eqn:Hb; simpl; [done|].
  assert (Hcl : classify x = Some Paragraph).
  { unfold classify, heading_line, fence_line, list_line, blank_line.
    by rewrite Hh, Hf, Hl, Hb. }
  destruct (draft_is Paragraph cur) eqn:Hp.
  { destruct (draft_is_Some _ _ Hp) as [c ->]. simpl. split; [done|].
    intros t c' [= <- <-]. apply built_from_append; [by apply Hcur|done|done|done]. }
  destruct (draft_is Code cur || draft_is ListT cur) eqn:Hcl'.
  { apply orb_prop in Hcl' as [Hd|Hd];
      destruct (draft_is_Some _ _ Hd) as [c ->]; simpl; (split; [done|]);
      intros t c' [= <- <-]; apply built_from_append; try done; by apply Hcur. }
  split; [by apply finish_built|]. simpl. intros t c [= <- <-].
  by apply built_from_first.
Qed.

Lemma import_lines_inv lines ids ls st :
  (forall x, x ∈ ls -> x ∈ lines) -> import_inv lines st ->
  import_inv lines (fold_left (import_line ids) ls st).
Proof.
  revert st. induction ls as [|x ls IH]; intros st Hls Hst; [done|].
  simpl. apply IH.
  - intros y Hy. apply Hls. by right.
  - apply import_line_inv; [|done]. apply Hls. by left.
Qed.

Lemma imported_built ids markdown s :
  Forall (block_built_from (split_lines markdown))
    (blocks (state_of (importMarkdown ids markdown s))).
Proof.
  rewrite importMarkdown_blocks. unfold flush.
  destruct (import_lines_inv (split_lines markdown) ids (split_lines markdown) ([], None))
    as [Hbs Hcur]; [done|by split|].
  by apply finish_built.
Qed.

Lemma imported_fresh ids markdown s :
  fresh_import ids (blocks (state_of (importMarkdown ids markdown s))).
Proof.
  rewrite importMarkdown_blocks. unfold flush.
  apply finishCurrentBlock_fresh.
  apply (import_lines_fresh ids (split_lines markdown) ([], None)).
  intros k b Hk. done.
Qed.

(** X14: every block that [importMarkdown] produces holds text put
    together from lines of the input: a first line whose kind is the type
    of the block, then further lines joined by line feeds; no such line is
    blank, a heading has no further line, and no block is a table.  A text
    whose lines are all blank gives no block. *)
Theorem imported_blocks_are_built_from_lines
    (ids : nat -> string) (markdown : string) (s : State) :
  let imported := blocks (state_of (importMarkdown ids markdown s)) in
  (forall b, b ∈ imported ->
     type b <> Table /\
     exists l ls,
       content b = Text (fold_left add_line ls l) /\
       classify l = Some (type b) /\
       (forall x, x ∈ l :: ls -> x ∈ split_lines markdown /\ blank_line x = false) /\
       (type b = Heading -> ls = [])) /\
  (forallb blank_line (split_lines markdown) = true -> imported = []).
Proof.
  intros imported.
  assert (Hall : Forall (block_built_from (split_lines markdown)) imported)
    by apply imported_built.
  assert (Hb : forall b, b ∈ imported ->
     type b <> Table /\
     exists l ls,
       content b = Text (fold_left add_line ls l) /\
       classify l = Some (type b) /\
       (forall x, x ∈ l :: ls -> x ∈ split_lines markdown /\ blank_line x = false) /\
       (type b = Heading -> ls = [])).
  { intros b Hin.
    destruct (proj1 (Forall_forall _ _) Hall b Hin) as (c & Hc & l & ls & -> & Hcl & Hls & Hh).
    split.
    - intros Ht. rewrite Ht in Hcl. unfold classify in Hcl. by repeat case_match.
    - exists l, ls. split; [done|]. split; [done|]. split; [|done].
      intros x Hx. by apply (proj1 (Forall_forall _ _) Hls x). }
  split; [exact Hb|].
  intros Hblank. destruct imported as [|b bs]; [done|]. exfalso.
  destruct (Hb b) as (_ & l & ls & _ & _ & Hls & _); [by left|].
  destruct (Hls l) as [Hin Hnb]; [by left|].
  apply list_elem_of_In in Hin.
  pose proof (proj1 (forallb_forall _ _) Hblank l Hin). congruence.
Qed.

(** ** The page after an import *)

Lemma sort_insert_const {A} (k : A -> Z) c x (l : list A) :
  k x = c -> (forall y, y ∈ l -> k y = c) -> sort_insert k x l = x :: l.
Proof.
  intros Hx Hl. destruct l as [|y l]; [done|]. simpl.
  rewrite Hx, (Hl y) by (by left). by rewrite Z.leb_refl.
Qed.

Lemma sort_by_const {A} (k : A -> Z) c (l : list A) :
  (forall y, y ∈ l -> k y = c) -> sort_by k l = l.
Proof.
  induction l as [|x l IH]; intros Hl; [done|]. simpl.
  rewrite IH by (intros y Hy; apply Hl; by right).
  apply (sort_insert_const k c); [apply Hl; by left|].
  intros y Hy. apply Hl. by right.
Qed.

Lemma unordered_sequence s :
  flat_text_doc s = true -> (forall b, b ∈ blocks s -> order b = None) ->
  sequence_ids s = block_ids s.
Proof.
  intros Hflat Hord. unfold sequence_ids, block_ids.
  rewrite flat_items by done.
  rewrite (sort_by_const _ 0).
  - rewrite List.map_map. simpl.
    rewrite <- (indexed_from_snd 0 (blocks s)) at 2. by rewrite List.map_map.
  - intros [p b] Hpb. apply indexed_lookup in Hpb. simpl.
    rewrite (Hord b); [done|]. by eapply list_elem_of_lookup_2.
Qed.

Lemma imported_flat ids markdown s :
  flat_text_doc (state_of (importMarkdown ids markdown s)) = true /\
  forall b, b ∈ blocks (state_of (importMarkdown ids markdown s)) -> order b = None.
Proof.
  pose proof (imported_fresh ids markdown s) as Hfresh.
  pose proof (imported_built ids markdown s) as Htext.
  split.
  - apply forallb_forall. intros b Hb. apply list_elem_of_In in Hb.
    destruct (proj1 (Forall_forall _ _) Htext b Hb) as (c & Hc & l & ls & _ & Hcl & _).
    apply list_elem_of_lookup in Hb as [k Hk].
    destruct (Hfresh k b Hk) as (_ & Hg & _ & _).
    unfold is_flat_text. rewrite Hg, Hc.
    destruct (type b); try done. exfalso. unfold classify in Hcl.
    by destruct (heading_line l), (fence_line l), (list_line l), (blank_line l).
  - intros b Hb. apply list_elem_of_lookup in Hb as [k Hk].
    by destruct (Hfresh k b Hk) as (_ & _ & _ & Ho).
Qed.

Lemma flat_text_doc_Permutation s s' :
  blocks s' ≡ₚ blocks s -> flat_text_doc s = true -> flat_text_doc s' = true.
Proof.
  intros Hp Hs. apply forallb_forall. intros b Hb.
  apply (proj1 (forallb_forall _ _) Hs). apply list_elem_of_In.
  rewrite <- Hp. by apply list_elem_of_In.
Qed.

(** X15: after [importMarkdown] the page shows the imported blocks in the
    order of [this.blocks], and keeps doing so after [handleDrop]: without
    any [order] the stable sort leaves the array order, so dragging moves a
    block on the page.  The variables, the groups and the counter are the
    ones before the import. *)
Theorem import_shows_blocks_in_array_order
    (ids : nat -> string) (markdown a b : string) (s : State) :
  let s' := state_of (importMarkdown ids markdown s) in
  sequence_ids s' = block_ids s' /\
  sequence_ids (state_of (handleDrop a b s')) = block_ids (state_of (handleDrop a b s')) /\
  variables s' = variables s /\ groups s' = groups s /\ groupCounter s' = groupCounter s.
Proof.
  intros s'. destruct (imported_flat ids markdown s) as [Hflat Hord]. fold s' in Hflat, Hord.
  split; [by apply unordered_sequence|]. split.
  - destruct (handleDrop_blocks a b s') as (Hp & _).
    apply unordered_sequence.
    + by apply (flat_text_doc_Permutation s').
    + intros x Hx. apply Hord. by rewrite <- Hp.
  - unfold s', importMarkdown. by destruct (fold_left _ _ _).
Qed.

(** ** Rows and columns, added and removed *)

Lemma splice1_last {A} (l : list A) x : splice1 (l ++ [x]) (-1) = l.
Proof.
  unfold splice1, splice_start. rewrite length_app. simpl.
  replace (Z.to_nat (Z.max (Z.of_nat (length l + 1) + -1) 0)) with (length l) by lia.
  rewrite take_app_length. rewrite drop_ge by (rewrite length_app; simpl; lia).
  by rewrite app_nil_r.
Qed.

Lemma splice1_past_end {A} (l : list A) i :
  Z.of_nat (length l) <= i -> splice1 l i = l.
Proof.
  intros Hi. unfold splice1, splice_start.
  destruct (Z.ltb_spec i 0); [lia|].
  replace (Z.to_nat (Z.min i (Z.of_nat (length l)))) with (length l) by lia.
  rewrite take_ge, drop_ge by lia. by rewrite app_nil_r.
Qed.

Lemma splice1_in_range {A} (l : list A) (k : nat) :
  (k < length l)%nat -> splice1 l (Z.of_nat k) = take k l ++ drop (S k) l.
Proof.
  intros Hk. unfold splice1. rewrite splice_start_in_range by lia. by rewrite Nat2Z.id.
Qed.

Lemma splice1_from_end {A} (l : list A) (k : nat) :
  (1 <= k <= length l)%nat ->
  splice1 l (- Z.of_nat k) = take (length l - k) l ++ drop (S (length l - k)) l.
Proof.
  intros Hk. unfold splice1, splice_start.
  destruct (Z.ltb_spec (- Z.of_nat k) 0); [|lia].
  replace (Z.to_nat (Z.max (Z.of_nat (length l) + - Z.of_nat k) 0))
    with (length l - k)%nat by lia.
  done.
Qed.

Lemma splice1_before_start {A} (l : list A) i :
  i < - Z.of_nat (length l) -> splice1 l i = drop 1 l.
Proof.
  intros Hi. unfold splice1, splice_start.
  destruct (Z.ltb_spec i 0); [|lia].
  replace (Z.to_nat (Z.max (Z.of_nat (length l) + i) 0)) with 0%nat by lia.
  done.
Qed.

Lemma table_eta t : mkTable (headers t) (rows t) = t.
Proof. by destruct t. Qed.

Lemma findIndex_from_map {A} (p : A -> bool) (l : list A) n :
  findIndex_from p l n = findIndex_from (fun b : bool => b) (List.map p l) n.
Proof.
  revert n. induction l as [|x l IH]; intros n; [done|]. simpl. by rewrite IH.
Qed.

Lemma findIndex_alter {A} (p : A -> bool) (f : A -> A) k (l : list A) :
  (forall x, p (f x) = p x) -> findIndex p (alter f k l) = findIndex p l.
Proof.
  intros H. unfold findIndex. rewrite !(findIndex_from_map p).
  by rewrite map_alter_same.
Qed.

Lemma on_table_compose blockId f g s t :
  table_of blockId s = Some t -> f (g t) = t ->
  exists s', on_table blockId g s = Returned s' /\ on_table blockId f s' = Returned s.
Proof.
  unfold table_of. intros Ht Hfg.
  destruct (List.find (has_id blockId) (blocks s)) as [b|] eqn:Hfind; [|done].
  destruct (findIndex_found _ _ _ Hfind) as (k & Hk & Hlk & Hid).
  destruct (content b) as [c|t'] eqn:Hc; [done|]. injection Ht as ->.
  unfold on_table at 1. rewrite Hk, at_index_nat, Hlk, Nat2Z.id, Hc.
  destruct (BlockType_eqb (type b) Table) eqn:Hty.
  - eexists. split; [reflexivity|]. unfold on_table. simpl blocks.
    rewrite findIndex_alter by done.
    rewrite Hk, at_index_nat, Nat2Z.id, list_lookup_alter_eq, Hlk. simpl.
    rewrite Hty, Hfg. f_equal.
    destruct s as [bs vs gs n]. unfold with_blocks. simpl in *. f_equal.
    apply list_eq. intros j. rewrite list_alter_alter_eq.
    rewrite list_lookup_alter. destruct (decide (k = j)) as [<-|]; [|done].
    rewrite Hlk. simpl. f_equal. destruct b. simpl in *. by rewrite Hc.
  - exists s. split; [done|]. unfold on_table. rewrite Hk, at_index_nat, Hlk, Hty. done.
Qed.

Lemma map_splice1_last (rs : list (list string)) x :
  List.map (fun row => splice1 row (-1)) (List.map (fun row => row ++ [x]) rs) = rs.
Proof.
  rewrite List.map_map. rewrite <- (map_id rs) at 2. apply map_ext.
  intros row. apply splice1_last.
Qed.

(** X16: on a table block, [deleteTableRow(id, -1)] undoes
    [addTableRow(id)] and [deleteTableColumn(id, -1)] undoes
    [addTableColumn(id)]: the state is the one before, when the table had a
    row, respectively a column, to begin with. *)
Theorem table_add_then_delete_last (blockId : string) (s : State) (t : TableContent) :
  table_of blockId s = Some t ->
  (rows t <> [] ->
   exists s', addTableRow blockId s = Returned s' /\
              deleteTableRow blockId (-1) s' = Returned s) /\
  (headers t <> [] ->
   exists s', addTableColumn blockId s = Returned s' /\
              deleteTableColumn blockId (-1) s' = Returned s).
Proof.
  intros Ht. split; intros Hne.
  - apply (on_table_compose blockId (table_deleteRow (-1)) table_addRow s t Ht).
    assert (Hlen : (1 <= length (rows t))%nat) by (destruct (rows t); [done|simpl; lia]).
    unfold table_deleteRow, table_addRow. cbn [rows headers]. rewrite length_app.
    cbn [length]. destruct (Nat.ltb_spec 1 (length (rows t) + 1)); [|lia].
    rewrite splice1_last. apply table_eta.
  - apply (on_table_compose blockId (table_deleteColumn (-1)) table_addColumn s t Ht).
    assert (Hlen : (1 <= length (headers t))%nat) by (destruct (headers t); [done|simpl; lia]).
    unfold table_deleteColumn, table_addColumn. cbn [rows headers]. rewrite length_app.
    cbn [length]. destruct (Nat.ltb_spec 1 (length (headers t) + 1)); [|lia].
    rewrite splice1_last, map_splice1_last. apply table_eta.
Qed.

Lemma table_add_then_delete_last_witness :
  exists t,
    table_of "b3" three_blocks = Some t /\
    exists s', addTableRow "b3" three_blocks = Returned s' /\
               deleteTableRow "b3" (-1) s' = Returned three_blocks.
Proof.
  eexists. split; [reflexivity|].
  refine (proj1 (table_add_then_delete_last "b3" three_blocks _ eq_refl) _).
  discriminate.
Defined.

(** X17: the index of [deleteTableRow] follows [splice]: on a table with
    more than one row, an index at or past the number of rows deletes
    nothing, an index [k] inside deletes row [k], [-k] deletes the [k]-th
    row from the end, and an index below minus the number of rows deletes
    the first row. *)
Theorem deleteTableRow_index (t : TableContent) :
  (1 < length (rows t))%nat ->
  (forall i, Z.of_nat (length (rows t)) <= i -> table_deleteRow i t = t) /\
  (forall k, (k < length (rows t))%nat ->
     rows (table_deleteRow (Z.of_nat k) t) = take k (rows t) ++ drop (S k) (rows t)) /\
  (forall k, (1 <= k <= length (rows t))%nat ->
     rows (table_deleteRow (- Z.of_nat k) t) =
       take (length (rows t) - k) (rows t) ++ drop (S (length (rows t) - k)) (rows t)) /\
  (forall i, i < - Z.of_nat (length (rows t)) ->
     rows (table_deleteRow i t) = drop 1 (rows t)) /\
  (forall i, headers (table_deleteRow i t) = headers t).
Proof.
  intros Hlen. unfold table_deleteRow.
  destruct (Nat.ltb_spec 1 (length (rows t))); [|lia].
  split; [|split; [|split; [|split]]]; simpl.
  - intros i Hi. rewrite splice1_past_end by done. apply table_eta.
  - intros k Hk. by apply splice1_in_range.
  - intros k Hk. by apply splice1_from_end.
  - intros i Hi. by apply splice1_before_start.
  - done.
Qed.

Lemma deleteTableRow_index_witness :
  exists t,
    getDefaultContent Table = TableData t /\ (1 < length (rows t))%nat /\
    table_deleteRow 2 t = t /\
    rows (table_deleteRow (-7) t) = [["Cell 4"; "Cell 5"; "Cell 6"]].
Proof.
  eexists. split; [reflexivity|].
  assert (H : (1 < length (rows (mkTable ["Column 1"; "Column 2"; "Column 3"]
                 [["Cell 1"; "Cell 2"; "Cell 3"]; ["Cell 4"; "Cell 5"; "Cell 6"]])))%nat)
    by (simpl; lia).
  split; [exact H|].
  destruct (deleteTableRow_index _ H) as (Hpast & _ & _ & Hbefore & _).
  split; [apply Hpast; simpl; lia|]. apply Hbefore. simpl. lia.
Defined.

(** ** Saving and loading *)

Lemma map_of_entries_from {V} (acc l : list (string * V)) :
  NoDup (List.map fst (acc ++ l)) ->
  fold_left (fun m e => map_set (fst e) (snd e) m) l acc = acc ++ l.
Proof.
  revert acc. induction l as [|[k v] l IH]; intros acc Hnd; simpl.
  - by rewrite app_nil_r.
  - rewrite map_set_new.
    + rewrite IH; rewrite <- app_assoc; done.
    + apply map_has_false. rewrite map_app in Hnd. simpl in Hnd.
      apply NoDup_app in Hnd as (_ & Hdis & _). intros Hin.
      apply (Hdis k Hin). by left.
Qed.

Lemma map_of_entries_NoDup {V} (l : list (string * V)) :
  NoDup (List.map fst l) -> map_of_entries l = l.
Proof. intros H. unfold map_of_entries. by rewrite map_of_entries_from. Qed.

Lemma default_order_defined_from n (bs : list Block) :
  Forall (fun b => order b <> None) bs ->
  List.map default_order (indexed_from n bs) = bs.
Proof.
  intros H. revert n. induction H as [|b bs Hb Hbs IH]; intros n; [done|].
  rewrite indexed_from_cons. simpl. rewrite IH. f_equal.
  unfold default_order. simpl. by destruct (order b).
Qed.

Lemma default_group_orders_defined n (gs : list (string * Group)) :
  Forall (fun e => gorder (snd e) <> None) gs -> default_group_orders n gs = gs.
Proof.
  intros H. revert n. induction H as [|e gs He Hgs IH]; intros n; [done|].
  simpl. destruct (gorder (snd e)); [|done]. by rewrite IH.
Qed.

Lemma load_saved_state (ids : nat -> string) (s s0 : State) :
  orders_defined s ->
  NoDup (List.map fst (variables s)) -> NoDup (group_keys s) ->
  loadFromStorage (Parsed (saved s)) ids s0 = s.
Proof.
  intros [Hb Hg] Hv Hk. unfold loadFromStorage, saved. simpl.
  rewrite !map_of_entries_NoDup by done.
  unfold indexed. rewrite default_order_defined_from, default_group_orders_defined by done.
  by destruct s.
Qed.

(** X18: loading what was saved restores the state, when every block and
    group has an [order] and the ids of the variables and of the groups are
    distinct (as the keys of a [Map] are). *)
Theorem load_restores_saved_state (ids : nat -> string) (s s0 : State) :
  orders_defined s ->
  NoDup (List.map fst (variables s)) -> NoDup (group_keys s) ->
  loadFromStorage (Parsed (saved s)) ids s0 = s.
Proof. apply load_saved_state. Qed.

Lemma load_restores_saved_state_witness :
  orders_defined grouped_pair /\
  loadFromStorage (Parsed (saved grouped_pair)) pretty constructor = grouped_pair.
Proof.
  assert (Ho : orders_defined grouped_pair).
  { split; repeat constructor; discriminate. }
  split; [exact Ho|].
  apply (load_restores_saved_state pretty grouped_pair constructor Ho).
  - apply (bool_decide_unpack _). by vm_compute.
  - apply (bool_decide_unpack _). by vm_compute.
Defined.

Lemma default_order_lookup_from n (bs : list Block) i b :
  bs !! i = Some b ->
  List.map default_order (indexed_from n bs) !! i = Some (default_order ((n + i)%nat, b)).
Proof.
  revert n i. induction bs as [|x bs IH]; intros n i; [done|].
  rewrite indexed_from_cons. destruct i as [|i]; simpl.
  - intros [= ->]. by rewrite Nat.add_0_r.
  - intros Hb. rewrite (IH (S n) i Hb). do 3 f_equal. lia.
Qed.

Lemma default_group_orders_all n (gs : list (string * Group)) :
  Forall (fun e => gorder (snd e) <> None) (default_group_orders n gs) /\
  List.map fst (default_group_orders n gs) = List.map fst gs.
Proof.
  revert n. induction gs as [|e gs IH]; intros n; [by split|].
  simpl. destruct (gorder (snd e)) eqn:He; simpl.
  - destruct (IH n) as [H1 H2]. split; [constructor; [by rewrite He|done]|by rewrite H2].
  - destruct (IH (S n)) as [H1 H2]. split; [by constructor|by rewrite H2].
Qed.

(** X19: loading a record gives every block and every group an [order]: a
    block that has one keeps it, a block without one gets its index in the
    array, and nothing else of a block changes.  So the blocks of an
    import, saved and loaded again, have the orders 0, 1, 2, ...  A text
    that does not parse leaves the state as it is. *)
Theorem load_defines_orders (ids ids' : nat -> string) (parsed : Snapshot)
    (markdown : string) (s0 : State) :
  let s := loadFromStorage (Parsed parsed) ids s0 in
  let reloaded :=
    loadFromStorage (Parsed (saved (state_of (importMarkdown ids' markdown s0)))) ids s0 in
  orders_defined s /\
  (forall i b, or_empty (snap_blocks parsed) !! i = Some b ->
     blocks s !! i =
       Some (match order b with
             | None => set_order (Some (Z.of_nat i)) b
             | Some _ => b
             end)) /\
  length (blocks s) = length (or_empty (snap_blocks parsed)) /\
  (forall i b, blocks reloaded !! i = Some b -> order b = Some (Z.of_nat i)) /\
  loadFromStorage Corrupt ids s0 = s0.
Proof.
  intros s reloaded.
  assert (Hlookup : forall (p : Snapshot) i b,
    or_empty (snap_blocks p) !! i = Some b ->
    blocks (loadFromStorage (Parsed p) ids s0) !! i =
      Some (match order b with
            | None => set_order (Some (Z.of_nat i)) b
            | Some _ => b
            end)).
  { intros p i b Hb. simpl. unfold indexed.
    by rewrite (default_order_lookup_from 0 _ i b Hb). }
  assert (Hlen : forall p : Snapshot,
    length (blocks (loadFromStorage (Parsed p) ids s0)) = length (or_empty (snap_blocks p))).
  { intros p. simpl. rewrite length_map. unfold indexed, indexed_from.
    rewrite length_combine, length_seq. lia. }
  split; [|split; [|split; [|split]]].
  - split.
    + apply Forall_lookup. intros i b Hb.
      destruct (lookup_lt_is_Some_2 (or_empty (snap_blocks parsed)) i) as [b0 Hb0].
      { rewrite <- Hlen. by eapply lookup_lt_Some. }
      unfold s in Hb. rewrite (Hlookup parsed i b0 Hb0) in Hb. injection Hb as <-.
      by destruct (order b0) eqn:Ho; simpl; [rewrite Ho|].
    + apply default_group_orders_all.
  - apply Hlookup.
  - apply Hlen.
  - intros i b Hb.
    set (imported := blocks (state_of (importMarkdown ids' markdown s0))).
    destruct (lookup_lt_is_Some_2 imported i) as [b0 Hb0].
    { unfold reloaded in Hb. apply lookup_lt_Some in Hb. by rewrite Hlen in Hb. }
    unfold reloaded in Hb. rewrite (Hlookup (saved (state_of (importMarkdown ids' markdown s0))) i b0 Hb0) in Hb.
    injection Hb as <-.
    destruct (imported_fresh ids' markdown s0 i b0 Hb0) as (_ & _ & _ & ->). done.
  - done.
Qed.

(** ** Sessions and persistence *)

Lemma step_variables op s : variables (state_of (step op s)) = variables s.
Proof.
  destruct op; unfold step; simpl; try done.
  - unfold moveBlockUp. destruct (List.find _ _); [|done].
    destruct (truthy_groupId _).
    + destruct (_ <? _); [|done]. destruct (at_index _ _); [destruct (at_index _ _)|]; done.
    + unfold moveItemUp. destruct (_ <? _); [|done].
      destruct (at_index _ _) as [[]|]; [destruct (at_index _ _) as [[]|]..|]; done.
  - unfold moveBlockDown. destruct (List.find _ _); [|done].
    destruct (truthy_groupId _).
    + destruct (_ <? _); [|done]. destruct (at_index _ _); [destruct (at_index _ _)|]; done.
    + unfold moveItemDown. destruct (_ <? _); [|done].
      destruct (at_index _ _) as [[]|]; [destruct (at_index _ _) as [[]|]..|]; done.
  - unfold moveGroupUp, moveItemUp. destruct (_ <? _); [|done].
    destruct (at_index _ _) as [[]|]; [destruct (at_index _ _) as [[]|]..|]; done.
  - unfold moveGroupDown, moveItemDown. destruct (_ <? _); [|done].
    destruct (at_index _ _) as [[]|]; [destruct (at_index _ _) as [[]|]..|]; done.
  - unfold handleBlockSelection. by destruct (_ <? _).
  - unfold groupSelectedBlocks. by destruct (_ <? _)%nat.
  - unfold handleDrop. destruct (_ && _); [|done]. by destruct (at_index _ _).
  - unfold handleGroupDrop. destruct (_ && _); [|done]. destruct (_ && _); [|done].
    by destruct (at_index _ _).
Qed.

Lemma write_order_defined it v s : orders_defined s -> orders_defined (write_order it v s).
Proof.
  intros [Hb Hg]. destruct it; simpl.
  - split; [|done]. simpl. apply Forall_alter; [done|]. done.
  - split; [done|]. simpl. apply Forall_alter; [done|]. done.
Qed.

Lemma moveItemUp_defined t i s :
  orders_defined s -> orders_defined (state_of (moveItemUp t i s)).
Proof.
  intros H. unfold moveItemUp. destruct (_ <? _); [|done].
  destruct (at_index _ _); [|done]. destruct (at_index _ _); [|done].
  simpl. by do 2 apply write_order_defined.
Qed.

Lemma moveItemDown_defined t i s :
  orders_defined s -> orders_defined (state_of (moveItemDown t i s)).
Proof.
  intros H. unfold moveItemDown. destruct (_ <? _); [|done].
  destruct (at_index _ _); [|done]. destruct (at_index _ _); [|done].
  simpl. by do 2 apply write_order_defined.
Qed.

Lemma sorted_group_blocks_defined bs block i pb :
  Forall (fun b => order b <> None) bs ->
  at_index (sorted_group_blocks bs block) i = Some pb -> order (snd pb) <> None.
Proof.
  intros Hb [_ Hpb]%at_index_Some.
  apply list_elem_of_lookup_2 in Hpb. unfold sorted_group_blocks in Hpb.
  rewrite sort_by_Permutation in Hpb. apply filter_elem_of in Hpb as [Hin _].
  destruct pb as [p b]. apply indexed_lookup in Hin.
  rewrite Forall_lookup in Hb. by apply (Hb p b).
Qed.

Lemma swap_orders_defined a b bs :
  order (snd a) <> None -> order (snd b) <> None ->
  Forall (fun b => order b <> None) bs ->
  Forall (fun b => order b <> None) (swap_orders a b bs).
Proof.
  intros Ha Hb H. unfold swap_orders.
  apply Forall_alter; [apply Forall_alter; [done|]|]; done.
Qed.

Lemma join_all_defined g k sel bs :
  Forall (fun b => order b <> None) bs ->
  Forall (fun b => order b <> None) (join_all g k sel bs).
Proof.
  revert k bs. induction sel as [|[pos b] sel IH]; intros k bs H; [done|].
  simpl. apply IH. apply Forall_alter; [done|]. done.
Qed.

Lemma map_set_Forall {V} (P : string * V -> Prop) k v m :
  (forall k', P (k', v)) -> Forall P m -> Forall P (map_set k v m).
Proof.
  intros Hv. induction 1 as [|[k' v'] m Hx Hm IH]; simpl; [by repeat constructor|].
  destruct (String.eqb k' k); constructor; done.
Qed.

Lemma step_orders_defined op s : orders_defined s -> orders_defined (state_of (step op s)).
Proof.
  intros H. pose proof H as [Hb Hg]. destruct op; unfold step.
  - split; [|done]. simpl. apply Forall_app. split; [done|]. by repeat constructor.
  - split; [|done]. simpl. by apply Forall_List_filter.
  - unfold moveBlockUp. destruct (List.find _ _); [|done].
    destruct (truthy_groupId _); [|by apply moveItemUp_defined].
    destruct (_ <? _); [|done].
    destruct (at_index _ (findIndex _ _)) eqn:H1; [|done].
    destruct (at_index _ (_ - 1)) eqn:H2; [|done].
    split; [|exact Hg]. simpl.
    apply swap_orders_defined; eauto using sorted_group_blocks_defined.
  - unfold moveBlockDown. destruct (List.find _ _); [|done].
    destruct (truthy_groupId _); [|by apply moveItemDown_defined].
    destruct (_ <? _); [|done].
    destruct (at_index _ (findIndex _ _)) eqn:H1; [|done].
    destruct (at_index _ (_ + 1)) eqn:H2; [|done].
    split; [|exact Hg]. simpl.
    apply swap_orders_defined; eauto using sorted_group_blocks_defined.
  - by apply moveItemUp_defined.
  - by apply moveItemDown_defined.
  - unfold handleBlockSelection. destruct (_ <? _); [done|].
    split; [|done]. simpl. apply Forall_alter; [done|]. done.
  - unfold groupSelectedBlocks. destruct (_ <? _)%nat; [done|].
    split; simpl.
    + by apply join_all_defined.
    + apply map_set_Forall; [|done]. done.
  - split; simpl.
    + apply Forall_List_map. eapply Forall_impl; [exact Hb|].
      intros b Ho. by destruct (groupId_is _ _).
    + by apply Forall_List_filter.
  - split; simpl; by apply Forall_List_filter.
  - destruct (handleDrop_blocks blockId targetId s) as (Hp & Hgs & _)
      || destruct (handleDrop_blocks draggedId targetId s) as (Hp & Hgs & _).
    split; [by rewrite Hp|by rewrite Hgs].
  - destruct (handleGroupDrop_groups draggedGroupId targetGroupId s) as (Hp & Hbs & _).
    split; [by rewrite Hbs|by rewrite Hp].
Qed.

Lemma map_set_NoDup {V} k (v : V) (m : list (string * V)) :
  NoDup (List.map fst m) -> NoDup (List.map fst (map_set k v m)).
Proof.
  intros Hnd. rewrite map_set_keys. destruct (map_has k m) eqn:Hk; [done|].
  apply NoDup_app. split; [done|]. split; [|apply NoDup_singleton].
  intros k' Hk' ->%list_elem_of_singleton.
  apply map_has_elem_of in Hk'. congruence.
Qed.

Lemma map_get_elem_of {V} k (v : V) (m : list (string * V)) :
  map_get k m = Some v -> exists k', (k', v) ∈ m.
Proof.
  induction m as [|[k0 v0] m IH]; simpl; [done|].
  destruct (String.eqb k0 k).
  - intros [= ->]. exists k0. by left.
  - intros H. destruct (IH H) as [k' Hk']. exists k'. by right.
Qed.

Lemma map_set_same_proj {V B} (h : V -> B) k (v v0 : V) (m : list (string * V)) :
  map_get k m = Some v0 -> h v = h v0 ->
  List.map (fun e => h (snd e)) (map_set k v m) = List.map (fun e => h (snd e)) m.
Proof.
  intros Hget Hh. induction m as [|[k' v'] m IH]; simpl in *; [done|].
  destruct (String.eqb k' k); simpl.
  - injection Hget as ->. by rewrite Hh.
  - by rewrite IH.
Qed.

Lemma storable_same s s' :
  blocks s' = blocks s -> groups s' = groups s -> groupCounter s' = groupCounter s ->
  NoDup (List.map fst (variables s')) -> storable s -> storable s'.
Proof.
  intros Hb Hg Hc Hv (Ho & _ & Hinv). split; [|split; [done|]].
  - unfold orders_defined. by rewrite Hb, Hg.
  - apply (groups_inv_skeleton s); [|done]. unfold skeleton. by rewrite Hb, Hg, Hc.
Qed.

Lemma content_edit_storable c k s :
  storable s -> storable (with_blocks (alter (set_content c) k (blocks s)) s).
Proof.
  intros ([Hb Hg] & Hv & Hinv). split; [|split; [done|]].
  - split; [|done]. simpl. apply Forall_alter; [done|]. done.
  - apply (groups_inv_skeleton s); [|done]. by apply with_blocks_alter_skeleton.
Qed.

Lemma on_table_storable i f s : storable s -> storable (state_of (on_table i f s)).
Proof.
  intros H. unfold on_table. destruct (at_index _ _); [|done].
  destruct (BlockType_eqb _ _); [|done]. destruct (content _); [done|].
  by apply content_edit_storable.
Qed.

Lemma edit_storable e s : storable s -> storable (state_of (edit e s)).
Proof.
  intros H. pose proof H as (Ho & Hv & Hinv). destruct e; unfold edit.
  - split; [by apply step_orders_defined|]. split; [|by apply step_groups_inv].
    by rewrite step_variables.
  - destruct op; apply on_table_storable; done.
  - unfold handleBlockInput. destruct (_ <? _); [done|]. by apply content_edit_storable.
  - unfold handleGroupNameChange. destruct (map_get _ _) as [g|] eqn:Hget; [|done].
    destruct Ho as [Hb Hg]. split; [|split; [done|]].
    + split; [done|]. simpl. apply map_set_Forall; [|done]. intros k'. simpl.
      destruct (map_get_elem_of _ _ _ Hget) as [k0 Hin].
      exact (proj1 (Forall_forall _ _) Hg _ Hin).
    + apply (groups_inv_skeleton s); [|done]. unfold skeleton. simpl.
      rewrite map_set_keys, map_get_has, Hget.
      by rewrite (map_set_same_proj gid _ _ g).
  - apply (storable_same s); try done. simpl. by apply map_set_NoDup.
  - unfold handleVariableInput. destruct (map_get _ _); [|done].
    apply (storable_same s); try done. simpl. by apply map_set_NoDup.
  - apply (storable_same s); try done. simpl. by apply map_delete_NoDup.
Qed.

Lemma run_edits_storable es s : storable s -> storable (run_edits es s).
Proof.
  revert s. induction es as [|e es IH]; intros s Hs; [done|].
  simpl. by apply IH, edit_storable.
Qed.

Lemma constructor_storable : storable constructor.
Proof.
  split; [split; constructor|]. split; [constructor|apply constructor_groups_inv].
Qed.

(** After an import that gives a block, what is loaded is not what was
    saved: the first block comes back with the order 0 that it did not
    have. *)
Lemma reload_after_import ids ids' markdown s s0 :
  let imported := state_of (importMarkdown ids' markdown s) in
  blocks imported <> [] ->
  loadFromStorage (Parsed (saved imported)) ids s0 <> imported.
Proof.
  intros imported Hne Heq. apply (f_equal blocks) in Heq. simpl in Heq.
  destruct (blocks imported) as [|b bs] eqn:Hbs; [done|].
  assert (Ho : order b = None).
  { destruct (imported_fresh ids' markdown s 0%nat b) as (_ & _ & _ & Ho); [|done].
    fold imported. by rewrite Hbs. }
  unfold indexed in Heq. rewrite indexed_from_cons in Heq. simpl in Heq.
  injection Heq as Heq _. unfold default_order in Heq. simpl in Heq.
  rewrite Ho in Heq. apply (f_equal order) in Heq. simpl in Heq. congruence.
Qed.

(** X20: in every state reached from the empty document by [addBlock],
    [deleteBlock], the four moves, the selection of a block,
    [groupSelectedBlocks], [ungroupBlocks], [deleteGroup], the two drops,
    the four table mutators, [handleBlockInput], [handleGroupNameChange],
    [addVariable], [handleVariableInput] and [deleteVariable], each block
    and each group has an [order], and saving the state and loading it
    again gives the same state.  [importMarkdown] is not among these
    handlers: after an import that gives a block, what is loaded differs
    from what was saved. *)
Theorem session_survives_reload
    (es : list Edit) (ids ids' : nat -> string) (markdown : string) (s0 : State) :
  let s := run_edits es constructor in
  let imported := state_of (importMarkdown ids' markdown s) in
  orders_defined s /\
  loadFromStorage (Parsed (saved s)) ids s0 = s /\
  (blocks imported <> [] ->
   loadFromStorage (Parsed (saved imported)) ids s0 <> imported).
Proof.
  intros s imported.
  destruct (run_edits_storable es constructor constructor_storable) as (Ho & Hv & Hinv).
  split; [done|]. split.
  - apply load_saved_state; [done|done|]. by destruct Hinv.
  - apply reload_after_import.
Qed.

(** ** What a move does to the sequence *)

Lemma or_zero_Some v : or_zero (Some v) = v.
Proof. simpl. by destruct (Z.eqb_spec v 0). Qed.

Lemma indexed_from_ge {A} n (l : list A) pb : pb ∈ indexed_from n l -> (n <= fst pb)%nat.
Proof. destruct pb as [p x]. by intros [? _]%indexed_from_lookup. Qed.

Lemma map_fixed {A} (f : A -> A) (l : list A) :
  (forall x, x ∈ l -> f x = x) -> List.map f l = l.
Proof.
  induction l as [|x l IH]; intros H; [done|]. simpl.
  rewrite (H x) by (by left). f_equal. apply IH. intros y Hy. apply H. by right.
Qed.

Lemma indexed_from_alter {A} (f : A -> A) i n (l : list A) :
  indexed_from n (alter f i l) =
    List.map (fun pb => if (fst pb =? n + i)%nat then (fst pb, f (snd pb)) else pb)
      (indexed_from n l).
Proof.
  revert n i. induction l as [|x l IH]; intros n i; [done|].
  destruct i as [|i]; simpl alter; rewrite !indexed_from_cons; simpl List.map.
  - rewrite Nat.add_0_r, Nat.eqb_refl. simpl. f_equal.
    symmetry. apply map_fixed. intros pb Hpb%indexed_from_ge.
    destruct (Nat.eqb_spec (fst pb) n); [lia|done].
  - simpl fst. destruct (Nat.eqb_spec n (n + S i)); [lia|]. f_equal.
    change (list_alter f i l) with (alter f i l).
    rewrite IH. apply map_ext. intros pb. by replace (S n + i)%nat with (n + S i)%nat by lia.
Qed.

Lemma filter_map_comm {A B} (p : B -> bool) (g : A -> B) (l : list A) :
  List.filter p (List.map g l) = List.map g (List.filter (fun x => p (g x)) l).
Proof.
  induction l as [|x l IH]; [done|]. simpl. destruct (p (g x)); simpl; by rewrite IH.
Qed.

Lemma filter_alter_length {A} (p : A -> bool) (f : A -> A) i (l : list A) :
  (forall x, p (f x) = p x) ->
  length (List.filter p (alter f i l)) = length (List.filter p l).
Proof.
  intros Hf. revert i. induction l as [|x l IH]; intros [|i]; simpl; try done.
  - rewrite Hf. by destruct (p x).
  - change (list_alter f i l) with (alter f i l).
    destruct (p x); simpl; by rewrite IH.
Qed.

Lemma ungrouped_items_tv bs :
  List.map tagged_view (ungrouped_items bs) =
    List.map block_tv
      (List.filter (fun pb => negb (truthy_groupId (groupId (snd pb)))) (indexed bs)).
Proof. unfold ungrouped_items. by rewrite map_map. Qed.

Lemma group_items_tv bs gs :
  List.map tagged_view (group_items bs gs) =
    List.map group_tv (List.filter (has_members bs) (indexed gs)).
Proof.
  unfold group_items. induction (indexed gs) as [|[pos [k g]] l IH]; [done|].
  simpl. rewrite map_app, IH. unfold has_members. simpl.
  by destruct (0 <? _)%nat.
Qed.

Lemma has_members_alter f pos bs pe :
  (forall b, groupId (f b) = groupId b) ->
  has_members (alter f pos bs) pe = has_members bs pe.
Proof.
  intros Hf. unfold has_members, group_members, indexed.
  rewrite !(filter_indexed_length (fun b => groupId_is (groupId b) (fst (snd pe)))).
  rewrite filter_alter_length; [done|]. intros b. by rewrite Hf.
Qed.

Lemma base_items_tv s :
  List.map tagged_view (base_items s) =
    List.map block_tv
      (List.filter (fun pb => negb (truthy_groupId (groupId (snd pb)))) (indexed (blocks s))) ++
    List.map group_tv (List.filter (has_members (blocks s)) (indexed (groups s))).
Proof. unfold base_items. by rewrite map_app, ungrouped_items_tv, group_items_tv. Qed.

Lemma write_block_tv v pos s :
  List.map tagged_view (base_items (with_blocks (alter (set_order (Some v)) pos (blocks s)) s)) =
    List.map (retag (block_, pos) v) (List.map tagged_view (base_items s)).
Proof.
  rewrite !base_items_tv, map_app. simpl blocks. simpl groups. f_equal.
  - unfold indexed. rewrite indexed_from_alter, filter_map_comm.
    rewrite (filter_ext_elem _ (fun pb => negb (truthy_groupId (groupId (snd pb))))).
    2:{ intros pb. by destruct (_ =? _)%nat. }
    rewrite !map_map. apply map_ext. intros [p b]. simpl.
    unfold retag, same_tag, block_tv. simpl.
    destruct (p =? pos)%nat; simpl; [|done]. by destruct (Z.eqb_spec v 0) as [->|].
  - rewrite (filter_ext_elem _ (has_members (blocks s))).
    2:{ intros pe. by apply has_members_alter. }
    symmetry. apply map_fixed. intros x (pe & <- & _)%map_elem_of. done.
Qed.

Lemma write_group_tv v pos s :
  List.map tagged_view (base_items (with_groups (alter (set_gorder (Some v)) pos (groups s)) s)) =
    List.map (retag (group_, pos) v) (List.map tagged_view (base_items s)).
Proof.
  rewrite !base_items_tv, map_app. simpl blocks. simpl groups. f_equal.
  - symmetry. apply map_fixed. intros x (pe & <- & _)%map_elem_of. done.
  - unfold indexed. rewrite indexed_from_alter, filter_map_comm.
    rewrite (filter_ext_elem _ (has_members (blocks s))).
    2:{ intros pe. unfold has_members. by destruct (_ =? _)%nat. }
    rewrite !map_map. apply map_ext. intros [p [k g]]. simpl.
    unfold retag, same_tag, group_tv. simpl.
    destruct (p =? pos)%nat; simpl; [|done]. by destruct (Z.eqb_spec v 0) as [->|].
Qed.

Lemma write_order_tv it v s :
  List.map tagged_view (base_items (write_order it v s)) =
    List.map (retag (item_type it, item_pos it) v) (List.map tagged_view (base_items s)).
Proof. destruct it; [apply write_block_tv|apply write_group_tv]. Qed.

Lemma indexed_from_fst {A} n (l : list A) :
  List.map fst (indexed_from n l) = seq n (length l).
Proof.
  revert n. induction l as [|x l IH]; intros n; [done|].
  rewrite indexed_from_cons. simpl. by rewrite IH.
Qed.

Lemma NoDup_map_inj {A B} (g : A -> B) (l : list A) :
  (forall x y, g x = g y -> x = y) -> NoDup l -> NoDup (List.map g l).
Proof.
  intros Hg. induction 1 as [|x l Hx Hl IH]; simpl; constructor; [|done].
  intros (y & Hy & Hin)%map_elem_of. apply Hg in Hy. by subst.
Qed.

Lemma indexed_tags {A} (t : ItemType) (l : list A) :
  NoDup (List.map (fun pb : nat * A => (t, fst pb)) (indexed l)).
Proof.
  rewrite <- (map_map fst (pair t)). unfold indexed. rewrite indexed_from_fst.
  apply NoDup_map_inj; [by intros x y [= ->]|apply NoDup_seq].
Qed.

Lemma base_items_tags s : NoDup (List.map tag (List.map tagged_view (base_items s))).
Proof.
  rewrite base_items_tv, map_app, !map_map. apply NoDup_app. split; [|split].
  - apply (NoDup_map_filter (fun pb : nat * Block => (block_, fst pb))), indexed_tags.
  - intros t (pb & <- & _)%map_elem_of (pe & He & _)%map_elem_of. done.
  - apply (NoDup_map_filter (fun pe : nat * (string * Group) => (group_, fst pe))), indexed_tags.
Qed.

Lemma tv_sorted s :
  List.map tagged_view (getAllOrderedItems s) =
    sort_by tv_order (List.map tagged_view (base_items s)).
Proof. symmetry. apply (sort_by_map tv_order tagged_view). Qed.

Lemma StronglySorted_keys {A} (k : A -> Z) (l : list A) :
  StronglySorted (fun a b => k a <= k b) l <-> StronglySorted Z.le (List.map k l).
Proof.
  induction l as [|x l IH]; simpl; [split; constructor|].
  split; intros H; inversion H; subst; constructor;
    try (by apply IH); by apply Forall_List_map.
Qed.

Lemma sort_by_fixed {A} (k : A -> Z) (l : list A) :
  StronglySorted (fun a b => k a <= k b) l -> sort_by k l = l.
Proof.
  induction 1 as [|x l Hl IH Hx]; simpl; [done|]. rewrite IH.
  destruct l as [|y l]; [done|]. simpl.
  apply Forall_cons in Hx as [Hxy _]. by rewrite (proj2 (Z.leb_le _ _) Hxy).
Qed.

Lemma same_tag_spec t x : same_tag t x = true <-> tag x = t.
Proof.
  unfold same_tag. destruct t as [ty p], (tag x) as [ty' p']. simpl.
  rewrite andb_true_iff, Nat.eqb_eq. split.
  - intros [Hty ->]. by destruct ty, ty'.
  - intros [= -> ->]. by destruct ty.
Qed.

Lemma retag_other t v x : tag x <> t -> retag t v x = x.
Proof.
  intros H. unfold retag. destruct (same_tag t x) eqn:E; [|done].
  by apply same_tag_spec in E.
Qed.

Lemma retag_same v x : retag (tag x) v x = set_ord v x.
Proof.
  unfold retag. by rewrite (proj2 (same_tag_spec (tag x) x) eq_refl).
Qed.

(** Two neighbours of the sorted sequence trade their orders: the sort
    then puts each in the place of the other. *)
Lemma sort_by_swap (L P Q : list TaggedView) (a b : TaggedView) (R : TaggedView -> TaggedView) :
  NoDup (List.map tag L) -> NoDup (List.map tv_order L) ->
  sort_by tv_order L = P ++ a :: b :: Q ->
  R a = set_ord (tv_order b) a -> R b = set_ord (tv_order a) b ->
  (forall x, tag x <> tag a -> tag x <> tag b -> R x = x) ->
  sort_by tv_order (List.map R L) =
    P ++ set_ord (tv_order a) b :: set_ord (tv_order b) a :: Q.
Proof.
  intros Htag Hord Hs Ra Rb Rx.
  assert (Hp : P ++ a :: b :: Q ≡ₚ L) by (rewrite <- Hs; apply sort_by_Permutation).
  pose proof (Permutation_NoDup_map tag _ _ Hp Htag) as Htags.
  pose proof (Permutation_NoDup_map tv_order _ _ Hp Hord) as Hords.
  rewrite map_app in Htags. simpl in Htags.
  apply NoDup_app in Htags as (_ & HPd & Hab).
  apply NoDup_cons in Hab as (Ha & Hb'). apply NoDup_cons in Hb' as (Hb & _).
  assert (HP : List.map R P = P).
  { apply map_fixed. intros x Hx.
    assert (Hin : tag x ∈ List.map tag P) by (apply map_elem_of; eauto).
    apply HPd in Hin. apply Rx; intros E; apply Hin; rewrite E.
    - by left.
    - right. by left. }
  assert (HQ : List.map R Q = Q).
  { apply map_fixed. intros x Hx.
    assert (Hin : tag x ∈ List.map tag Q) by (apply map_elem_of; eauto).
    apply Rx; intros E; rewrite E in Hin.
    - apply Ha. by right.
    - by apply Hb. }
  set (T := P ++ set_ord (tv_order a) b :: set_ord (tv_order b) a :: Q).
  assert (HT : List.map tv_order T = List.map tv_order (P ++ a :: b :: Q)).
  { unfold T. by rewrite !map_app. }
  assert (HpT : T ≡ₚ List.map R L).
  { rewrite <- Hp, map_app. simpl. rewrite HP, HQ, Ra, Rb. unfold T.
    apply Permutation_app_head, perm_swap. }
  rewrite <- (sort_by_Permutation_unique tv_order T (List.map R L) HpT) by (by rewrite HT).
  apply sort_by_fixed, (StronglySorted_keys tv_order). rewrite HT.
  apply (StronglySorted_keys tv_order). rewrite <- Hs. apply sort_by_sorted.
Qed.

Lemma sequence_view_tv s : sequence_view s = List.map snd (List.map tagged_view (getAllOrderedItems s)).
Proof. unfold sequence_view. by rewrite map_map. Qed.

Lemma distinct_orders_tv s :
  distinct_orders s -> NoDup (List.map tv_order (List.map tagged_view (base_items s))).
Proof.
  unfold distinct_orders, getAllOrderedItems. intros H. rewrite map_map.
  eapply (Permutation_NoDup_map item_order); [|exact H].
  symmetry. apply sort_by_Permutation.
Qed.

(** The two writes of a move, in either order of the two items. *)
Lemma swap_writes s (P Q : list OrderedItem) (a b x y : OrderedItem) :
  distinct_orders s ->
  getAllOrderedItems s = P ++ a :: b :: Q ->
  (x = a /\ y = b) \/ (x = b /\ y = a) ->
  sequence_view (write_order x (item_order y) (write_order y (item_order x) s)) =
    traded (List.map item_view P) (List.map item_view Q) (item_view a) (item_view b).
Proof.
  intros Hd HS Hxy.
  rewrite sequence_view_tv, tv_sorted, !write_order_tv, map_map.
  pose proof (base_items_tags s) as Htags.
  pose proof (distinct_orders_tv s Hd) as Hords.
  pose proof (tv_sorted s) as Hsort. rewrite HS, map_app in Hsort. simpl in Hsort.
  assert (Hab : tag (tagged_view a) <> tag (tagged_view b)).
  { assert (Hp : List.map tagged_view P ++ tagged_view a :: tagged_view b :: List.map tagged_view Q
                   ≡ₚ List.map tagged_view (base_items s))
      by (rewrite Hsort; apply sort_by_Permutation).
    pose proof (Permutation_NoDup_map tag _ _ Hp Htags) as H.
    rewrite map_app in H. simpl in H.
    apply NoDup_app in H as (_ & _ & H). apply NoDup_cons in H as (H & _).
    intros E. apply H. rewrite E. by left. }
  rewrite (sort_by_swap _ _ _ _ _ _ Htags Hords (eq_sym Hsort)).
  - unfold traded. rewrite map_app. simpl. rewrite !map_map. reflexivity.
  - destruct Hxy as [[-> ->]|[-> ->]].
    + change (item_type a, item_pos a) with (tag (tagged_view a)).
      change (item_type b, item_pos b) with (tag (tagged_view b)).
      rewrite (retag_other (tag (tagged_view b))) by done. apply retag_same.
    + change (item_type a, item_pos a) with (tag (tagged_view a)).
      change (item_type b, item_pos b) with (tag (tagged_view b)).
      rewrite retag_same. apply retag_other. done.
  - destruct Hxy as [[-> ->]|[-> ->]].
    + change (item_type a, item_pos a) with (tag (tagged_view a)).
      change (item_type b, item_pos b) with (tag (tagged_view b)).
      rewrite retag_same. apply retag_other. by intros E.
    + change (item_type a, item_pos a) with (tag (tagged_view a)).
      change (item_type b, item_pos b) with (tag (tagged_view b)).
      rewrite (retag_other (tag (tagged_view a))) by (by intros E). apply retag_same.
  - intros z Hza Hzb. destruct Hxy as [[-> ->]|[-> ->]].
    + change (item_type a, item_pos a) with (tag (tagged_view a)).
      change (item_type b, item_pos b) with (tag (tagged_view b)).
      rewrite (retag_other (tag (tagged_view b)) _ z) by done. by apply retag_other.
    + change (item_type a, item_pos a) with (tag (tagged_view a)).
      change (item_type b, item_pos b) with (tag (tagged_view b)).
      rewrite (retag_other (tag (tagged_view a)) _ z) by done. by apply retag_other.
Qed.

Lemma findIndex_from_middle {A} (p : A -> bool) (front : list A) x rest n :
  (forall y, y ∈ front -> p y = false) -> p x = true ->
  findIndex_from p (front ++ x :: rest) n = n + Z.of_nat (length front).
Proof.
  revert n. induction front as [|y front IH]; intros n Hfront Hx; simpl.
  - rewrite Hx. lia.
  - rewrite (Hfront y) by (by left).
    rewrite IH; [lia| |done]. intros z Hz. apply Hfront. by right.
Qed.

Lemma map_split_two {A B} (g : A -> B) (l : list A) pre a b post :
  List.map g l = pre ++ a :: b :: post ->
  exists P a' b' Q,
    l = P ++ a' :: b' :: Q /\ List.map g P = pre /\ g a' = a /\ g b' = b /\
    List.map g Q = post.
Proof.
  revert l. induction pre as [|x pre IH]; intros l; simpl.
  - destruct l as [|a' [|b' Q]]; try done. intros [= <- <- <-].
    by exists [], a', b', Q.
  - destruct l as [|y l]; [done|]. simpl. intros [= <- Hl].
    destruct (IH l Hl) as (P & a' & b' & Q & -> & <- & <- & <- & <-).
    by exists (y :: P), a', b', Q.
Qed.

Lemma is_item_key t i it : is_item t i it = true <-> fst (item_view it) = (t, i).
Proof.
  unfold is_item, item_view. simpl. rewrite andb_true_iff, String.eqb_eq. split.
  - intros [Ht ->]. by destruct (item_type it), t.
  - intros [= <- <-]. by destruct (item_type it).
Qed.

Lemma is_item_other t i it : fst (item_view it) <> (t, i) -> is_item t i it = false.
Proof.
  intros H. destruct (is_item t i it) eqn:E; [|done]. by apply is_item_key in E.
Qed.

Lemma distinct_orders_view s :
  distinct_orders s <-> NoDup (List.map snd (sequence_view s)).
Proof. unfold distinct_orders, sequence_view. by rewrite map_map. Qed.

Lemma move_neighbours s (pre post : list (ItemType * string * Z)) (a b : ItemType * string * Z) :
  distinct_orders s -> NoDup (List.map fst (sequence_view s)) ->
  sequence_view s = pre ++ a :: b :: post ->
  (exists s', moveItemUp (fst (fst b)) (snd (fst b)) s = Returned s' /\
              sequence_view s' = traded pre post a b) /\
  (exists s', moveItemDown (fst (fst a)) (snd (fst a)) s = Returned s' /\
              sequence_view s' = traded pre post a b).
Proof.
  intros Hd Hk Hv. rewrite Hv in Hk. unfold sequence_view in Hv.
  destruct (map_split_two _ _ _ _ _ _ Hv) as (P & a' & b' & Q & HS & <- & <- & <- & <-).
  rewrite map_app in Hk. simpl in Hk.
  apply NoDup_app in Hk as (_ & HPd & Hab).
  apply NoDup_cons in Hab as (Ha & _).
  assert (HP : forall t i y, y ∈ P ->
            (t, i) = fst (item_view a') \/ (t, i) = fst (item_view b') ->
            is_item t i y = false).
  { intros t i y Hy Hti. apply is_item_other. intros E.
    assert (Hin : fst (item_view y) ∈ List.map fst (List.map item_view P)).
    { apply map_elem_of. exists (item_view y). split; [done|].
      apply map_elem_of. eauto. }
    apply HPd in Hin. apply Hin. rewrite E.
    destruct Hti as [->| ->]; [by left|right; by left]. }
  assert (Hlen : length (P ++ a' :: b' :: Q) = (length P + 2 + length Q)%nat).
  { rewrite length_app. simpl. lia. }
  split.
  - assert (Hidx : findIndex (is_item (fst (fst (item_view b'))) (snd (fst (item_view b'))))
                     (getAllOrderedItems s) = Z.of_nat (S (length P))).
    { rewrite HS. change (P ++ a' :: b' :: Q) with (P ++ [a'] ++ b' :: Q).
      rewrite app_assoc. unfold findIndex. rewrite findIndex_from_middle.
      - rewrite length_app. simpl. lia.
      - intros y [Hy|Hy%list_elem_of_singleton]%elem_of_app.
        + apply HP; [done|]. right. by destruct (item_view b') as [[] ?].
        + subst y. apply is_item_other. intros E. apply Ha.
          simpl in E. rewrite E. by left.
      - apply is_item_key. by destruct (item_view b') as [[] ?]. }
    unfold moveItemUp. cbv zeta. rewrite Hidx.
    replace (Z.of_nat (S (length P)) - 1) with (Z.of_nat (length P)) by lia.
    rewrite !at_index_nat, HS.
    rewrite (list_lookup_middle P (b' :: Q) a' (length P) eq_refl).
    change (P ++ a' :: b' :: Q) with (P ++ [a'] ++ b' :: Q). rewrite app_assoc.
    rewrite (list_lookup_middle (P ++ [a']) Q b' (S (length P))).
    2:{ rewrite length_app. simpl. lia. }
    destruct (Z.ltb_spec 0 (Z.of_nat (S (length P)))); [|lia].
    eexists. split; [reflexivity|].
    apply (swap_writes s P Q a' b' a' b' Hd); [exact HS|by left].
  - assert (Hidx : findIndex (is_item (fst (fst (item_view a'))) (snd (fst (item_view a'))))
                     (getAllOrderedItems s) = Z.of_nat (length P)).
    { rewrite HS. unfold findIndex. rewrite findIndex_from_middle.
      - lia.
      - intros y Hy. apply HP; [done|]. left. by destruct (item_view a') as [[] ?].
      - apply is_item_key. by destruct (item_view a') as [[] ?]. }
    unfold moveItemDown. cbv zeta. rewrite Hidx.
    replace (Z.of_nat (length P) + 1) with (Z.of_nat (S (length P))) by lia.
    rewrite !at_index_nat, HS, Hlen.
    rewrite (list_lookup_middle P (b' :: Q) a' (length P) eq_refl).
    change (P ++ a' :: b' :: Q) with (P ++ [a'] ++ b' :: Q). rewrite app_assoc.
    rewrite (list_lookup_middle (P ++ [a']) Q b' (S (length P))).
    2:{ rewrite length_app. simpl. lia. }
    destruct (Z.ltb_spec (Z.of_nat (length P)) (Z.of_nat (length P + 2 + length Q) - 1)); [|lia].
    eexists. split; [reflexivity|].
    apply (swap_writes s P Q a' b' b' a' Hd); [exact HS|by right].
Qed.

Lemma traded_orders pre post a b :
  List.map snd (traded pre post a b) = List.map snd (pre ++ a :: b :: post).
Proof. unfold traded. by rewrite !map_app. Qed.

Lemma traded_keys pre post a b :
  List.map fst (traded pre post a b) ≡ₚ List.map fst (pre ++ a :: b :: post).
Proof.
  unfold traded. rewrite !map_app. simpl. apply Permutation_app_head, perm_swap.
Qed.

Lemma traded_back pre post (a b : ItemType * string * Z) :
  traded pre post (fst b, snd a) (fst a, snd b) = pre ++ a :: b :: post.
Proof. unfold traded. simpl. by destruct a, b. Qed.

(** X8: when the items of the top-level sequence have distinct [order]s and
    no two of them have the same kind and id, moving an item up makes it
    trade places and [order]s with the item before it, and moving an item
    down with the item after it; everything else stays where it is.  The
    opposite move on the same item then gives the sequence back. *)
Theorem move_trades_places_with_neighbour (s : State)
    (pre post : list (ItemType * string * Z)) (a b : ItemType * string * Z) :
  distinct_orders s -> NoDup (List.map fst (sequence_view s)) ->
  sequence_view s = pre ++ a :: b :: post ->
  (exists s', moveItemUp (fst (fst b)) (snd (fst b)) s = Returned s' /\
     sequence_view s' = pre ++ (fst b, snd a) :: (fst a, snd b) :: post /\
     sequence_view (state_of (moveItemDown (fst (fst b)) (snd (fst b)) s')) = sequence_view s) /\
  (exists s', moveItemDown (fst (fst a)) (snd (fst a)) s = Returned s' /\
     sequence_view s' = pre ++ (fst b, snd a) :: (fst a, snd b) :: post /\
     sequence_view (state_of (moveItemUp (fst (fst a)) (snd (fst a)) s')) = sequence_view s).
Proof.
  intros Hd Hk Hv.
  destruct (move_neighbours s pre post a b Hd Hk Hv) as [(s1 & Hup & Hv1) (s2 & Hdown & Hv2)].
  assert (Hnext : forall s', sequence_view s' = traded pre post a b ->
            distinct_orders s' /\ NoDup (List.map fst (sequence_view s'))).
  { intros s' Hs'. split.
    - apply distinct_orders_view. rewrite Hs', traded_orders, <- Hv.
      by apply distinct_orders_view.
    - by rewrite Hs', traded_keys, <- Hv. }
  split.
  - exists s1. split; [done|]. split; [done|].
    destruct (Hnext s1 Hv1) as [Hd1 Hk1].
    destruct (move_neighbours s1 pre post _ _ Hd1 Hk1 Hv1) as [_ (s' & Hs & Hs')].
    simpl in Hs. rewrite Hs. simpl. by rewrite Hs', traded_back.
  - exists s2. split; [done|]. split; [done|].
    destruct (Hnext s2 Hv2) as [Hd2 Hk2].
    destruct (move_neighbours s2 pre post _ _ Hd2 Hk2 Hv2) as [(s' & Hs & Hs') _].
    simpl in Hs. rewrite Hs. simpl. by rewrite Hs', traded_back.
Qed.

Lemma move_trades_places_with_neighbour_witness :
  sequence_view group_and_block = [(group_, "group_0", 0); (block_, "b3", 2)] /\
  exists s', moveItemUp block_ "b3" group_and_block = Returned s' /\
    sequence_view s' = [(block_, "b3", 0); (group_, "group_0", 2)] /\
    sequence_view (state_of (moveItemDown block_ "b3" s')) = sequence_view group_and_block.
Proof.
  split; [reflexivity|].
  refine (proj1 (move_trades_places_with_neighbour group_and_block []
                   [] (group_, "group_0", 0) (block_, "b3", 2) _ _ _)).
  - apply (bool_decide_unpack _). by vm_compute.
  - vm_compute. constructor; [|constructor; [|constructor]].
    + intros H. apply list_elem_of_singleton in H. discriminate.
    + apply not_elem_of_nil.
  - reflexivity.
Defined.
